(** * JSX tree layout of the render graph ([src/entities/RenderGraphSvg.tsx])

    A shallow embedding of [applyJsxTreeLayout] and a verification of its
    layout properties, followed by [buildCurvePath], [getEdgeStyle] and the
    component [RenderGraphSvg] that draws the layout.

    Conventions of the embedding.
    - A JavaScript [number] that holds a coordinate or a size is a rational
      [Q]: every operation the transformer performs on them ([+], [-], [*],
      [/ 2], [>]) is exact there.  Equality of coordinates that are copied is
      Leibniz equality; the value of an arithmetic expression is compared
      with [==].  [NaN] and the infinities are outside the model.
    - Depths and row counters are natural numbers (they start at 0 and are
      only ever incremented).
    - A [Map] is a [gmap]; [Map.get] of a missing key is [None].
    - [string | undefined] is [option string]; a value is falsy when it is
      [undefined] or the empty string.
    - The recursion of [dfs] and [assignPosition] is bounded by a [fuel]
      that stands for the depth of the call stack; [None] is the recursion
      that does not finish within it.  A result obtained with some fuel is
      the result with any larger fuel ([applyJsxTreeLayout_fuel_mono]), and
      as many units of fuel as there are jsx nodes suffice when none of them
      has the empty string as identifier
      ([applyJsxTreeLayout_terminates]).
    - The literal [0.3] of [buildCurvePath] is the rational [3 # 10].  The
      program rounds the product [dy * 0.3]; what is stated of the curve
      (bounds on the control points, the reversal of the curve) does not
      depend on the exact value of the product, and no equation that does
      is stated.
    - What [RenderGraphSvg] returns is a record of the elements it builds,
      with the attributes that depend on the input and the colours; the
      attributes that are the same in every drawing ([strokeWidth],
      [textAnchor], the shape of the markers, the class names) are left
      out.  The text a template literal makes of a number, the type of the
      mapping result and [buildGraphFromMappingResult], which the sources do
      not hold, are parameters of the definitions that use them. *)

From Stdlib Require Import QArith Qminmax Lqa.
From stdpp Require Import gmap strings list fin_maps.

(** ** Data model *)

(** Modelled from the spec: the union type [BuildGraph.GraphNodeKind] is
    declared in [shared/libs/buildGraph], which is not part of the sources;
    the six kinds are those of the data model (and of the [switch] of
    [RenderGraphSvg]). *)
Inductive GraphNodeKind : Set :=
  | KindIndependent
  | KindState
  | KindVariable
  | KindEffect
  | KindJsx
  | KindExternal.

#[global] Instance GraphNodeKind_eq_dec : EqDecision GraphNodeKind.
Proof. solve_decision. Defined.

(** Modelled from the spec: the union type [BuildGraph.GraphEdgeKind], as the
    cases of [getEdgeStyle] list it. *)
Inductive GraphEdgeKind : Set :=
  | EdgeFlow
  | EdgeStateDependency
  | EdgeStateMutation
  | EdgeExternal.

(** The part of [node.meta] the transformer reads:
    [node.meta as { jsxParentId?: string } | undefined]. *)
Record NodeMeta : Set := {
  jsxParentId : option string
}.

(** Modelled from the spec: [GraphNode] is the element type of the [nodes] of
    what [buildGraphFromMappingResult] returns; its declaration is not part of
    the sources.  The fields are those of the data model, which are the ones
    the transformer and the renderer read. *)
Record GraphNode : Set := {
  node_id : string;
  node_kind : GraphNodeKind;
  node_label : string;
  node_x : Q;
  node_y : Q;
  node_width : Q;
  node_height : Q;
  node_meta : option NodeMeta
}.

(** Modelled from the spec: an endpoint of an edge, a node reference with a
    cached coordinate snapshot. *)
Record EdgeEndpoint : Set := {
  ep_nodeId : option string;
  ep_x : Q;
  ep_y : Q
}.

(** Modelled from the spec: [GraphEdge], the element type of [edges]. *)
Record GraphEdge : Set := {
  edge_id : string;
  edge_kind : GraphEdgeKind;
  edge_from : EdgeEndpoint;
  edge_to : EdgeEndpoint;
  edge_label : option string
}.

(** Modelled from the spec: the column anchors, as [RenderGraphSvg] reads
    them. *)
Record ColX : Set := {
  col_independent : Q;
  col_state : Q;
  col_variable : Q;
  col_effect : Q;
  col_jsx : Q
}.

(** Modelled from the spec: [GraphLayout], the return type of
    [buildGraphFromMappingResult]. *)
Record GraphLayout : Set := {
  nodes : list GraphNode;
  edges : list GraphEdge;
  width : Q;
  height : Q;
  colX : ColX
}.

(** The values of [newNodePositions]. *)
Record Position : Set := {
  pos_x : Q;
  pos_y : Q
}.

(** ** JavaScript idioms *)

(** Truthiness of a [string | undefined]. *)
Definition truthy (s : option string) : Prop :=
  match s with
  | Some t => t ≠ EmptyString
  | None => False
  end.

#[global] Instance truthy_dec s : Decision (truthy s).
Proof. destruct s; simpl; apply _. Defined.

(** [m.get(k)] on a [Map<string, string | undefined>]. *)
Definition mapGet (m : gmap string (option string)) (k : string) : option string :=
  mjoin (m !! k).

(** [m.has(k)]. *)
Definition mapHas {V : Type} (m : gmap string V) (k : string) : Prop :=
  is_Some (m !! k).

(** [for (const a of l) { s = body(a, s) }] where the body may not finish. *)
Fixpoint forEach {A S : Type} (body : A → S → option S) (l : list A) (s : S) : option S :=
  match l with
  | [] => Some s
  | a :: l' =>
      match body a s with
      | Some s' => forEach body l' s'
      | None => None
      end
  end.

(** ** The transformer *)

(** The layout parameters: [depthGapX], [baseY] and [rowGapY]. *)
Definition depthGapX : Q := 160.
Definition baseY : Q := 80.
Definition rowGapY : Q := 40.

(** A depth or a row counter as a coordinate. *)
Definition ofNat (n : nat) : Q := inject_Z (Z.of_nat n).

(** [meta?.jsxParentId] *)
Definition declaredParent (node : GraphNode) : option string :=
  node_meta node ≫= jsxParentId.

(** [nodes.filter((n) => n.kind === "jsx")] *)
Definition jsxNodesOf (nodes : list GraphNode) : list GraphNode :=
  filter (λ n, node_kind n = KindJsx) nodes.

(** [for (const node of jsxNodes) parentIdMap.set(node.id, meta?.jsxParentId)]:
    a later node with the same identifier overwrites the entry. *)
Definition parentIdMapOf (jsxNodes : list GraphNode) : gmap string (option string) :=
  foldl (λ m node, <[node_id node := declaredParent node]> m) ∅ jsxNodes.

(** [for (const node of nodes) map.set(node.id, node)]: the loop that fills
    [jsxNodeById] from the jsx nodes and [nodeByIdAfter] from [newNodes]. *)
Definition nodeByIdOf (nodes : list GraphNode) : gmap string GraphNode :=
  foldl (λ m node, <[node_id node := node]> m) ∅ nodes.

(** The state of the first pass: [depthById] and [rowIndexByDepth]. *)
Record DfsState : Type := {
  depthById : gmap string nat;
  rowIndexByDepth : gmap nat nat
}.

(** The state of the second pass: [usedRowsPerDepth] and
    [newNodePositions]. *)
Record PosState : Type := {
  usedRowsPerDepth : gmap nat nat;
  newNodePositions : gmap string Position
}.

Section Passes.
Variable jsxNodes : list GraphNode.
Variable parentIdMap : gmap string (option string).
Variable jsxNodeById : gmap string GraphNode.

(** The predicate of [rootJsxNodes]:
    [!parentId || !jsxNodeById.has(parentId)]. *)
Definition isRoot (node : GraphNode) : Prop :=
  let parentId := mapGet parentIdMap (node_id node) in
  ¬ truthy parentId ∨ ¬ mapHas jsxNodeById (default EmptyString parentId).

#[global] Instance isRoot_dec node : Decision (isRoot node).
Proof. unfold isRoot, mapHas. apply _. Defined.

Definition rootJsxNodesOf : list GraphNode := filter isRoot jsxNodes.

(** [jsxNodes.filter((child) => parentIdMap.get(child.id) === node.id)] *)
Definition childrenOf (node : GraphNode) : list GraphNode :=
  filter (λ child, mapGet parentIdMap (node_id child) = Some (node_id node)) jsxNodes.

(** The two assignments at the head of [dfs]. *)
Definition dfsVisit (node : GraphNode) (depth : nat) (st : DfsState) : DfsState :=
  let currentRow := default 0 (rowIndexByDepth st !! depth) in
  {| depthById := <[node_id node := depth]> (depthById st);
     rowIndexByDepth := <[depth := currentRow + 1]> (rowIndexByDepth st) |}.

Fixpoint dfs (fuel : nat) (node : GraphNode) (depth : nat) (st : DfsState) : option DfsState :=
  match fuel with
  | 0 => None
  | S fuel' =>
      forEach (λ child, dfs fuel' child (depth + 1)) (childrenOf node)
              (dfsVisit node depth st)
  end.

Section Positions.
Variable baseX : Q.
Variable maxDepth : nat.

Definition positionAt (depth used : nat) : Position :=
  {| pos_x := (baseX - (ofNat maxDepth * depthGapX) / 2 + ofNat depth * depthGapX)%Q;
     pos_y := (baseY + ofNat used * rowGapY)%Q |}.

(** The assignments at the head of [assignPosition]. *)
Definition posVisit (node : GraphNode) (depth : nat) (st : PosState) : PosState :=
  let used := default 0 (usedRowsPerDepth st !! depth) in
  {| usedRowsPerDepth := <[depth := used + 1]> (usedRowsPerDepth st);
     newNodePositions := <[node_id node := positionAt depth used]> (newNodePositions st) |}.

Fixpoint assignPosition (fuel : nat) (node : GraphNode) (depth : nat) (st : PosState) : option PosState :=
  match fuel with
  | 0 => None
  | S fuel' =>
      forEach (λ child, assignPosition fuel' child (depth + 1)) (childrenOf node)
              (posVisit node depth st)
  end.
End Positions.
End Passes.

(** [let maxDepth = 0; for (const d of depthById.values()) if (d > maxDepth) maxDepth = d] *)
Definition maxDepthOf (depthById : gmap string nat) : nat :=
  map_fold (λ _ d maxDepth, if decide (maxDepth < d) then d else maxDepth) 0 depthById.

(** The callback of [nodes.map] that builds [newNodes]. *)
Definition moveNode (newNodePositions : gmap string Position) (node : GraphNode) : GraphNode :=
  match newNodePositions !! node_id node with
  | None => node
  | Some pos =>
      {| node_id := node_id node;
         node_kind := node_kind node;
         node_label := node_label node;
         node_x := pos_x pos;
         node_y := pos_y pos;
         node_width := node_width node;
         node_height := node_height node;
         node_meta := node_meta node |}
  end.

(** [if (nodeId && nodeByIdAfter.has(nodeId)) { ...endpoint, x: n.x, y: n.y }] *)
Definition snapEndpoint (nodeByIdAfter : gmap string GraphNode) (ep : EdgeEndpoint) : EdgeEndpoint :=
  if decide (truthy (ep_nodeId ep)) then
    match nodeByIdAfter !! default EmptyString (ep_nodeId ep) with
    | Some n => {| ep_nodeId := ep_nodeId ep; ep_x := node_x n; ep_y := node_y n |}
    | None => ep
    end
  else ep.

(** The callback of [edges.map] that builds [newEdges]. *)
Definition snapEdge (nodeByIdAfter : gmap string GraphNode) (edge : GraphEdge) : GraphEdge :=
  {| edge_id := edge_id edge;
     edge_kind := edge_kind edge;
     edge_from := snapEndpoint nodeByIdAfter (edge_from edge);
     edge_to := snapEndpoint nodeByIdAfter (edge_to edge);
     edge_label := edge_label edge |}.

(** [if (extent > max) max = extent] *)
Definition grow (max extent : Q) : Q :=
  if Qlt_le_dec max extent then extent else max.

(** [node.y + node.height / 2 + 40] and [node.x + node.width / 2 + 40] *)
Definition bottomOf (node : GraphNode) : Q := (node_y node + node_height node / 2 + 40)%Q.
Definition rightOf (node : GraphNode) : Q := (node_x node + node_width node / 2 + 40)%Q.

(** The two loops that correct the height and the width. *)
Definition maxYOf (height : Q) (newNodes : list GraphNode) : Q :=
  foldl (λ maxY node, grow maxY (bottomOf node)) height newNodes.

Definition maxXOf (width : Q) (newNodes : list GraphNode) : Q :=
  foldl (λ maxX node, grow maxX (rightOf node)) width newNodes.

(** The maps of both passes start empty. *)
Definition dfsInit : DfsState := {| depthById := ∅; rowIndexByDepth := ∅ |}.
Definition posInit : PosState := {| usedRowsPerDepth := ∅; newNodePositions := ∅ |}.

(** The first pass over the roots. *)
Definition depthPass (fuel : nat) (jsxNodes : list GraphNode) : option DfsState :=
  let parentIdMap := parentIdMapOf jsxNodes in
  let jsxNodeById := nodeByIdOf jsxNodes in
  forEach (λ root, dfs jsxNodes parentIdMap fuel root 0)
          (rootJsxNodesOf jsxNodes parentIdMap jsxNodeById) dfsInit.

(** The second pass over the roots. *)
Definition positionPass (fuel : nat) (jsxNodes : list GraphNode) (baseX : Q) (maxDepth : nat) : option PosState :=
  let parentIdMap := parentIdMapOf jsxNodes in
  let jsxNodeById := nodeByIdOf jsxNodes in
  forEach (λ root, assignPosition jsxNodes parentIdMap baseX maxDepth fuel root 0)
          (rootJsxNodesOf jsxNodes parentIdMap jsxNodeById) posInit.

(** [applyJsxTreeLayout(layout)], with the depth [fuel] of the call stack. *)
Definition applyJsxTreeLayout (fuel : nat) (layout : GraphLayout) : option GraphLayout :=
  let jsxNodes := jsxNodesOf (nodes layout) in
  if decide (length jsxNodes = 0) then Some layout
  else
    st ← depthPass fuel jsxNodes;
    let maxDepth := maxDepthOf (depthById st) in
    ps ← positionPass fuel jsxNodes (col_jsx (colX layout)) maxDepth;
    let newNodes := moveNode (newNodePositions ps) <$> nodes layout in
    let nodeByIdAfter := nodeByIdOf newNodes in
    let newEdges := snapEdge nodeByIdAfter <$> edges layout in
    Some {| nodes := newNodes;
            edges := newEdges;
            width := maxXOf (width layout) newNodes;
            height := maxYOf (height layout) newNodes;
            colX := colX layout |}.

(** ** The order of the traversal *)

(** One entry per call of [dfs] (or of [assignPosition]): the node and the
    depth it is called with. *)
Abbreviation Visit := (GraphNode * nat)%type.

Section Traces.
Variable jsxNodes : list GraphNode.
Variable parentIdMap : gmap string (option string).

(** The calls a traversal started at [node] makes, in order. *)
Fixpoint visits (fuel : nat) (node : GraphNode) (depth : nat) : option (list Visit) :=
  match fuel with
  | 0 => None
  | S fuel' =>
      ts ← mapM (λ child, visits fuel' child (depth + 1)) (childrenOf jsxNodes parentIdMap node);
      Some ((node, depth) :: concat ts)
  end.

(** A traversal that applies [visit] at the head of each call: the common
    shape of [dfs] and [assignPosition]. *)
Fixpoint walk {S : Type} (visit : GraphNode → nat → S → S)
    (fuel : nat) (node : GraphNode) (depth : nat) (st : S) : option S :=
  match fuel with
  | 0 => None
  | S fuel' =>
      forEach (λ child, walk visit fuel' child (depth + 1)) (childrenOf jsxNodes parentIdMap node)
              (visit node depth st)
  end.
End Traces.

(** The state after the calls [tr], made in that order. *)
Definition replay {S : Type} (visit : GraphNode → nat → S → S) (st : S) (tr : list Visit) : S :=
  foldl (λ s e, visit e.1 e.2 s) st tr.

(** The calls of one pass over the roots, in order. *)
Definition traversal (fuel : nat) (jsxNodes : list GraphNode) : option (list Visit) :=
  let parentIdMap := parentIdMapOf jsxNodes in
  let jsxNodeById := nodeByIdOf jsxNodes in
  (λ trs, concat trs) <$> mapM (λ root, visits jsxNodes parentIdMap fuel root 0)
                               (rootJsxNodesOf jsxNodes parentIdMap jsxNodeById).

(** The calls of [tr] made at [depth]. *)
Definition atDepth (depth : nat) (tr : list Visit) : list Visit :=
  filter (λ e, e.2 = depth) tr.

(** The calls of [tr] made on a node with identifier [i]. *)
Definition onId (i : string) (tr : list Visit) : list Visit :=
  filter (λ e, node_id e.1 = i) tr.

(** The row of the [k]-th call: how many earlier calls were made at its
    depth. *)
Definition rowOf (tr : list Visit) (k depth : nat) : nat :=
  length (atDepth depth (take k tr)).

(** The identifiers of the jsx nodes of a layout. *)
Definition jsxIds (layout : GraphLayout) : list string :=
  node_id <$> jsxNodesOf (nodes layout).

(** [k] parent links up from the identifier [i], following [parentIdMap]. *)
Fixpoint ancestor (parentIdMap : gmap string (option string)) (k : nat) (i : string) : option string :=
  match k with
  | 0 => Some i
  | S k' => mapGet parentIdMap i ≫= ancestor parentIdMap k'
  end.

(** The parent links lead from [i] back to [i]. *)
Definition onCycle (parentIdMap : gmap string (option string)) (i : string) : Prop :=
  ∃ k, 0 < k ∧ ancestor parentIdMap k i = Some i.

(** The node [Map.get] finds for an identifier: the last one that carries
    it. *)
Definition lastWithId (i : string) (nodes : list GraphNode) : option GraphNode :=
  last (filter (λ n, node_id n = i) nodes).

(** ** Notions for the proofs *)

(** [a] is [i] or lies above [i] along the parent links. *)
Definition reaches (parentIdMap : gmap string (option string)) (i a : string) : Prop :=
  ∃ k, ancestor parentIdMap k i = Some a.

(** The identifiers of the nodes of a call stack, innermost call first: each
    one is declared the child of the next, and the parent of the last one, if
    any, is not among [ids]. *)
Fixpoint callChain (parentIdMap : gmap string (option string)) (ids : list string)
    (stack : list string) : Prop :=
  match stack with
  | [] => True
  | c :: rest =>
      match rest with
      | [] => ∀ q, mapGet parentIdMap c = Some q → q ∉ ids
      | p :: _ => mapGet parentIdMap c = Some p ∧ callChain parentIdMap ids rest
      end
  end.

(** The nodes the recursion can be called on: the roots, and the children
    of a node it is called on. *)
Inductive called (jsxNodes : list GraphNode) (parentIdMap : gmap string (option string))
    (jsxNodeById : gmap string GraphNode) : GraphNode → Prop :=
  | called_root root :
      root ∈ rootJsxNodesOf jsxNodes parentIdMap jsxNodeById →
      called jsxNodes parentIdMap jsxNodeById root
  | called_child node child :
      called jsxNodes parentIdMap jsxNodeById node →
      child ∈ childrenOf jsxNodes parentIdMap node →
      called jsxNodes parentIdMap jsxNodeById child.

(** The identifiers the calls of a trace are made on. *)
Definition idsOf (tr : list Visit) : list string := (λ e, node_id e.1) <$> tr.

(** A call on the node as [moveNode] leaves it, at the same depth. *)
Definition movedVisit (ps : gmap string Position) (e : Visit) : Visit :=
  (moveNode ps e.1, e.2).

(** Linear arithmetic over [Q], with the halves of the transformer written as
    products. *)
Ltac qarith :=
  unfold Qdiv in *; change (/ 2)%Q with (1 # 2)%Q in *; lra.

(** ** Scenarios *)

(** A node with a box of 120 by 28. *)
Definition mkNode (id : string) (kind : GraphNodeKind) (x y : Q) (parent : option string) : GraphNode :=
  {| node_id := id; node_kind := kind; node_label := id;
     node_x := x; node_y := y; node_width := 120; node_height := 28;
     node_meta := Some {| jsxParentId := parent |} |}.

(** Column anchors, with the jsx column at [jsx]. *)
Definition cols (jsx : Q) : ColX :=
  {| col_independent := 80; col_state := 240; col_variable := 400;
     col_effect := 560; col_jsx := jsx |}.



(** Two trees, a state node, and an edge from the state node whose cached
    snapshot, (250, 95), is not the center (240, 80) of the node. *)
Definition twoRoots : GraphLayout :=
  {| nodes := [ mkNode "count" KindState 240 80 None;
                mkNode "div" KindJsx 720 80 None;
                mkNode "button" KindJsx 720 120 (Some "div");
                mkNode "span" KindJsx 720 160 (Some "button");
                mkNode "footer" KindJsx 720 200 (Some "missing") ];
     edges := [ {| edge_id := "e1"; edge_kind := EdgeStateDependency;
                   edge_from := {| ep_nodeId := Some "count"; ep_x := 250; ep_y := 95 |};
                   edge_to := {| ep_nodeId := Some "button"; ep_x := 720; ep_y := 120 |};
                   edge_label := None |};
                {| edge_id := "e2"; edge_kind := EdgeExternal;
                   edge_from := {| ep_nodeId := None; ep_x := 10; ep_y := 20 |};
                   edge_to := {| ep_nodeId := Some "nowhere"; ep_x := 30; ep_y := 40 |};
                   edge_label := Some "ext" |} ];
     width := 800; height := 300;
     colX := cols 720 |}.

(** What the transformer returns on [twoRoots]. *)
Definition twoRootsOut : GraphLayout :=
  Eval vm_compute in default twoRoots (applyJsxTreeLayout 3 twoRoots).

(** A layout without a jsx node; the snapshot of the edge, (250, 95), is not
    the center of the node it names. *)
Definition stateOnly : GraphLayout :=
  {| nodes := [ mkNode "count" KindState 240 80 None ];
     edges := [ {| edge_id := "e1"; edge_kind := EdgeStateMutation;
                   edge_from := {| ep_nodeId := Some "count"; ep_x := 250; ep_y := 95 |};
                   edge_to := {| ep_nodeId := None; ep_x := 400; ep_y := 200 |};
                   edge_label := None |} ];
     width := 800; height := 300;
     colX := cols 720 |}.

(** A tree of depth 1 in a jsx column anchored at [x = 50]. *)
Definition narrowColumn : GraphLayout :=
  {| nodes := [ mkNode "div" KindJsx 50 80 None;
                mkNode "span" KindJsx 50 120 (Some "div") ];
     edges := [];
     width := 200; height := 200;
     colX := cols 50 |}.

(** A chain of eleven jsx nodes, each the parent of the next, in a jsx
    column anchored at [x = 720] on a canvas of 800 by 300, and what the
    transformer returns on it. *)
Definition deepChain : GraphLayout :=
  {| nodes := [ mkNode "n0" KindJsx 720 80 None;
                mkNode "n1" KindJsx 720 120 (Some "n0");
                mkNode "n2" KindJsx 720 160 (Some "n1");
                mkNode "n3" KindJsx 720 200 (Some "n2");
                mkNode "n4" KindJsx 720 240 (Some "n3");
                mkNode "n5" KindJsx 720 280 (Some "n4");
                mkNode "n6" KindJsx 720 320 (Some "n5");
                mkNode "n7" KindJsx 720 360 (Some "n6");
                mkNode "n8" KindJsx 720 400 (Some "n7");
                mkNode "n9" KindJsx 720 440 (Some "n8");
                mkNode "n10" KindJsx 720 480 (Some "n9") ];
     edges := [];
     width := 800; height := 300;
     colX := cols 720 |}.

Definition deepChainOut : GraphLayout :=
  Eval vm_compute in default deepChain (applyJsxTreeLayout 11 deepChain).

(** A jsx node whose identifier is the empty string, and an edge that names
    it. *)
Definition emptyId : GraphLayout :=
  {| nodes := [ mkNode EmptyString KindJsx 700 60 None ];
     edges := [ {| edge_id := "e1"; edge_kind := EdgeFlow;
                   edge_from := {| ep_nodeId := Some EmptyString; ep_x := 10; ep_y := 20 |};
                   edge_to := {| ep_nodeId := None; ep_x := 30; ep_y := 40 |};
                   edge_label := None |} ];
     width := 800; height := 300;
     colX := cols 720 |}.

(** A jsx node whose identifier and whose declared parent are both the empty
    string. *)
Definition selfParentNode : GraphNode :=
  mkNode EmptyString KindJsx 720 80 (Some EmptyString).

(** The layout of that node alone. *)
Definition selfParent : GraphLayout :=
  {| nodes := [ selfParentNode ];
     edges := [];
     width := 800; height := 300;
     colX := cols 720 |}.

(** A tree of two nodes next to two nodes that declare each other as
    parent, and a node that hangs below that cycle. *)
Definition withCycle : GraphLayout :=
  {| nodes := [ mkNode "app" KindJsx 720 80 None;
                mkNode "a" KindJsx 700 120 (Some "b");
                mkNode "b" KindJsx 710 160 (Some "a");
                mkNode "main" KindJsx 720 200 (Some "app");
                mkNode "below" KindJsx 730 240 (Some "a") ];
     edges := [];
     width := 800; height := 300;
     colX := cols 720 |}.

(** ** The curve of an edge *)

(** The numbers [buildCurvePath] writes into the path: the start, the two
    control points of the cubic, the end. *)
Record CurvePath : Set := {
  cp_x1 : Q;
  cp_y1 : Q;
  cp_c1x : Q;
  cp_c1y : Q;
  cp_c2x : Q;
  cp_c2y : Q;
  cp_x2 : Q;
  cp_y2 : Q
}.

(** [Math.max(Math.min(dy * 0.3, 80), -80)], with [0.3] as [3 # 10]. *)
Definition curveOffset (dy : Q) : Q :=
  Qmax (Qmin (dy * (3 # 10)) 80) (-80).

(** The assignments of [buildCurvePath]. *)
Definition curvePoints (x1 y1 x2 y2 : Q) : CurvePath :=
  let mx := ((x1 + x2) / 2)%Q in
  let dy := (y2 - y1)%Q in
  let offset := curveOffset dy in
  {| cp_x1 := x1; cp_y1 := y1;
     cp_c1x := mx; cp_c1y := (y1 + offset)%Q;
     cp_c2x := mx; cp_c2y := (y2 - offset)%Q;
     cp_x2 := x2; cp_y2 := y2 |}.

(** ** Styles *)

(** What [getEdgeStyle] returns. *)
Record EdgeStyle : Set := {
  style_stroke : string;
  style_dashed : bool;
  style_markerId : string
}.

Definition getEdgeStyle (kind : GraphEdgeKind) : EdgeStyle :=
  match kind with
  | EdgeFlow =>
      {| style_stroke := "#8b5cf6"; style_dashed := true; style_markerId := "arrow-solid" |}
  | EdgeStateDependency =>
      {| style_stroke := "#9ca3af"; style_dashed := true; style_markerId := "arrow-muted" |}
  | EdgeStateMutation =>
      {| style_stroke := "#b91c1c"; style_dashed := false; style_markerId := "arrow-accent" |}
  | EdgeExternal =>
      {| style_stroke := "#6b7280"; style_dashed := true; style_markerId := "arrow-muted" |}
  end.

(** A [<marker>] of the [<defs>] of the drawing: its [id] and the [fill] of
    its arrow head. *)
Record Marker : Set := {
  marker_id : string;
  marker_fill : string
}.

(** The three markers [RenderGraphSvg] defines. *)
Definition markerDefs : list Marker :=
  [ {| marker_id := "arrow-solid"; marker_fill := "#8b5cf6" |};
    {| marker_id := "arrow-muted"; marker_fill := "#9ca3af" |};
    {| marker_id := "arrow-accent"; marker_fill := "#b91c1c" |} ].

(** The [fill] and the [stroke] the [switch (node.kind)] of [RenderGraphSvg]
    leaves. *)
Definition nodeColors (kind : GraphNodeKind) : string * string :=
  match kind with
  | KindIndependent => ("#ffffff", "#6b7280")
  | KindState => ("#eff6ff", "#2563eb")
  | KindEffect => ("#f5f3ff", "#8b5cf6")
  | KindJsx => ("#ecfdf5", "#0f766e")
  | KindExternal => ("#f9fafb", "#9ca3af")
  | KindVariable => ("#ffffff", "#9ca3af")
  end.

(** ** The drawing *)

(** A [<text>] element; all of them have [textAnchor="middle"]. *)
Record SvgText : Set := {
  text_x : Q;
  text_y : Q;
  text_fontSize : Q;
  text_fill : string;
  text_content : string
}.

(** The [<path>] of an edge. *)
Record SvgPath : Set := {
  path_d : string;
  path_stroke : string;
  path_strokeDasharray : option string;
  path_markerEnd : string
}.

(** The [<g key={edge.id}>] of an edge: its path and, when the edge has a
    label, the text of the label. *)
Record EdgeView : Set := {
  ev_key : string;
  ev_path : SvgPath;
  ev_label : option SvgText
}.

(** The [<rect>] of a node. *)
Record SvgRect : Set := {
  rect_x : Q;
  rect_y : Q;
  rect_rx : Q;
  rect_ry : Q;
  rect_width : Q;
  rect_height : Q;
  rect_fill : string;
  rect_stroke : string
}.

(** The [<g key={node.id}>] of a node: its rectangle and its label. *)
Record NodeView : Set := {
  nv_key : string;
  nv_rect : SvgRect;
  nv_text : SvgText
}.

(** The [<svg>] element. *)
Record SvgView : Set := {
  svg_width : Q;
  svg_height : Q;
  svg_defs : list Marker;
  svg_titles : list SvgText;
  svg_edges : list EdgeView;
  svg_nodes : list NodeView
}.

(** What [RenderGraphSvg] returns: one of the two messages or the
    drawing. *)
Inductive Rendered : Set :=
  | NoResult
  | NoNodes
  | Drawing (svg : SvgView).

(** The five column titles, at [y = 40]. *)
Definition columnTitles (colX : ColX) : list SvgText :=
  let title x content :=
    {| text_x := x; text_y := 40; text_fontSize := 11; text_fill := "#4b5563";
       text_content := content |} in
  [ title (col_independent colX) "렌더링 독립";
    title (col_state colX) "렌더링 결정 / 상태";
    title (col_variable colX) "변수 / 헬퍼";
    title (col_effect colX) "렌더링 후속";
    title (col_jsx colX) "JSX" ].

(** The callback of [nodes.map] in the drawing. *)
Definition nodeView (node : GraphNode) : NodeView :=
  let radius := 6%Q in
  let rectX := (node_x node - node_width node / 2)%Q in
  let rectY := (node_y node - node_height node / 2)%Q in
  {| nv_key := node_id node;
     nv_rect := {| rect_x := rectX; rect_y := rectY;
                   rect_rx := radius; rect_ry := radius;
                   rect_width := node_width node; rect_height := node_height node;
                   rect_fill := (nodeColors (node_kind node)).1;
                   rect_stroke := (nodeColors (node_kind node)).2 |};
     nv_text := {| text_x := node_x node; text_y := (node_y node + 3)%Q;
                   text_fontSize := 11; text_fill := "#111827";
                   text_content := node_label node |} |}.

Section Drawing.
(** The conversion of a number to text by a template literal; it is not
    modelled. *)
Variable numberToString : Q → string.

(** The template literal of [buildCurvePath]. *)
Definition pathData (p : CurvePath) : string :=
  "M " +:+ numberToString (cp_x1 p) +:+ " " +:+ numberToString (cp_y1 p)
  +:+ " C " +:+ numberToString (cp_c1x p) +:+ " " +:+ numberToString (cp_c1y p)
  +:+ " " +:+ numberToString (cp_c2x p) +:+ " " +:+ numberToString (cp_c2y p)
  +:+ " " +:+ numberToString (cp_x2 p) +:+ " " +:+ numberToString (cp_y2 p).

Definition buildCurvePath (x1 y1 x2 y2 : Q) : string :=
  pathData (curvePoints x1 y1 x2 y2).

(** The callback of [edges.map] in the drawing. *)
Definition edgeView (edge : GraphEdge) : EdgeView :=
  let style := getEdgeStyle (edge_kind edge) in
  let d := buildCurvePath (ep_x (edge_from edge)) (ep_y (edge_from edge))
                          (ep_x (edge_to edge)) (ep_y (edge_to edge)) in
  let midX := ((ep_x (edge_from edge) + ep_x (edge_to edge)) / 2)%Q in
  let midY := ((ep_y (edge_from edge) + ep_y (edge_to edge)) / 2)%Q in
  {| ev_key := edge_id edge;
     ev_path := {| path_d := d;
                   path_stroke := style_stroke style;
                   path_strokeDasharray := if style_dashed style then Some "3 2" else None;
                   path_markerEnd := "url(#" +:+ style_markerId style +:+ ")" |};
     ev_label := if decide (truthy (edge_label edge)) then
                   Some {| text_x := midX; text_y := (midY - 4)%Q;
                           text_fontSize := 9; text_fill := style_stroke style;
                           text_content := default EmptyString (edge_label edge) |}
                 else None |}.

(** Modelled from the spec: the result of the code analysis that
    [buildGraphFromMappingResult] turns into the base graph; both belong to
    modules that are not part of the sources. *)
Variable MappingResult : Type.
Variable buildGraphFromMappingResult : option MappingResult → GraphLayout.

(** [RenderGraphSvg({ mappingResult, svgRef })]: the layout is computed
    first, by the [useMemo] hook, also when there is no mapping result; the
    reference to the DOM element is not modelled. *)
Definition RenderGraphSvg (fuel : nat) (mappingResult : option MappingResult) : option Rendered :=
  layout ← applyJsxTreeLayout fuel (buildGraphFromMappingResult mappingResult);
  Some match mappingResult with
       | None => NoResult
       | Some _ =>
           if decide (length (nodes layout) = 0) then NoNodes
           else Drawing {| svg_width := width layout;
                           svg_height := height layout;
                           svg_defs := markerDefs;
                           svg_titles := columnTitles (colX layout);
                           svg_edges := edgeView <$> edges layout;
                           svg_nodes := nodeView <$> nodes layout |}
       end.
End Drawing.


(** ** Order and anchors *)

(** [a] occurs before [b] in [l]. *)
Definition before {A : Type} (a b : A) (l : list A) : Prop :=
  ∃ l1 l2 l3, l = l1 ++ a :: l2 ++ b :: l3.

(** An endpoint that names none of the identifiers [ids]: it has no node
    reference, the empty string, or an identifier outside [ids]. *)
Definition unanchored (ids : list string) (ep : EdgeEndpoint) : Prop :=
  ep_nodeId ep = None ∨ ep_nodeId ep = Some EmptyString
  ∨ ∃ i, ep_nodeId ep = Some i ∧ i ∉ ids.

(** [(x, y)] is the place of the endpoint [ep] among the nodes [ns]: the
    centre of a node that carries its non-empty identifier, or, when it names
    none of them, the coordinates cached in it. *)
Definition endpointAt (ns : list GraphNode) (ep : EdgeEndpoint) (x y : Q) : Prop :=
  (unanchored (node_id <$> ns) ep ∧ x = ep_x ep ∧ y = ep_y ep)
  ∨ ∃ n, n ∈ ns ∧ ep_nodeId ep = Some (node_id n) ∧ node_id n ≠ EmptyString
         ∧ x = node_x n ∧ y = node_y n.

(** ** Further scenarios *)

(** The calls of a pass over the jsx nodes of [twoRoots]. *)
Definition twoRootsCalls : list Visit :=
  Eval vm_compute in default [] (traversal 3 (jsxNodesOf (nodes twoRoots))).

(** A root with two children, and what the transformer returns on it. *)
Definition siblings : GraphLayout :=
  {| nodes := [ mkNode "ul" KindJsx 720 80 None;
                mkNode "first" KindJsx 720 120 (Some "ul");
                mkNode "title" KindVariable 400 80 None;
                mkNode "second" KindJsx 720 160 (Some "ul") ];
     edges := [];
     width := 800; height := 300;
     colX := cols 720 |}.

Definition siblingsOut : GraphLayout :=
  Eval vm_compute in default siblings (applyJsxTreeLayout 2 siblings).

Definition siblingsCalls : list Visit :=
  Eval vm_compute in default [] (traversal 2 (jsxNodesOf (nodes siblings))).

(** The drawing of [twoRoots], with every number of a path written as
    [n]. *)
Definition drawingOf (r : option Rendered) : SvgView :=
  match r with
  | Some (Drawing svg) => svg
  | _ => {| svg_width := 0; svg_height := 0; svg_defs := []; svg_titles := [];
            svg_edges := []; svg_nodes := [] |}
  end.

Definition twoRootsSvg : SvgView :=
  Eval vm_compute in
    drawingOf (RenderGraphSvg (λ _, "n") unit (λ _, twoRoots) 3 (Some tt)).
(** * Verification *)

(** ** Loops and traces *)

Lemma replay_app {S : Type} (visit : GraphNode → nat → S → S) st tr1 tr2 :
  replay visit st (tr1 ++ tr2) = replay visit (replay visit st tr1) tr2.
Proof. apply foldl_app. Qed.

Lemma forEach_ext {A S : Type} (f g : A → S → option S) l s :
  (∀ a s, a ∈ l → f a s = g a s) → forEach f l s = forEach g l s.
Proof.
  revert s. induction l as [|a l IH]; intros s Hfg; simpl; [done|].
  rewrite Hfg by left. destruct (g a s); [|done].
  apply IH. intros; apply Hfg. by right.
Qed.

Lemma forEach_replay {A S : Type} (visit : GraphNode → nat → S → S)
    (body : A → S → option S) (t : A → option (list Visit)) l s :
  (∀ a s, a ∈ l → body a s = replay visit s <$> t a) →
  forEach body l s = (λ trs, replay visit s (concat trs)) <$> mapM t l.
Proof.
  revert s. induction l as [|a l IH]; intros s Hb; simpl; [done|].
  rewrite Hb by left. destruct (t a) as [tr|]; simpl; [|done].
  rewrite IH by (intros; apply Hb; by right).
  destruct (mapM t l) as [trs|]; simpl; [|done].
  by rewrite replay_app.
Qed.

Section TraceFacts.
Variable jsxNodes : list GraphNode.
Variable parentIdMap : gmap string (option string).

Lemma walk_visits {S : Type} (visit : GraphNode → nat → S → S) fuel node depth st :
  walk jsxNodes parentIdMap visit fuel node depth st
  = replay visit st <$> visits jsxNodes parentIdMap fuel node depth.
Proof.
  revert node depth st. induction fuel as [|fuel IH]; intros node depth st; simpl; [done|].
  rewrite (forEach_replay visit _ (λ child, visits jsxNodes parentIdMap fuel child (depth + 1)))
    by (intros; apply IH).
  by destruct (mapM _ _).
Qed.

Lemma dfs_walk fuel node depth st :
  dfs jsxNodes parentIdMap fuel node depth st
  = walk jsxNodes parentIdMap dfsVisit fuel node depth st.
Proof.
  revert node depth st. induction fuel as [|fuel IH]; intros; simpl; [done|].
  apply forEach_ext. intros; apply IH.
Qed.

Lemma assignPosition_walk baseX maxDepth fuel node depth st :
  assignPosition jsxNodes parentIdMap baseX maxDepth fuel node depth st
  = walk jsxNodes parentIdMap (posVisit baseX maxDepth) fuel node depth st.
Proof.
  revert node depth st. induction fuel as [|fuel IH]; intros; simpl; [done|].
  apply forEach_ext. intros; apply IH.
Qed.
End TraceFacts.

Lemma depthPass_traversal fuel jsxNodes :
  depthPass fuel jsxNodes = replay dfsVisit dfsInit <$> traversal fuel jsxNodes.
Proof.
  unfold depthPass, traversal.
  rewrite (forEach_replay dfsVisit _ (λ root, visits jsxNodes (parentIdMapOf jsxNodes) fuel root 0)).
  - by destruct (mapM _ _).
  - intros. rewrite dfs_walk. apply walk_visits.
Qed.

Lemma positionPass_traversal fuel jsxNodes baseX maxDepth :
  positionPass fuel jsxNodes baseX maxDepth
  = replay (posVisit baseX maxDepth) posInit <$> traversal fuel jsxNodes.
Proof.
  unfold positionPass, traversal.
  rewrite (forEach_replay (posVisit baseX maxDepth) _
             (λ root, visits jsxNodes (parentIdMapOf jsxNodes) fuel root 0)).
  - by destruct (mapM _ _).
  - intros. rewrite assignPosition_walk. apply walk_visits.
Qed.

(** ** What a pass leaves in its maps *)

Lemma onId_app i tr1 tr2 : onId i (tr1 ++ tr2) = onId i tr1 ++ onId i tr2.
Proof. apply filter_app. Qed.

Lemma atDepth_app d tr1 tr2 : atDepth d (tr1 ++ tr2) = atDepth d tr1 ++ atDepth d tr2.
Proof. apply filter_app. Qed.

Lemma onId_nil_iff i tr : onId i tr = [] ↔ ∀ e, e ∈ tr → node_id e.1 ≠ i.
Proof.
  split.
  - intros Hnil e He Hi.
    assert (e ∈ onId i tr) as Hin by (apply list_elem_of_filter; done).
    rewrite Hnil in Hin. by apply not_elem_of_nil in Hin.
  - intros Hall. unfold onId. induction tr as [|e tr IH]; [done|].
    rewrite filter_cons. destruct (decide _) as [Hi|_].
    + exfalso. eapply Hall; [left|done].
    + apply IH. intros; apply Hall. by right.
Qed.

(** The last call on an identifier splits the trace. *)
Lemma onId_last_split i tr :
  onId i tr ≠ [] →
  ∃ tr1 n d tr2, tr = tr1 ++ (n, d) :: tr2 ∧ node_id n = i ∧ onId i tr2 = [].
Proof.
  induction tr as [|e tr IH] using rev_ind; [done|].
  destruct e as [n d]. intros Hne. destruct (decide (node_id n = i)) as [Hi|Hi].
  - exists tr, n, d, []. done.
  - rewrite onId_app in Hne.
    assert (onId i [(n, d)] = []) as Hnil.
    { unfold onId. rewrite filter_cons. simpl. by destruct (decide _). }
    rewrite Hnil, app_nil_r in Hne.
    destruct (IH Hne) as (tr1 & n' & d' & tr2 & -> & Hn' & Htr2).
    exists tr1, n', d', (tr2 ++ [(n, d)]). split_and!; [|done|].
    + by rewrite <- app_assoc.
    + by rewrite onId_app, Htr2, Hnil.
Qed.

Section ReplayFacts.
Variable baseX : Q.
Variable maxDepth : nat.

Lemma replay_used st tr d :
  default 0 (usedRowsPerDepth (replay (posVisit baseX maxDepth) st tr) !! d)
  = default 0 (usedRowsPerDepth st !! d) + length (atDepth d tr).
Proof.
  revert st. induction tr as [|[n e] tr IH]; intros st; [simpl; lia|].
  unfold replay in *. simpl. rewrite IH. unfold atDepth. rewrite filter_cons. simpl.
  destruct (decide (e = d)) as [->|Hne].
  - rewrite lookup_insert_eq. simpl. lia.
  - by rewrite lookup_insert_ne.
Qed.

Lemma replay_positions_other st tr i :
  onId i tr = [] →
  newNodePositions (replay (posVisit baseX maxDepth) st tr) !! i = newNodePositions st !! i.
Proof.
  revert st. induction tr as [|[n e] tr IH]; intros st Hnil; [done|].
  unfold onId in Hnil. rewrite filter_cons in Hnil. simpl in Hnil.
  destruct (decide (node_id n = i)) as [|Hne]; [done|].
  unfold replay in *. simpl. rewrite IH by done. simpl. by rewrite lookup_insert_ne.
Qed.

Lemma replay_positions_last tr1 n d tr2 :
  onId (node_id n) tr2 = [] →
  newNodePositions (replay (posVisit baseX maxDepth) posInit (tr1 ++ (n, d) :: tr2)) !! node_id n
  = Some (positionAt baseX maxDepth d (length (atDepth d tr1))).
Proof.
  intros Hnil. rewrite replay_app. change ((n, d) :: tr2) with ([(n, d)] ++ tr2).
  rewrite replay_app, replay_positions_other by done.
  unfold replay at 1. simpl. rewrite lookup_insert_eq.
  rewrite replay_used. simpl. by rewrite lookup_empty.
Qed.

Lemma replay_positions_None tr i :
  onId i tr = [] →
  newNodePositions (replay (posVisit baseX maxDepth) posInit tr) !! i = None.
Proof. intros Hnil. by rewrite replay_positions_other. Qed.
End ReplayFacts.

Lemma replay_depth_other st tr i :
  onId i tr = [] →
  depthById (replay dfsVisit st tr) !! i = depthById st !! i.
Proof.
  revert st. induction tr as [|[n e] tr IH]; intros st Hnil; [done|].
  unfold onId in Hnil. rewrite filter_cons in Hnil. simpl in Hnil.
  destruct (decide (node_id n = i)) as [|Hne]; [done|].
  unfold replay in *. simpl. rewrite IH by done. simpl. by rewrite lookup_insert_ne.
Qed.

Lemma replay_depth_last tr1 n d tr2 :
  onId (node_id n) tr2 = [] →
  depthById (replay dfsVisit dfsInit (tr1 ++ (n, d) :: tr2)) !! node_id n = Some d.
Proof.
  intros Hnil. rewrite replay_app. change ((n, d) :: tr2) with ([(n, d)] ++ tr2).
  rewrite replay_app, replay_depth_other by done.
  unfold replay at 1. simpl. by rewrite lookup_insert_eq.
Qed.

Lemma replay_rows st tr d :
  default 0 (rowIndexByDepth (replay dfsVisit st tr) !! d)
  = default 0 (rowIndexByDepth st !! d) + length (atDepth d tr).
Proof.
  revert st. induction tr as [|[n e] tr IH]; intros st; [simpl; lia|].
  unfold replay in *. simpl. rewrite IH. unfold atDepth. rewrite filter_cons. simpl.
  destruct (decide (e = d)) as [->|Hne].
  - rewrite lookup_insert_eq. simpl. lia.
  - by rewrite lookup_insert_ne.
Qed.

(** ** The maximal depth *)

Lemma maxDepthOf_spec (m : gmap string nat) :
  (∀ i d, m !! i = Some d → d ≤ maxDepthOf m)
  ∧ (maxDepthOf m = 0 ∨ ∃ i, m !! i = Some (maxDepthOf m)).
Proof.
  unfold maxDepthOf.
  apply (map_fold_weak_ind (λ r m, (∀ i d, m !! i = Some d → d ≤ r)
                                   ∧ (r = 0 ∨ ∃ i, m !! i = Some r))).
  - split; [|by left]. intros i d. by rewrite lookup_empty.
  - intros i x m' r Hi [Hle Hex]. split.
    + intros j d. rewrite lookup_insert. destruct (decide (i = j)) as [->|Hne].
      * intros [= ->]. destruct (decide (r < d)); lia.
      * intros Hj. apply Hle in Hj. destruct (decide (r < x)); lia.
    + destruct (decide (r < x)) as [Hlt|Hge].
      * right. exists i. by rewrite lookup_insert_eq.
      * destruct Hex as [->|[j Hj]]; [by left|].
        right. exists j. rewrite lookup_insert_ne; [done|]. congruence.
Qed.

(** ** The shape of the result *)

Lemma applyJsxTreeLayout_passthrough fuel layout :
  jsxNodesOf (nodes layout) = [] → applyJsxTreeLayout fuel layout = Some layout.
Proof.
  intros Hnil. unfold applyJsxTreeLayout. rewrite Hnil. done.
Qed.

Lemma applyJsxTreeLayout_inv fuel layout layout' :
  jsxNodesOf (nodes layout) ≠ [] →
  applyJsxTreeLayout fuel layout = Some layout' →
  ∃ tr st ps,
    traversal fuel (jsxNodesOf (nodes layout)) = Some tr
    ∧ depthPass fuel (jsxNodesOf (nodes layout)) = Some st
    ∧ st = replay dfsVisit dfsInit tr
    ∧ positionPass fuel (jsxNodesOf (nodes layout)) (col_jsx (colX layout))
        (maxDepthOf (depthById st)) = Some ps
    ∧ ps = replay (posVisit (col_jsx (colX layout)) (maxDepthOf (depthById st))) posInit tr
    ∧ layout' =
        {| nodes := moveNode (newNodePositions ps) <$> nodes layout;
           edges := snapEdge (nodeByIdOf (moveNode (newNodePositions ps) <$> nodes layout))
                      <$> edges layout;
           width := maxXOf (width layout) (moveNode (newNodePositions ps) <$> nodes layout);
           height := maxYOf (height layout) (moveNode (newNodePositions ps) <$> nodes layout);
           colX := colX layout |}.
Proof.
  intros Hjsx. unfold applyJsxTreeLayout.
  destruct (decide _) as [Hlen|_].
  { by apply length_zero_iff_nil in Hlen. }
  rewrite depthPass_traversal.
  destruct (traversal fuel _) as [tr|] eqn:Htr; simpl; [|done].
  rewrite positionPass_traversal, Htr. simpl.
  intros [= <-]. exists tr. eexists. eexists.
  repeat split; try reflexivity.
  by rewrite positionPass_traversal, Htr.
Qed.

Lemma moveNode_id ps n : node_id (moveNode ps n) = node_id n.
Proof. unfold moveNode. by destruct (ps !! node_id n). Qed.

Lemma moveNode_kind ps n : node_kind (moveNode ps n) = node_kind n.
Proof. unfold moveNode. by destruct (ps !! node_id n). Qed.

Lemma moveNode_meta ps n : node_meta (moveNode ps n) = node_meta n.
Proof. unfold moveNode. by destruct (ps !! node_id n). Qed.

Lemma moveNode_width ps n : node_width (moveNode ps n) = node_width n.
Proof. unfold moveNode. by destruct (ps !! node_id n). Qed.

Lemma moveNode_height ps n : node_height (moveNode ps n) = node_height n.
Proof. unfold moveNode. by destruct (ps !! node_id n). Qed.

Lemma moveNode_Some ps n pos :
  ps !! node_id n = Some pos →
  node_x (moveNode ps n) = pos_x pos ∧ node_y (moveNode ps n) = pos_y pos.
Proof. intros Hpos. unfold moveNode. by rewrite Hpos. Qed.

Lemma moveNode_None ps n : ps !! node_id n = None → moveNode ps n = n.
Proof. intros Hpos. unfold moveNode. by rewrite Hpos. Qed.

(** ** The coordinates of a visited node *)

Lemma moved_node_coordinates fuel layout layout' :
  jsxNodesOf (nodes layout) ≠ [] →
  applyJsxTreeLayout fuel layout = Some layout' →
  ∃ tr st,
    traversal fuel (jsxNodesOf (nodes layout)) = Some tr
    ∧ depthPass fuel (jsxNodesOf (nodes layout)) = Some st
    ∧ (∀ i d, depthById st !! i = Some d → d ≤ maxDepthOf (depthById st))
    ∧ ∀ j m,
        nodes layout' !! j = Some m →
        onId (node_id m) tr ≠ [] →
        ∃ k n d,
          tr !! k = Some (n, d)
          ∧ node_id n = node_id m
          ∧ (∀ k' e, k < k' → tr !! k' = Some e → node_id e.1 ≠ node_id m)
          ∧ depthById st !! node_id m = Some d
          ∧ node_x m = (col_jsx (colX layout)
                        - (ofNat (maxDepthOf (depthById st)) * 160) / 2
                        + ofNat d * 160)%Q
          ∧ node_y m = (80 + ofNat (rowOf tr k d) * 40)%Q.
Proof.
  intros Hjsx Happ.
  destruct (applyJsxTreeLayout_inv _ _ _ Hjsx Happ)
    as (tr & st & ps & Htr & Hst & Hst' & _ & Hps & ->).
  exists tr, st. split_and!; [done|done|apply maxDepthOf_spec|].
  simpl. intros j m Hm Hvis.
  apply list_lookup_fmap_Some in Hm as (m0 & -> & Hm0).
  rewrite moveNode_id in Hvis |- *.
  destruct (onId_last_split _ _ Hvis) as (tr1 & n & d & tr2 & -> & Hn & Htr2).
  exists (length tr1), n, d. split_and!.
  - by apply list_lookup_middle.
  - done.
  - intros k' e Hk' He.
    rewrite lookup_app_r in He by lia.
    destruct (k' - length tr1) as [|k''] eqn:Hk''; [lia|]. simpl in He.
    apply list_elem_of_lookup_2 in He.
    by apply (proj1 (onId_nil_iff _ _) Htr2).
  - rewrite Hst', <- Hn. apply replay_depth_last. by rewrite Hn.
  - assert (newNodePositions ps !! node_id m0 = Some
              (positionAt (col_jsx (colX layout)) (maxDepthOf (depthById st)) d
                 (length (atDepth d tr1)))) as Hpos.
    { rewrite Hps, <- Hn. apply replay_positions_last. by rewrite Hn. }
    by destruct (moveNode_Some _ _ _ Hpos) as [-> _].
  - assert (newNodePositions ps !! node_id m0 = Some
              (positionAt (col_jsx (colX layout)) (maxDepthOf (depthById st)) d
                 (length (atDepth d tr1)))) as Hpos.
    { rewrite Hps, <- Hn. apply replay_positions_last. by rewrite Hn. }
    destruct (moveNode_Some _ _ _ Hpos) as [_ ->].
    unfold rowOf. by rewrite take_app_length.
Qed.

(** ** The jsx nodes of a layout *)

Lemma jsxNodesOf_elem n ns : n ∈ jsxNodesOf ns ↔ node_kind n = KindJsx ∧ n ∈ ns.
Proof. unfold jsxNodesOf. by rewrite list_elem_of_filter. Qed.

Lemma jsxNodesOf_nil nodes :
  (∀ n, n ∈ nodes → node_kind n ≠ KindJsx) → jsxNodesOf nodes = [].
Proof.
  intros Hall. unfold jsxNodesOf. induction nodes as [|n ns IH]; [done|].
  rewrite filter_cons. destruct (decide _) as [Hk|_].
  - exfalso. eapply Hall; [left|done].
  - apply IH. intros; apply Hall. by right.
Qed.

(** ** The extent of the canvas *)

Lemma grow_ge_l m e : (m <= grow m e)%Q.
Proof. unfold grow. destruct (Qlt_le_dec m e); lra. Qed.

Lemma grow_ge_r m e : (e <= grow m e)%Q.
Proof. unfold grow. destruct (Qlt_le_dec m e); lra. Qed.

Lemma grow_id m e : (e <= m)%Q → grow m e = m.
Proof. intros Hle. unfold grow. destruct (Qlt_le_dec m e); [lra|done]. Qed.

Section Extent.
Variable extent : GraphNode → Q.

Lemma foldl_grow_ge_init ns init :
  (init <= foldl (λ m n, grow m (extent n)) init ns)%Q.
Proof.
  revert init. induction ns as [|n ns IH]; intros init; simpl; [lra|].
  eapply Qle_trans; [apply (grow_ge_l init (extent n))|apply IH].
Qed.

Lemma foldl_grow_ge_elem ns init n :
  n ∈ ns → (extent n <= foldl (λ m n, grow m (extent n)) init ns)%Q.
Proof.
  revert init. induction ns as [|n' ns IH]; intros init Hn.
  - by apply not_elem_of_nil in Hn.
  - simpl. apply elem_of_cons in Hn as [->|Hn].
    + eapply Qle_trans; [apply (grow_ge_r init (extent n'))|apply foldl_grow_ge_init].
    + by apply IH.
Qed.

Lemma foldl_grow_fixed ns init :
  (∀ n, n ∈ ns → (extent n <= init)%Q) →
  foldl (λ m n, grow m (extent n)) init ns = init.
Proof.
  induction ns as [|n ns IH]; intros Hall; simpl; [done|].
  rewrite grow_id by (apply Hall; left). apply IH. intros; apply Hall. by right.
Qed.
End Extent.

Lemma maxXOf_ge_width w ns : (w <= maxXOf w ns)%Q.
Proof. apply (foldl_grow_ge_init rightOf). Qed.

Lemma maxYOf_ge_height h ns : (h <= maxYOf h ns)%Q.
Proof. apply (foldl_grow_ge_init bottomOf). Qed.

Lemma maxXOf_ge_right w ns n : n ∈ ns → (rightOf n <= maxXOf w ns)%Q.
Proof. apply (foldl_grow_ge_elem rightOf). Qed.

Lemma maxYOf_ge_bottom h ns n : n ∈ ns → (bottomOf n <= maxYOf h ns)%Q.
Proof. apply (foldl_grow_ge_elem bottomOf). Qed.

Lemma ofNat_nonneg n : (0 <= ofNat n)%Q.
Proof. unfold ofNat, Qle. simpl. lia. Qed.

(** ** The endpoints of the edges *)

Lemma nodeByIdOf_snoc ns n :
  nodeByIdOf (ns ++ [n]) = <[node_id n := n]> (nodeByIdOf ns).
Proof. unfold nodeByIdOf. by rewrite foldl_app. Qed.

Lemma lastWithId_snoc i ns n :
  lastWithId i (ns ++ [n]) = if decide (node_id n = i) then Some n else lastWithId i ns.
Proof.
  unfold lastWithId. rewrite filter_app, filter_cons, filter_nil.
  destruct (decide (node_id n = i)).
  - by rewrite last_snoc.
  - by rewrite app_nil_r.
Qed.

(** [Map.get] after the insertions of a loop finds the last node inserted
    under the key. *)
Lemma nodeByIdOf_lookup ns i : nodeByIdOf ns !! i = lastWithId i ns.
Proof.
  induction ns as [|n ns IH] using rev_ind; [done|].
  rewrite nodeByIdOf_snoc, lastWithId_snoc, lookup_insert.
  by destruct (decide (node_id n = i)).
Qed.

Lemma lastWithId_moveNode ps i ns :
  lastWithId i (moveNode ps <$> ns) = moveNode ps <$> lastWithId i ns.
Proof.
  induction ns as [|n ns IH] using rev_ind; [done|].
  rewrite fmap_app. simpl. rewrite !lastWithId_snoc, moveNode_id.
  by destruct (decide (node_id n = i)).
Qed.

Lemma lastWithId_elem i ns n : lastWithId i ns = Some n → n ∈ ns ∧ node_id n = i.
Proof.
  unfold lastWithId. intros Hlast. apply last_Some_elem_of in Hlast.
  by apply list_elem_of_filter in Hlast as [? ?].
Qed.

Lemma lastWithId_unique ns n :
  NoDup (node_id <$> ns) → n ∈ ns → lastWithId (node_id n) ns = Some n.
Proof.
  induction ns as [|n' ns IH] using rev_ind; intros Hnd Hn.
  - by apply not_elem_of_nil in Hn.
  - rewrite fmap_app in Hnd. apply NoDup_app in Hnd as (Hnd & Hdisj & _).
    rewrite lastWithId_snoc. apply elem_of_app in Hn as [Hn|Hn].
    + destruct (decide (node_id n' = node_id n)) as [Heq|_]; [|by apply IH].
      exfalso. apply (Hdisj (node_id n)).
      * apply list_elem_of_fmap. by exists n.
      * simpl. rewrite Heq. left.
    + apply list_elem_of_singleton in Hn as ->. by destruct (decide _).
Qed.

Lemma snapEndpoint_nodeId m ep : ep_nodeId (snapEndpoint m ep) = ep_nodeId ep.
Proof.
  unfold snapEndpoint. destruct (decide _); [|done]. by destruct (m !! _).
Qed.

Lemma snapEndpoint_hit m ep i n :
  ep_nodeId ep = Some i → i ≠ EmptyString → m !! i = Some n →
  ep_x (snapEndpoint m ep) = node_x n ∧ ep_y (snapEndpoint m ep) = node_y n.
Proof.
  intros Hid Hne Hn. unfold snapEndpoint. rewrite Hid.
  destruct (decide (truthy (Some i))) as [_|Ht]; [|by destruct Ht].
  simpl. by rewrite Hn.
Qed.

Lemma snapEndpoint_miss m ep :
  ep_nodeId ep = None ∨ ep_nodeId ep = Some EmptyString
  ∨ (∃ i, ep_nodeId ep = Some i ∧ m !! i = None) →
  snapEndpoint m ep = ep.
Proof.
  unfold snapEndpoint. intros Hmiss.
  destruct (decide (truthy (ep_nodeId ep))) as [Ht|_]; [|done].
  destruct Hmiss as [Hid|[Hid|(i & Hid & Hi)]]; rewrite Hid in Ht |- *; simpl in *.
  - done.
  - done.
  - by rewrite Hi.
Qed.

Lemma snapEdge_side m e side :
  side = edge_from ∨ side = edge_to → side (snapEdge m e) = snapEndpoint m (side e).
Proof. by intros [-> | ->]. Qed.

Lemma moveNode_ids ps (ns : list GraphNode) :
  node_id <$> (moveNode ps <$> ns) = node_id <$> ns.
Proof.
  rewrite <- list_fmap_compose. apply list_fmap_ext. intros _ n _. apply moveNode_id.
Qed.

Lemma applyJsxTreeLayout_ids fuel layout layout' :
  applyJsxTreeLayout fuel layout = Some layout' →
  node_id <$> nodes layout' = node_id <$> nodes layout.
Proof.
  intros Happ. destruct (decide (jsxNodesOf (nodes layout) = [])) as [Hnil|Hjsx].
  - rewrite applyJsxTreeLayout_passthrough in Happ by done. by injection Happ as <-.
  - destruct (applyJsxTreeLayout_inv _ _ _ Hjsx Happ) as (tr & st & ps & _ & _ & _ & _ & _ & ->).
    apply moveNode_ids.
Qed.

(** ** The parent map *)

Lemma parentIdMapOf_snoc ns n :
  parentIdMapOf (ns ++ [n]) = <[node_id n := declaredParent n]> (parentIdMapOf ns).
Proof. unfold parentIdMapOf. by rewrite foldl_app. Qed.

Lemma parentIdMapOf_lookup ns i :
  parentIdMapOf ns !! i = declaredParent <$> lastWithId i ns.
Proof.
  induction ns as [|n ns IH] using rev_ind; [done|].
  rewrite parentIdMapOf_snoc, lastWithId_snoc, lookup_insert.
  by destruct (decide (node_id n = i)).
Qed.

Lemma lastWithId_is_Some i (ns : list GraphNode) :
  is_Some (lastWithId i ns) ↔ i ∈ node_id <$> ns.
Proof.
  unfold lastWithId. rewrite last_is_Some. split.
  - intros Hne. destruct (filter _ ns) as [|n l] eqn:Hf; [done|].
    assert (n ∈ filter (λ n, node_id n = i) ns) as Hn by (rewrite Hf; left).
    apply list_elem_of_filter in Hn as [<- Hn]. apply list_elem_of_fmap. by exists n.
  - intros Hi Hnil. apply list_elem_of_fmap in Hi as (n & -> & Hn).
    assert (n ∈ filter (λ n', node_id n' = node_id n) ns) as Hin
      by (apply list_elem_of_filter; done).
    rewrite Hnil in Hin. by apply not_elem_of_nil in Hin.
Qed.

Lemma parentIdMapOf_is_Some ns i :
  is_Some (parentIdMapOf ns !! i) ↔ i ∈ node_id <$> ns.
Proof.
  rewrite parentIdMapOf_lookup, <- lastWithId_is_Some. apply fmap_is_Some.
Qed.

Lemma nodeByIdOf_is_Some ns i :
  is_Some (nodeByIdOf ns !! i) ↔ i ∈ node_id <$> ns.
Proof. rewrite nodeByIdOf_lookup. apply lastWithId_is_Some. Qed.

Lemma mapGet_Some_dom ns i p :
  mapGet (parentIdMapOf ns) i = Some p → i ∈ node_id <$> ns.
Proof.
  unfold mapGet. intros Hget. apply parentIdMapOf_is_Some.
  destruct (parentIdMapOf ns !! i); [done|discriminate].
Qed.

(** With pairwise distinct identifiers the map holds the parent each node
    declares. *)
Lemma mapGet_declaredParent ns n :
  NoDup (node_id <$> ns) → n ∈ ns →
  mapGet (parentIdMapOf ns) (node_id n) = declaredParent n.
Proof.
  intros Hnd Hn. unfold mapGet.
  by rewrite parentIdMapOf_lookup, lastWithId_unique.
Qed.

(** ** Parent chains *)

Section Ancestors.
Variable pm : gmap string (option string).

Lemma ancestor_add j k i :
  ancestor pm (j + k) i = ancestor pm j i ≫= ancestor pm k.
Proof.
  revert i. induction j as [|j IH]; intros i; simpl; [done|].
  destruct (mapGet pm i) as [p|]; simpl; [apply IH|done].
Qed.

Lemma ancestor_one i : ancestor pm 1 i = mapGet pm i.
Proof. simpl. by destruct (mapGet pm i). Qed.

Lemma ancestor_snoc k i :
  ancestor pm (S k) i = ancestor pm k i ≫= mapGet pm.
Proof.
  replace (S k) with (k + 1) by lia. rewrite ancestor_add.
  destruct (ancestor pm k i) as [a|]; simpl; [|done].
  by destruct (mapGet pm a).
Qed.

Lemma reaches_refl i : reaches pm i i.
Proof. by exists 0. Qed.

Lemma reaches_parent x c p :
  reaches pm x c → mapGet pm c = Some p → reaches pm x p.
Proof.
  intros [k Hk] Hp. exists (S k). by rewrite ancestor_snoc, Hk.
Qed.

(** A cycle is closed under the step to the node before. *)
Lemma onCycle_pred i :
  onCycle pm i → ∃ p, mapGet pm p = Some i ∧ onCycle pm p.
Proof.
  intros (k & Hk & Hcyc). destruct k as [|k]; [lia|].
  rewrite ancestor_snoc in Hcyc.
  destruct (ancestor pm k i) as [p|] eqn:Hp; [|done]. simpl in Hcyc.
  exists p. split; [done|]. exists (1 + k). split; [lia|].
  rewrite ancestor_add, ancestor_one, Hcyc. done.
Qed.

(** Two nodes with the same parent that both lie above some node are the
    same, unless the parent is on a cycle. *)
Lemma siblings_disjoint x a b p :
  reaches pm x a → reaches pm x b → a ≠ b →
  mapGet pm a = Some p → mapGet pm b = Some p → onCycle pm p.
Proof.
  assert (∀ a b j k, ancestor pm j x = Some a → ancestor pm k x = Some b →
                     j < k → mapGet pm a = Some p → mapGet pm b = Some p →
                     onCycle pm p) as Hlt.
  { clear. intros a b j k Ha Hb Hjk Hpa Hpb.
    replace k with (j + S (k - j - 1)) in Hb by lia.
    rewrite ancestor_add, Ha in Hb. simpl in Hb. rewrite Hpa in Hb. simpl in Hb.
    exists (S (k - j - 1)). split; [lia|]. by rewrite ancestor_snoc, Hb. }
  intros [j Ha] [k Hb] Hne Hpa Hpb.
  destruct (Nat.lt_total j k) as [Hjk|[->|Hjk]].
  - by eapply (Hlt a b).
  - congruence.
  - by eapply (Hlt b a).
Qed.

(** What lies above a node of a cycle is on the cycle. *)
Lemma onCycle_reaches i a :
  onCycle pm i → reaches pm i a → onCycle pm a.
Proof.
  intros (k & Hk & Hcyc) [j Hj]. exists k. split; [done|].
  assert (ancestor pm (j + k) i = Some a) as Hjk.
  { rewrite Nat.add_comm, ancestor_add, Hcyc. done. }
  by rewrite ancestor_add, Hj in Hjk.
Qed.

(** A node above one of its children is on a cycle. *)
Lemma child_above_parent c p :
  mapGet pm c = Some p → reaches pm p c → onCycle pm p.
Proof.
  intros Hp [k Hk]. exists (S k). split; [lia|]. by rewrite ancestor_snoc, Hk.
Qed.
End Ancestors.

(** ** The calls of a traversal *)

Lemma idsOf_app tr1 tr2 : idsOf (tr1 ++ tr2) = idsOf tr1 ++ idsOf tr2.
Proof. apply fmap_app. Qed.

Lemma elem_of_idsOf i tr : i ∈ idsOf tr ↔ ∃ e, e ∈ tr ∧ node_id e.1 = i.
Proof.
  unfold idsOf. rewrite list_elem_of_fmap. split; intros (e & ? & ?); by exists e.
Qed.

Lemma onId_nil_idsOf i tr : onId i tr = [] ↔ i ∉ idsOf tr.
Proof.
  rewrite onId_nil_iff, elem_of_idsOf. split.
  - intros Hall (e & He & Hi). by apply (Hall e).
  - intros Hno e He Hi. apply Hno. by exists e.
Qed.

Section Forest.
Context {A : Type}.
Variable t : A → option (list Visit).

Lemma mapM_concat_elem cs ts e :
  mapM t cs = Some ts → e ∈ concat ts → ∃ c tr, c ∈ cs ∧ t c = Some tr ∧ e ∈ tr.
Proof.
  intros Hm. apply mapM_Some in Hm.
  induction Hm as [|c tr cs ts Hc _ IH]; simpl; intros He.
  - by apply not_elem_of_nil in He.
  - apply elem_of_app in He as [He|He].
    + exists c, tr. split_and!; [left|done|done].
    + destruct (IH He) as (c' & tr' & ? & ? & ?). exists c', tr'.
      split_and!; [by right|done|done].
Qed.

Lemma mapM_concat_incl cs ts c :
  mapM t cs = Some ts → c ∈ cs → ∃ tr, t c = Some tr ∧ ∀ e, e ∈ tr → e ∈ concat ts.
Proof.
  intros Hm. apply mapM_Some in Hm.
  induction Hm as [|c' tr cs ts Hc _ IH]; simpl; intros Hin.
  - by apply not_elem_of_nil in Hin.
  - apply elem_of_cons in Hin as [->|Hin].
    + exists tr. split; [done|]. intros e He. apply elem_of_app. by left.
    + destruct (IH Hin) as (tr' & ? & Hsub). exists tr'. split; [done|].
      intros e He. apply elem_of_app. right. by apply Hsub.
Qed.

Lemma mapM_all_Some cs :
  (∀ c, c ∈ cs → is_Some (t c)) → is_Some (mapM t cs).
Proof.
  intros Hall. apply mapM_is_Some. apply Forall_forall. intros c Hc. by apply Hall.
Qed.

(** The traces of a forest visit pairwise distinct identifiers when each
    tree does and no identifier lies in two trees. *)
Lemma NoDup_concat_traces (key : A → string) cs ts :
  mapM t cs = Some ts →
  (∀ c tr, c ∈ cs → t c = Some tr → NoDup (idsOf tr)) →
  NoDup (key <$> cs) →
  (∀ a b tra trb x, a ∈ cs → b ∈ cs → key a ≠ key b →
     t a = Some tra → t b = Some trb → x ∈ idsOf tra → x ∈ idsOf trb → False) →
  NoDup (idsOf (concat ts)).
Proof.
  intros Hm. pose proof Hm as Hm'. apply mapM_Some in Hm'. revert Hm.
  induction Hm' as [|c tr cs ts Hc Hrest IH]; intros Hm Htree Hkeys Hdisj.
  - constructor.
  - rewrite concat_cons, idsOf_app. rewrite fmap_cons in Hkeys. apply NoDup_cons in Hkeys as [Hc' Hkeys].
    assert (mapM t cs = Some ts) as Hm2 by (by apply mapM_Some).
    apply NoDup_app. split_and!.
    + apply (Htree c); [left|done].
    + intros x Hx Hx'. apply elem_of_idsOf in Hx' as (e & He & <-).
      destruct (mapM_concat_elem _ _ _ Hm2 He) as (c2 & tr2 & Hc2 & Htr2 & He2).
      apply (Hdisj c c2 tr tr2 (node_id e.1)); [left|by right| |done|done|done|].
      * intros Heq. apply Hc'. rewrite Heq. apply list_elem_of_fmap. by exists c2.
      * apply elem_of_idsOf. by exists e.
    + apply IH; [done| |done|].
      * intros c2 tr2 Hc2. apply Htree. by right.
      * intros a b tra trb x Ha Hb. apply Hdisj; by right.
Qed.
End Forest.

Section Visits.
Variable jsxNodes : list GraphNode.
Variable pm : gmap string (option string).

Lemma childrenOf_elem c n :
  c ∈ childrenOf jsxNodes pm n
  ↔ mapGet pm (node_id c) = Some (node_id n) ∧ c ∈ jsxNodes.
Proof. unfold childrenOf. by rewrite list_elem_of_filter. Qed.

Lemma visits_S fuel n d :
  visits jsxNodes pm (S fuel) n d
  = ts ← mapM (λ c, visits jsxNodes pm fuel c (d + 1)) (childrenOf jsxNodes pm n);
    Some ((n, d) :: concat ts).
Proof. done. Qed.

Lemma visits_S_inv fuel n d tr :
  visits jsxNodes pm (S fuel) n d = Some tr →
  ∃ ts, mapM (λ c, visits jsxNodes pm fuel c (d + 1)) (childrenOf jsxNodes pm n) = Some ts
        ∧ tr = (n, d) :: concat ts.
Proof.
  simpl. destruct (mapM _ _) as [ts|]; simpl; [|done].
  intros [= <-]. by exists ts.
Qed.

(** A call is the first one of its traversal or a call on a child of a jsx
    node, one level further down. *)
Lemma visits_entries fuel n d tr e :
  visits jsxNodes pm fuel n d = Some tr → e ∈ tr →
  e = (n, d)
  ∨ (d < e.2 ∧ e.1 ∈ jsxNodes
     ∧ ∃ v, (v = n ∨ v ∈ jsxNodes) ∧ mapGet pm (node_id e.1) = Some (node_id v)).
Proof.
  revert n d tr. induction fuel as [|fuel IH]; intros n d tr Hv He; [done|].
  apply visits_S_inv in Hv as (ts & Hm & ->).
  apply elem_of_cons in He as [->|He]; [by left|]. right.
  destruct (mapM_concat_elem _ _ _ _ Hm He) as (c & trc & Hc & Htrc & Hec).
  apply childrenOf_elem in Hc as [Hpc Hc].
  destruct (IH _ _ _ Htrc Hec) as [->|(Hd & Hin & v & Hv & Hpe)].
  - simpl. split_and!; [lia|done|]. exists n. split; [by left|done].
  - split_and!; [lia|done|]. exists v. split; [|done].
    destruct Hv as [->|Hv]; by right.
Qed.

Lemma visits_head fuel n d tr :
  visits jsxNodes pm fuel n d = Some tr → (n, d) ∈ tr.
Proof.
  destruct fuel as [|fuel]; [done|]. intros Hv.
  apply visits_S_inv in Hv as (ts & _ & ->). left.
Qed.

Lemma visits_reaches fuel n d tr e :
  visits jsxNodes pm fuel n d = Some tr → e ∈ tr →
  reaches pm (node_id e.1) (node_id n).
Proof.
  revert n d tr. induction fuel as [|fuel IH]; intros n d tr Hv He; [done|].
  apply visits_S_inv in Hv as (ts & Hm & ->).
  apply elem_of_cons in He as [->|He]; [apply reaches_refl|].
  destruct (mapM_concat_elem _ _ _ _ Hm He) as (c & trc & Hc & Htrc & Hec).
  apply childrenOf_elem in Hc as [Hpc Hc].
  eapply reaches_parent; [|done]. by eapply IH.
Qed.

Hypothesis pm_dom : ∀ i p, mapGet pm i = Some p → i ∈ node_id <$> jsxNodes.

(** A traversal that returns has not entered a cycle of the parent
    links. *)
Lemma visits_acyclic fuel n d tr :
  visits jsxNodes pm fuel n d = Some tr →
  ¬ onCycle pm (node_id n) ∧ ∀ e, e ∈ tr → ¬ onCycle pm (node_id e.1).
Proof using pm_dom.
  revert n d tr. induction fuel as [|fuel IH]; intros n d tr Hv; [done|].
  apply visits_S_inv in Hv as (ts & Hm & ->).
  assert (¬ onCycle pm (node_id n)) as Hn.
  { intros Hcyc. destruct (onCycle_pred _ _ Hcyc) as (p & Hp & Hpcyc).
    pose proof (pm_dom _ _ Hp) as Hdom.
    apply list_elem_of_fmap in Hdom as (c & -> & Hc).
    assert (c ∈ childrenOf jsxNodes pm n) as Hchild by (by apply childrenOf_elem).
    destruct (mapM_concat_incl _ _ _ _ Hm Hchild) as (trc & Htrc & _).
    by destruct (IH _ _ _ Htrc) as [Hno _]. }
  split; [done|]. intros e He.
  apply elem_of_cons in He as [->|He]; [done|].
  destruct (mapM_concat_elem _ _ _ _ Hm He) as (c & trc & _ & Htrc & Hec).
  destruct (IH _ _ _ Htrc) as [_ Hall]. by apply Hall.
Qed.

(** With pairwise distinct identifiers a traversal that returns has called
    no identifier twice. *)
Lemma visits_NoDup fuel n d tr :
  NoDup (node_id <$> jsxNodes) →
  visits jsxNodes pm fuel n d = Some tr →
  NoDup (idsOf tr).
Proof using pm_dom.
  intros Hnd. revert n d tr. induction fuel as [|fuel IH]; intros n d tr Hv; [done|].
  destruct (visits_acyclic _ _ _ _ Hv) as [Hn _].
  apply visits_S_inv in Hv as (ts & Hm & ->).
  unfold idsOf. rewrite fmap_cons. fold (idsOf (concat ts)). apply NoDup_cons. split.
  - intros Hin. apply elem_of_idsOf in Hin as (e & He & Hid). simpl in Hid.
    destruct (mapM_concat_elem _ _ _ _ Hm He) as (c & trc & Hc & Htrc & Hec).
    apply childrenOf_elem in Hc as [Hpc Hc].
    apply Hn. apply (child_above_parent pm (node_id c)); [done|].
    rewrite <- Hid. by eapply visits_reaches.
  - apply (NoDup_concat_traces _ node_id _ _ Hm).
    + intros c trc _ Htrc. by eapply IH.
    + unfold childrenOf.
      apply (NoDup_fmap_2_strong _ (filter _ jsxNodes)); [|apply NoDup_filter; by eapply NoDup_fmap_1].
      intros a b Ha Hb Hab. apply list_elem_of_filter in Ha as [_ Ha], Hb as [_ Hb].
      apply (NoDup_fmap_1 node_id) in Hnd as Hnd'.
      destruct (list_elem_of_lookup_1 _ _ Ha) as [ia Hia].
      destruct (list_elem_of_lookup_1 _ _ Hb) as [ib Hib].
      assert (ia = ib) as ->.
      { eapply NoDup_lookup; [exact Hnd| |]; rewrite list_lookup_fmap.
        - by rewrite Hia.
        - rewrite Hib. simpl. by rewrite Hab. }
      congruence.
    + intros a b tra trb x Ha Hb Hab Htra Htrb Hxa Hxb. apply Hn.
      apply childrenOf_elem in Ha as [Hpa _], Hb as [Hpb _].
      apply elem_of_idsOf in Hxa as (ea & Hea & <-).
      apply elem_of_idsOf in Hxb as (eb & Heb & Hid).
      apply (siblings_disjoint pm (node_id ea.1) (node_id a) (node_id b)); [|  |done|done|done].
      * by eapply visits_reaches.
      * rewrite <- Hid. by eapply visits_reaches.
Qed.
End Visits.

(** ** Termination *)

Section Termination.
Variable jsxNodes : list GraphNode.
Variable pm : gmap string (option string).

Lemma callChain_back ids stack x h :
  callChain pm ids stack → x ∈ stack → mapGet pm x = Some h →
  h ∉ ids ∨ h ∈ tail stack.
Proof.
  induction stack as [|c rest IH]; intros Hchain Hx Hh.
  - by apply not_elem_of_nil in Hx.
  - destruct rest as [|p rest'].
    + apply list_elem_of_singleton in Hx as ->. left. by apply Hchain.
    + destruct Hchain as [Hcp Hchain].
      apply elem_of_cons in Hx as [->|Hx].
      * right. rewrite Hcp in Hh. injection Hh as <-. left.
      * destruct (IH Hchain Hx Hh) as [?|Hin]; [by left|].
        right. simpl in *. by right.
Qed.

(** The call stack never holds an identifier twice, so it is no deeper than
    there are jsx nodes. *)
Lemma visits_terminates fuel n d stack :
  callChain pm (node_id <$> jsxNodes) (node_id n :: stack) →
  NoDup (node_id n :: stack) →
  (∀ x, x ∈ node_id n :: stack → x ∈ node_id <$> jsxNodes) →
  length jsxNodes < fuel + length (node_id n :: stack) →
  is_Some (visits jsxNodes pm fuel n d).
Proof.
  revert n d stack. induction fuel as [|fuel IH]; intros n d stack Hchain Hnd Hin Hlen.
  - exfalso. pose proof (submseteq_length _ _ (NoDup_submseteq _ _ Hnd Hin)) as Hle.
    rewrite length_fmap in Hle. simpl in *. lia.
  - simpl.
    assert (is_Some (mapM (λ c, visits jsxNodes pm fuel c (d + 1))
                          (childrenOf jsxNodes pm n))) as [ts Hts]; [|by rewrite Hts].
    apply mapM_all_Some. intros c Hc. apply childrenOf_elem in Hc as [Hpc Hc].
    apply (IH c (d + 1) (node_id n :: stack)).
    + split; [done|]. done.
    + apply NoDup_cons. split; [|done]. intros Hback.
      destruct (callChain_back _ _ _ _ Hchain Hback Hpc) as [Hout|Htail].
      * apply Hout, Hin. left.
      * simpl in Htail. by apply NoDup_cons in Hnd as [Hn _].
    + intros x Hx. apply elem_of_cons in Hx as [->|Hx]; [|by apply Hin].
      apply list_elem_of_fmap. by exists c.
    + simpl in *. lia.
Qed.
End Termination.

(** ** One pass over the roots *)

Section Roots.
Variable jsxNodes : list GraphNode.

Lemma rootJsxNodesOf_elem r :
  r ∈ rootJsxNodesOf jsxNodes (parentIdMapOf jsxNodes) (nodeByIdOf jsxNodes)
  ↔ isRoot (parentIdMapOf jsxNodes) (nodeByIdOf jsxNodes) r ∧ r ∈ jsxNodes.
Proof. unfold rootJsxNodesOf. by rewrite list_elem_of_filter. Qed.

(** The parent a root declares, if any, is the empty string or the
    identifier of no jsx node. *)
Lemma root_parent r q :
  isRoot (parentIdMapOf jsxNodes) (nodeByIdOf jsxNodes) r →
  mapGet (parentIdMapOf jsxNodes) (node_id r) = Some q →
  q = EmptyString ∨ q ∉ node_id <$> jsxNodes.
Proof.
  unfold isRoot. intros Hroot Hq. rewrite Hq in Hroot. simpl in Hroot.
  destruct Hroot as [Hfalsy|Hmiss].
  - left. by destruct (decide (q = EmptyString)).
  - right. intros Hin. apply Hmiss. by apply nodeByIdOf_is_Some.
Qed.

Lemma root_parent_outside r q :
  EmptyString ∉ node_id <$> jsxNodes →
  isRoot (parentIdMapOf jsxNodes) (nodeByIdOf jsxNodes) r →
  mapGet (parentIdMapOf jsxNodes) (node_id r) = Some q →
  q ∉ node_id <$> jsxNodes.
Proof.
  intros Hempty Hroot Hq. by destruct (root_parent _ _ Hroot Hq) as [->|?].
Qed.

Lemma traversal_inv fuel tr :
  traversal fuel jsxNodes = Some tr →
  ∃ ts, mapM (λ root, visits jsxNodes (parentIdMapOf jsxNodes) fuel root 0)
             (rootJsxNodesOf jsxNodes (parentIdMapOf jsxNodes) (nodeByIdOf jsxNodes))
        = Some ts
        ∧ tr = concat ts.
Proof.
  unfold traversal. destruct (mapM _ _) as [ts|]; simpl; [|done].
  intros [= <-]. by exists ts.
Qed.

(** A call of a pass is made on a root at depth 0 or on a child of a jsx
    node further down. *)
Lemma traversal_entries fuel tr e :
  traversal fuel jsxNodes = Some tr → e ∈ tr →
  e.1 ∈ jsxNodes
  ∧ ((e.2 = 0 ∧ isRoot (parentIdMapOf jsxNodes) (nodeByIdOf jsxNodes) e.1)
     ∨ (0 < e.2
        ∧ ∃ v, v ∈ jsxNodes
               ∧ mapGet (parentIdMapOf jsxNodes) (node_id e.1) = Some (node_id v))).
Proof.
  intros Htr He. apply traversal_inv in Htr as (ts & Hm & ->).
  destruct (mapM_concat_elem _ _ _ _ Hm He) as (r & trr & Hr & Htrr & Her).
  apply rootJsxNodesOf_elem in Hr as [Hroot Hr].
  destruct (visits_entries _ _ _ _ _ _ _ Htrr Her) as [->|(Hd & Hin & v & Hv & Hpe)].
  - split; [done|]. by left.
  - split; [done|]. right. split; [done|]. exists v. split; [|done].
    by destruct Hv as [->|Hv].
Qed.

Lemma traversal_root fuel tr r :
  traversal fuel jsxNodes = Some tr →
  r ∈ jsxNodes →
  isRoot (parentIdMapOf jsxNodes) (nodeByIdOf jsxNodes) r →
  (r, 0) ∈ tr.
Proof.
  intros Htr Hr Hroot. apply traversal_inv in Htr as (ts & Hm & ->).
  assert (r ∈ rootJsxNodesOf jsxNodes (parentIdMapOf jsxNodes) (nodeByIdOf jsxNodes))
    as Hin by (by apply rootJsxNodesOf_elem).
  destruct (mapM_concat_incl _ _ _ _ Hm Hin) as (trr & Htrr & Hsub).
  apply Hsub. by eapply visits_head.
Qed.

Lemma traversal_acyclic fuel tr e :
  traversal fuel jsxNodes = Some tr → e ∈ tr →
  ¬ onCycle (parentIdMapOf jsxNodes) (node_id e.1).
Proof.
  intros Htr He. apply traversal_inv in Htr as (ts & Hm & ->).
  destruct (mapM_concat_elem _ _ _ _ Hm He) as (r & trr & Hr & Htrr & Her).
  eapply visits_acyclic; [|done|done]. apply mapGet_Some_dom.
Qed.

Lemma traversal_terminates fuel :
  EmptyString ∉ node_id <$> jsxNodes →
  length jsxNodes ≤ fuel →
  is_Some (traversal fuel jsxNodes).
Proof.
  intros Hempty Hfuel. unfold traversal.
  assert (is_Some (mapM (λ root, visits jsxNodes (parentIdMapOf jsxNodes) fuel root 0)
                     (rootJsxNodesOf jsxNodes (parentIdMapOf jsxNodes)
                        (nodeByIdOf jsxNodes)))) as [ts Hts]; [|by rewrite Hts].
  apply mapM_all_Some. intros r Hr. apply rootJsxNodesOf_elem in Hr as [Hroot Hr].
  apply (visits_terminates _ _ _ _ _ []).
  - simpl. intros q. by apply root_parent_outside.
  - apply NoDup_singleton.
  - intros x Hx. apply list_elem_of_singleton in Hx as ->.
    apply list_elem_of_fmap. by exists r.
  - simpl. lia.
Qed.

(** With pairwise distinct and non-empty identifiers no identifier is called
    twice in a pass. *)
Lemma traversal_NoDup fuel tr :
  NoDup (node_id <$> jsxNodes) →
  EmptyString ∉ node_id <$> jsxNodes →
  traversal fuel jsxNodes = Some tr →
  NoDup (idsOf tr).
Proof.
  intros Hnd Hempty Htr. apply traversal_inv in Htr as (ts & Hm & ->).
  apply (NoDup_concat_traces _ node_id _ _ Hm).
  - intros r trr _ Htrr. eapply visits_NoDup; [apply mapGet_Some_dom|done|done].
  - unfold rootJsxNodesOf.
    apply (NoDup_fmap_2_strong _ (filter _ jsxNodes));
      [|apply NoDup_filter; by eapply NoDup_fmap_1].
    intros a b Ha Hb Hab. apply list_elem_of_filter in Ha as [_ Ha], Hb as [_ Hb].
    destruct (list_elem_of_lookup_1 _ _ Ha) as [ia Hia].
    destruct (list_elem_of_lookup_1 _ _ Hb) as [ib Hib].
    assert (ia = ib) as ->.
    { eapply NoDup_lookup; [exact Hnd| |]; rewrite list_lookup_fmap.
      - by rewrite Hia.
      - rewrite Hib. simpl. by rewrite Hab. }
    congruence.
  - intros a b tra trb x Ha Hb Hab Htra Htrb Hxa Hxb.
    apply rootJsxNodesOf_elem in Ha as [Hra Ha], Hb as [Hrb Hb].
    apply elem_of_idsOf in Hxa as (ea & Hea & <-).
    apply elem_of_idsOf in Hxb as (eb & Heb & Hid).
    pose proof (visits_reaches _ _ _ _ _ _ _ Htra Hea) as [j Hj].
    pose proof (visits_reaches _ _ _ _ _ _ _ Htrb Heb) as [k Hk].
    rewrite Hid in Hk.
    assert (∀ a b j k,
              isRoot (parentIdMapOf jsxNodes) (nodeByIdOf jsxNodes) a →
              b ∈ jsxNodes →
              ancestor (parentIdMapOf jsxNodes) j (node_id ea.1) = Some (node_id a) →
              ancestor (parentIdMapOf jsxNodes) k (node_id ea.1) = Some (node_id b) →
              j < k → False) as Hlt.
    { clear -Hempty. intros a b j k Hra Hb Hj Hk Hjk.
      replace k with (j + S (k - j - 1)) in Hk by lia.
      rewrite ancestor_add, Hj in Hk. simpl in Hk.
      destruct (mapGet (parentIdMapOf jsxNodes) (node_id a)) as [q|] eqn:Hq; [|done].
      simpl in Hk. apply (root_parent_outside _ _ Hempty Hra Hq).
      destruct (k - j - 1) as [|m].
      - simpl in Hk. injection Hk as ->. apply list_elem_of_fmap. by exists b.
      - simpl in Hk.
        destruct (mapGet (parentIdMapOf jsxNodes) q) as [q'|] eqn:Hq'; [|done].
        by eapply mapGet_Some_dom. }
    destruct (Nat.lt_total j k) as [Hjk|[->|Hjk]].
    + by eapply (Hlt a b).
    + congruence.
    + by eapply (Hlt b a).
Qed.
End Roots.

Lemma applyJsxTreeLayout_terminates fuel layout :
  EmptyString ∉ jsxIds layout →
  length (jsxNodesOf (nodes layout)) ≤ fuel →
  is_Some (applyJsxTreeLayout fuel layout).
Proof.
  intros Hempty Hfuel. unfold applyJsxTreeLayout.
  destruct (decide _); [done|].
  rewrite depthPass_traversal.
  destruct (traversal_terminates _ _ Hempty Hfuel) as [tr Htr].
  rewrite Htr. simpl. rewrite positionPass_traversal, Htr. done.
Qed.

(** ** The result does not depend on the fuel *)

Lemma visits_fuel_mono jsxNodes pm fuel fuel' n d tr :
  fuel ≤ fuel' →
  visits jsxNodes pm fuel n d = Some tr →
  visits jsxNodes pm fuel' n d = Some tr.
Proof.
  revert fuel' n d tr. induction fuel as [|fuel IH]; intros fuel' n d tr Hle Hv; [done|].
  destruct fuel' as [|fuel']; [lia|].
  apply visits_S_inv in Hv as (ts & Hm & ->). rewrite visits_S.
  assert (mapM (λ c, visits jsxNodes pm fuel' c (d + 1)) (childrenOf jsxNodes pm n)
          = Some ts) as ->; [|done].
  apply mapM_Some. apply mapM_Some in Hm.
  eapply Forall2_impl; [exact Hm|]. intros c trc Hc. simpl in Hc.
  apply IH; [lia|done].
Qed.

Lemma traversal_fuel_mono fuel fuel' jsxNodes tr :
  fuel ≤ fuel' →
  traversal fuel jsxNodes = Some tr →
  traversal fuel' jsxNodes = Some tr.
Proof.
  intros Hle Htr. apply traversal_inv in Htr as (ts & Hm & ->). unfold traversal.
  assert (mapM (λ root, visits jsxNodes (parentIdMapOf jsxNodes) fuel' root 0)
               (rootJsxNodesOf jsxNodes (parentIdMapOf jsxNodes) (nodeByIdOf jsxNodes))
          = Some ts) as ->; [|done].
  apply mapM_Some. apply mapM_Some in Hm.
  eapply Forall2_impl; [exact Hm|]. intros r trr Hr. simpl in Hr.
  by eapply visits_fuel_mono.
Qed.

(** A result obtained with some depth of the call stack is the result with
    any larger one. *)
Lemma applyJsxTreeLayout_fuel_mono fuel fuel' layout layout' :
  fuel ≤ fuel' →
  applyJsxTreeLayout fuel layout = Some layout' →
  applyJsxTreeLayout fuel' layout = Some layout'.
Proof.
  intros Hle Happ. destruct (decide (jsxNodesOf (nodes layout) = [])) as [Hnil|Hjsx].
  - rewrite applyJsxTreeLayout_passthrough in Happ |- * by done. done.
  - destruct (applyJsxTreeLayout_inv _ _ _ Hjsx Happ)
      as (tr & st & ps & Htr & _ & Hst & _ & Hps & ->).
    apply (traversal_fuel_mono _ fuel') in Htr; [|done].
    unfold applyJsxTreeLayout. destruct (decide _) as [Hlen|_].
    { by apply length_zero_iff_nil in Hlen. }
    rewrite depthPass_traversal, Htr. simpl.
    rewrite positionPass_traversal, Htr. simpl.
    by rewrite <- Hst, <- Hps.
Qed.

(** ** A traversal that does not return *)

Lemma selfParent_never_returns fuel d :
  visits (jsxNodesOf (nodes selfParent)) (parentIdMapOf (jsxNodesOf (nodes selfParent)))
         fuel selfParentNode d = None.
Proof.
  revert d. induction fuel as [|fuel IH]; intros d; [done|].
  assert (childrenOf (jsxNodesOf (nodes selfParent))
            (parentIdMapOf (jsxNodesOf (nodes selfParent))) selfParentNode
          = [selfParentNode]) as Hchildren by (vm_compute; reflexivity).
  rewrite visits_S, Hchildren. simpl. by rewrite IH.
Qed.

(** ** A node without a jsx parent *)


Section DanglingParent.
Variable layout : GraphLayout.
Variable n : GraphNode.
Hypothesis ids_distinct : NoDup (jsxIds layout).
Hypothesis n_jsx : n ∈ jsxNodesOf (nodes layout).
Hypothesis n_parent :
  declaredParent n = None ∨ ∃ p, declaredParent n = Some p ∧ p ∉ jsxIds layout.




End DanglingParent.

(** ** The nodes the recursion is called on *)

Section Called.
Variable jsxNodes : list GraphNode.

(** Every call of a traversal is made on a node the recursion can be called
    on. *)
Lemma visits_called fuel n d tr e :
  called jsxNodes (parentIdMapOf jsxNodes) (nodeByIdOf jsxNodes) n →
  visits jsxNodes (parentIdMapOf jsxNodes) fuel n d = Some tr →
  e ∈ tr →
  called jsxNodes (parentIdMapOf jsxNodes) (nodeByIdOf jsxNodes) e.1.
Proof.
  revert n d tr. induction fuel as [|fuel IH]; intros n d tr Hn Hv He; [done|].
  apply visits_S_inv in Hv as (ts & Hm & ->).
  apply elem_of_cons in He as [->|He]; [done|].
  destruct (mapM_concat_elem _ _ _ _ Hm He) as (c & trc & Hc & Htrc & Hec).
  eapply IH; [|done|done]. by eapply called_child.
Qed.

Lemma traversal_called fuel tr e :
  traversal fuel jsxNodes = Some tr → e ∈ tr →
  called jsxNodes (parentIdMapOf jsxNodes) (nodeByIdOf jsxNodes) e.1.
Proof.
  intros Htr He. apply traversal_inv in Htr as (ts & Hm & ->).
  destruct (mapM_concat_elem _ _ _ _ Hm He) as (r & trr & Hr & Htrr & Her).
  eapply visits_called; [|done|done]. by apply called_root.
Qed.

(** A node of a cycle whose declared parent is not falsy is not a root: the
    parent is a node of the cycle, hence a jsx node. *)
Lemma cycle_node_not_root i m :
  onCycle (parentIdMapOf jsxNodes) i →
  reaches (parentIdMapOf jsxNodes) i (node_id m) →
  truthy (mapGet (parentIdMapOf jsxNodes) (node_id m)) →
  ¬ isRoot (parentIdMapOf jsxNodes) (nodeByIdOf jsxNodes) m.
Proof.
  intros Hcyc Hreach Htruthy. unfold isRoot.
  destruct (mapGet (parentIdMapOf jsxNodes) (node_id m)) as [p|] eqn:Hp; [|done].
  simpl. intros [Hfalsy|Hmiss]; [done|]. apply Hmiss.
  apply nodeByIdOf_is_Some.
  assert (onCycle (parentIdMapOf jsxNodes) p) as (k & Hk & Hpcyc).
  { eapply onCycle_reaches; [exact Hcyc|]. by eapply reaches_parent. }
  destruct k as [|k]; [lia|]. simpl in Hpcyc.
  destruct (mapGet (parentIdMapOf jsxNodes) p) as [q|] eqn:Hq; [|done].
  by eapply mapGet_Some_dom.
Qed.

(** No call is made on a node none of whose ancestors is a root. *)
Lemma called_has_root_above i m :
  (∀ m, m ∈ jsxNodes → reaches (parentIdMapOf jsxNodes) i (node_id m) →
        ¬ isRoot (parentIdMapOf jsxNodes) (nodeByIdOf jsxNodes) m) →
  called jsxNodes (parentIdMapOf jsxNodes) (nodeByIdOf jsxNodes) m →
  ¬ reaches (parentIdMapOf jsxNodes) i (node_id m).
Proof.
  intros Hnoroot Hcalled. induction Hcalled as [r Hr|v c _ IH Hc].
  - apply rootJsxNodesOf_elem in Hr as [Hroot Hr]. intros Hreach.
    by apply (Hnoroot r).
  - apply childrenOf_elem in Hc as [Hpc _]. intros Hreach. apply IH.
    by eapply reaches_parent.
Qed.
End Called.

(** ** The transformer on its own result *)

Lemma filter_fmap_comm {A B : Type} (f : A → B) (P : B → Prop) (Q : A → Prop)
    `{∀ b, Decision (P b)} `{∀ a, Decision (Q a)} (l : list A) :
  (∀ a, P (f a) ↔ Q a) → filter P (f <$> l) = f <$> filter Q l.
Proof.
  intros HPQ. induction l as [|a l IH]; [done|].
  rewrite fmap_cons, !filter_cons, IH.
  destruct (decide (P (f a))) as [HP|HP], (decide (Q a)) as [HQ|HQ]; try done.
  - exfalso. by apply HQ, HPQ.
  - exfalso. by apply HP, HPQ.
Qed.

Lemma mapM_fmap_arg {A B C : Type} (F : B → option C) (g : A → B) (l : list A) :
  mapM F (g <$> l) = mapM (λ a, F (g a)) l.
Proof.
  induction l as [|a l IH]; [done|]. csimpl.
  destruct (F (g a)); [|done]. csimpl. f_equal. apply IH.
Qed.

Lemma mapM_fmap_res {A B C : Type} (t : A → option B) (h : B → C) (l : list A) :
  mapM (λ a, h <$> t a) l = (fmap (M:=list) h) <$> mapM t l.
Proof.
  induction l as [|a l IH]; [done|]. csimpl.
  destruct (t a); [|done]. csimpl.
  etrans; [apply (f_equal (λ o, o ≫= _) IH)|]. by destruct (mapM t l).
Qed.

Lemma concat_fmap {A B : Type} (h : A → B) (ls : list (list A)) :
  concat (fmap (M:=list) h <$> ls) = h <$> concat ls.
Proof.
  induction ls as [|l ls IH]; [done|].
  rewrite fmap_cons, !concat_cons, fmap_app. by rewrite IH.
Qed.

Section Moved.
Variable ps : gmap string Position.

Lemma declaredParent_moveNode n : declaredParent (moveNode ps n) = declaredParent n.
Proof. unfold declaredParent. by rewrite moveNode_meta. Qed.

Lemma jsxNodesOf_moveNode (ns : list GraphNode) :
  jsxNodesOf (moveNode ps <$> ns) = moveNode ps <$> jsxNodesOf ns.
Proof.
  unfold jsxNodesOf. apply filter_fmap_comm. intros n. by rewrite moveNode_kind.
Qed.

Lemma parentIdMapOf_moveNode (ns : list GraphNode) :
  parentIdMapOf (moveNode ps <$> ns) = parentIdMapOf ns.
Proof.
  apply map_eq. intros i.
  rewrite !parentIdMapOf_lookup, lastWithId_moveNode.
  destruct (lastWithId i ns); simpl; [|done]. by rewrite declaredParent_moveNode.
Qed.

Lemma isRoot_moveNode pm (ns : list GraphNode) n :
  isRoot pm (nodeByIdOf (moveNode ps <$> ns)) (moveNode ps n)
  ↔ isRoot pm (nodeByIdOf ns) n.
Proof.
  unfold isRoot, mapHas. rewrite moveNode_id.
  rewrite !nodeByIdOf_lookup, lastWithId_moveNode, fmap_is_Some. done.
Qed.

Lemma rootJsxNodesOf_moveNode pm (ns : list GraphNode) :
  rootJsxNodesOf (moveNode ps <$> ns) pm (nodeByIdOf (moveNode ps <$> ns))
  = moveNode ps <$> rootJsxNodesOf ns pm (nodeByIdOf ns).
Proof.
  unfold rootJsxNodesOf. apply filter_fmap_comm. intros n. apply isRoot_moveNode.
Qed.

Lemma childrenOf_moveNode pm (ns : list GraphNode) n :
  childrenOf (moveNode ps <$> ns) pm (moveNode ps n)
  = moveNode ps <$> childrenOf ns pm n.
Proof.
  unfold childrenOf. apply filter_fmap_comm. intros c. by rewrite !moveNode_id.
Qed.

Lemma visits_moveNode pm (ns : list GraphNode) fuel n d :
  visits (moveNode ps <$> ns) pm fuel (moveNode ps n) d
  = (fmap (M:=list) (movedVisit ps)) <$> visits ns pm fuel n d.
Proof.
  revert n d. induction fuel as [|fuel IH]; intros n d; [done|].
  rewrite !visits_S, childrenOf_moveNode, mapM_fmap_arg.
  rewrite (mapM_ext _ (λ c, fmap (M:=list) (movedVisit ps) <$> visits ns pm fuel c (d + 1)))
    by (intros; apply IH).
  rewrite mapM_fmap_res.
  destruct (mapM _ (childrenOf ns pm n)) as [ts|]; simpl; [|done].
  by rewrite concat_fmap.
Qed.

Lemma traversal_moveNode fuel (ns : list GraphNode) :
  traversal fuel (moveNode ps <$> ns) = (fmap (M:=list) (movedVisit ps)) <$> traversal fuel ns.
Proof.
  unfold traversal.
  rewrite parentIdMapOf_moveNode, rootJsxNodesOf_moveNode, mapM_fmap_arg.
  rewrite (mapM_ext _ (λ r, fmap (M:=list) (movedVisit ps)
                              <$> visits ns (parentIdMapOf ns) fuel r 0))
    by (intros; apply visits_moveNode).
  rewrite mapM_fmap_res.
  destruct (mapM _ (rootJsxNodesOf ns _ _)) as [ts|]; simpl; [|done].
  by rewrite concat_fmap.
Qed.

Lemma replay_moved {S : Type} (visit : GraphNode → nat → S → S) st tr :
  (∀ n d s, visit (moveNode ps n) d s = visit n d s) →
  replay visit st (movedVisit ps <$> tr) = replay visit st tr.
Proof.
  intros Hvisit. revert st. induction tr as [|e tr IH]; intros st; [done|].
  unfold replay in *. simpl. rewrite Hvisit. apply IH.
Qed.

Lemma dfsVisit_moveNode n d st : dfsVisit (moveNode ps n) d st = dfsVisit n d st.
Proof. unfold dfsVisit. by rewrite moveNode_id. Qed.

Lemma posVisit_moveNode baseX maxDepth n d st :
  posVisit baseX maxDepth (moveNode ps n) d st = posVisit baseX maxDepth n d st.
Proof. unfold posVisit. by rewrite moveNode_id. Qed.

Lemma depthPass_moveNode fuel (ns : list GraphNode) :
  depthPass fuel (moveNode ps <$> ns) = depthPass fuel ns.
Proof.
  rewrite !depthPass_traversal, traversal_moveNode.
  destruct (traversal fuel ns) as [tr|]; simpl; [|done].
  by rewrite (replay_moved dfsVisit) by apply dfsVisit_moveNode.
Qed.

Lemma positionPass_moveNode fuel (ns : list GraphNode) baseX maxDepth :
  positionPass fuel (moveNode ps <$> ns) baseX maxDepth
  = positionPass fuel ns baseX maxDepth.
Proof.
  rewrite !positionPass_traversal, traversal_moveNode.
  destruct (traversal fuel ns) as [tr|]; simpl; [|done].
  by rewrite (replay_moved (posVisit baseX maxDepth)) by apply posVisit_moveNode.
Qed.

Lemma moveNode_idemp n : moveNode ps (moveNode ps n) = moveNode ps n.
Proof.
  unfold moveNode at 1. rewrite moveNode_id.
  destruct (ps !! node_id n) as [pos|] eqn:Hpos; [|done].
  unfold moveNode. by rewrite Hpos.
Qed.
End Moved.

Lemma snapEndpoint_idemp m ep : snapEndpoint m (snapEndpoint m ep) = snapEndpoint m ep.
Proof.
  unfold snapEndpoint at 1. rewrite snapEndpoint_nodeId.
  destruct (decide (truthy (ep_nodeId ep))) as [Ht|Ht]; [|by unfold snapEndpoint; rewrite decide_False].
  destruct (m !! default EmptyString (ep_nodeId ep)) as [n|] eqn:Hn.
  - unfold snapEndpoint. rewrite decide_True by done. by rewrite Hn.
  - unfold snapEndpoint. rewrite decide_True by done. by rewrite Hn.
Qed.

Lemma snapEdge_idemp m e : snapEdge m (snapEdge m e) = snapEdge m e.
Proof. unfold snapEdge. simpl. by rewrite !snapEndpoint_idemp. Qed.

Lemma maxXOf_idemp w ns : maxXOf (maxXOf w ns) ns = maxXOf w ns.
Proof.
  apply (foldl_grow_fixed rightOf). intros n Hn. by apply maxXOf_ge_right.
Qed.

Lemma maxYOf_idemp h ns : maxYOf (maxYOf h ns) ns = maxYOf h ns.
Proof.
  apply (foldl_grow_fixed bottomOf). intros n Hn. by apply maxYOf_ge_bottom.
Qed.

(** * Evaluation *)

(** The calls of a pass on [twoRoots]: the tree below [div], then the
    node [footer], whose parent is no jsx node. *)
Example traversal_twoRoots :
  (fmap (M:=list) (λ e : Visit, (node_id e.1, e.2)))
    <$> traversal 3 (jsxNodesOf (nodes twoRoots))
  = Some [("div", 0); ("button", 1); ("span", 2); ("footer", 0)].
Proof. vm_compute. reflexivity. Qed.

(** The maximal depth is 2, so the tree is spread over 560, 720 and 880
    around the anchor 720; each depth is a stack of its own. *)
Example nodes_twoRootsOut :
  (λ n, (node_id n, Qred (node_x n), Qred (node_y n))) <$> nodes twoRootsOut
  = [("count", 240%Q, 80%Q); ("div", 560%Q, 80%Q); ("button", 720%Q, 80%Q);
     ("span", 880%Q, 80%Q); ("footer", 560%Q, 120%Q)].
Proof. vm_compute. reflexivity. Qed.

(** The node [span] reaches beyond the input width of 800. *)
Example canvas_twoRootsOut :
  (Qred (width twoRootsOut), Qred (height twoRootsOut)) = (980%Q, 300%Q).
Proof. vm_compute. reflexivity. Qed.

(** A call stack of depth 2 is not enough for a tree of three levels. *)
Example applyJsxTreeLayout_twoRoots_shallow :
  applyJsxTreeLayout 2 twoRoots = None.
Proof. vm_compute. reflexivity. Qed.

(** The cycle of [withCycle] and the node below it are left where they
    were. *)
Example nodes_withCycle :
  (fmap (M:=list) (λ n, (node_id n, Qred (node_x n), Qred (node_y n))))
    <$> (nodes <$> applyJsxTreeLayout 5 withCycle)
  = Some [("app", 640%Q, 80%Q); ("a", 700%Q, 120%Q); ("b", 710%Q, 160%Q);
          ("main", 800%Q, 80%Q); ("below", 730%Q, 240%Q)].
Proof. vm_compute. reflexivity. Qed.

(** * The claims *)

(** ** C1: the coordinates of a visited node *)



(** ** C2: a layout without a jsx node *)

(** C2.  A layout without a jsx node is returned as it is, whatever the
    fuel: nodes, edges, coordinates, column anchors, width and height. *)
Theorem C2_passthrough fuel layout :
  (∀ n, n ∈ nodes layout → node_kind n ≠ KindJsx) →
  applyJsxTreeLayout fuel layout = Some layout.
Proof.
  intros Hall. apply applyJsxTreeLayout_passthrough. by apply jsxNodesOf_nil.
Qed.

Lemma C2_passthrough_witness :
  applyJsxTreeLayout 0 stateOnly = Some stateOnly.
Proof.
  apply (C2_passthrough 0 stateOnly).
  intros n Hn. simpl in Hn.
  apply list_elem_of_singleton in Hn. subst n. simpl. discriminate.
Defined.

(** ** C3: the endpoints of the edges *)

(** C3, refuted as stated: the edge of [twoRoots] that starts at the state
    node [count], which the tree layout does not move, enters with the
    snapshot (250, 95) and leaves with the center (240, 80) of the node. *)
Lemma C3_counterexample :
  ∃ layout' tr n e e',
    applyJsxTreeLayout 3 twoRoots = Some layout'
    ∧ traversal 3 (jsxNodesOf (nodes twoRoots)) = Some tr
    ∧ edges twoRoots !! 0 = Some e
    ∧ edges layout' !! 0 = Some e'
    ∧ ep_nodeId (edge_from e) = Some (node_id n)
    ∧ nodes twoRoots !! 0 = Some n
    ∧ nodes layout' !! 0 = Some n
    ∧ onId (node_id n) tr = []
    ∧ (ep_x (edge_from e) == 250 ∧ ep_y (edge_from e) == 95)%Q
    ∧ (ep_x (edge_from e') == 240 ∧ ep_y (edge_from e') == 80)%Q
    ∧ ¬ (ep_x (edge_from e') == ep_x (edge_from e))%Q
    ∧ ¬ (ep_y (edge_from e') == ep_y (edge_from e))%Q.
Proof.
  eexists. eexists. exists (mkNode "count" KindState 240 80 None). eexists. eexists.
  split; [vm_compute; reflexivity|].
  split; [vm_compute; reflexivity|].
  split_and!; try reflexivity; vm_compute; discriminate.
Qed.

(** C3, amended.  When the layout has a jsx node and the transformer
    returns, each endpoint of each edge keeps its node reference and: if the
    reference is a non-empty identifier that a node of the result carries, the
    cached x/y of the endpoint are the x/y of that node in the result (the
    last node with the identifier), whether the tree layout moved the node or
    not; for a node that no call of the traversal reached this is the node of
    the input, so the endpoint takes the input center of the node and not the
    input snapshot.  An endpoint without reference, with the empty string as
    reference, or with a reference that no node carries is the endpoint of the
    input. *)
Theorem C3_edge_endpoints fuel layout layout' :
  jsxNodesOf (nodes layout) ≠ [] →
  applyJsxTreeLayout fuel layout = Some layout' →
  ∃ tr,
    traversal fuel (jsxNodesOf (nodes layout)) = Some tr
    ∧ ∀ j e e' side,
        edges layout !! j = Some e →
        edges layout' !! j = Some e' →
        side = edge_from ∨ side = edge_to →
        ep_nodeId (side e') = ep_nodeId (side e)
        ∧ (∀ i n,
             ep_nodeId (side e) = Some i → i ≠ EmptyString →
             lastWithId i (nodes layout') = Some n →
             ep_x (side e') = node_x n ∧ ep_y (side e') = node_y n
             ∧ (onId i tr = [] → lastWithId i (nodes layout) = Some n))
        ∧ (ep_nodeId (side e) = None ∨ ep_nodeId (side e) = Some EmptyString
           ∨ (∃ i, ep_nodeId (side e) = Some i ∧ lastWithId i (nodes layout') = None) →
           side e' = side e).
Proof.
  intros Hjsx Happ.
  destruct (applyJsxTreeLayout_inv _ _ _ Hjsx Happ)
    as (tr & st & ps & Htr & _ & _ & _ & Hps & ->).
  exists tr. split; [done|]. cbn [nodes edges].
  intros j e e' side He He' Hside.
  rewrite list_lookup_fmap, He in He'. injection He' as <-.
  rewrite (snapEdge_side _ _ _ Hside). split_and!.
  - apply snapEndpoint_nodeId.
  - intros i n Hi Hne Hn.
    pose proof Hn as Hn'. rewrite <- nodeByIdOf_lookup in Hn'.
    destruct (snapEndpoint_hit _ _ _ _ Hi Hne Hn') as [-> ->].
    split_and!; [done|done|]. intros Hnot.
    rewrite lastWithId_moveNode in Hn.
    destruct (lastWithId i (nodes layout)) as [n0|] eqn:Hn0; [|done].
    simpl in Hn. injection Hn as <-.
    apply lastWithId_elem in Hn0 as [_ Hid].
    rewrite moveNode_None; [done|].
    rewrite Hid, Hps. by apply replay_positions_None.
  - intros Hmiss. apply snapEndpoint_miss.
    destruct Hmiss as [?|[?|(i & ? & Hi)]]; [by left|by right; left|].
    right; right. exists i. by rewrite nodeByIdOf_lookup.
Qed.

Lemma C3_edge_endpoints_witness :
  ∃ tr,
    traversal 3 (jsxNodesOf (nodes twoRoots)) = Some tr
    ∧ ∀ j e e' side,
        edges twoRoots !! j = Some e →
        edges twoRootsOut !! j = Some e' →
        side = edge_from ∨ side = edge_to →
        ep_nodeId (side e') = ep_nodeId (side e)
        ∧ (∀ i n,
             ep_nodeId (side e) = Some i → i ≠ EmptyString →
             lastWithId i (nodes twoRootsOut) = Some n →
             ep_x (side e') = node_x n ∧ ep_y (side e') = node_y n
             ∧ (onId i tr = [] → lastWithId i (nodes twoRoots) = Some n))
        ∧ (ep_nodeId (side e) = None ∨ ep_nodeId (side e) = Some EmptyString
           ∨ (∃ i, ep_nodeId (side e) = Some i ∧ lastWithId i (nodes twoRootsOut) = None) →
           side e' = side e).
Proof.
  apply (C3_edge_endpoints 3 twoRoots twoRootsOut).
  - vm_compute. discriminate.
  - vm_compute. reflexivity.
Defined.

(** ** C4: where the jsx nodes lie *)

(** The borders the correction of the canvas reaches.  Whenever the
    transformer returns, every jsx node of the result has its right edge and
    its bottom edge, with the margin of 40, inside the canvas of the result:
    [x + width / 2 + 40 <= width'] and [y + height / 2 + 40 <= height'].  A
    node the position pass visited has [y >= 80]; its [x] is bounded from
    below by nothing but the anchor: it is not negative when [colX.jsx] is
    at least 80 times the maximal depth. *)
Lemma jsx_nodes_right_and_below fuel layout layout' m :
  applyJsxTreeLayout fuel layout = Some layout' →
  m ∈ nodes layout' →
  node_kind m = KindJsx →
  (node_x m + node_width m / 2 + 40 <= width layout')%Q
  ∧ (node_y m + node_height m / 2 + 40 <= height layout')%Q
  ∧ ((0 <= node_width m)%Q → (node_x m <= width layout')%Q)
  ∧ ((0 <= node_height m)%Q → (node_y m <= height layout')%Q)
  ∧ ∃ tr st,
      traversal fuel (jsxNodesOf (nodes layout)) = Some tr
      ∧ depthPass fuel (jsxNodesOf (nodes layout)) = Some st
      ∧ (onId (node_id m) tr ≠ [] →
         (80 <= node_y m)%Q
         ∧ ((80 * ofNat (maxDepthOf (depthById st)) <= col_jsx (colX layout))%Q →
            (0 <= node_x m)%Q)).
Proof.
  intros Happ Hm Hkind.
  destruct (decide (jsxNodesOf (nodes layout) = [])) as [Hnil|Hjsx].
  { rewrite applyJsxTreeLayout_passthrough in Happ by done. injection Happ as <-.
    exfalso. assert (m ∈ jsxNodesOf (nodes layout)) as Hin
      by (apply list_elem_of_filter; done).
    rewrite Hnil in Hin. by apply not_elem_of_nil in Hin. }
  pose proof Happ as Happ'.
  destruct (applyJsxTreeLayout_inv _ _ _ Hjsx Happ)
    as (tr & st & ps & Htr & Hst & Hst' & _ & Hps & ->).
  cbn [nodes width height colX] in *. split_and!.
  - apply (maxXOf_ge_right (width layout) _ _ Hm).
  - apply (maxYOf_ge_bottom (height layout) _ _ Hm).
  - intros Hw. pose proof (maxXOf_ge_right (width layout) _ _ Hm) as Hr.
    unfold rightOf in Hr. qarith.
  - intros Hh. pose proof (maxYOf_ge_bottom (height layout) _ _ Hm) as Hb.
    unfold bottomOf in Hb. qarith.
  - exists tr, st. split_and!; [done|done|]. intros Hvis.
    destruct (moved_node_coordinates _ _ _ Hjsx Happ')
      as (tr' & st' & Htr' & Hst'' & _ & Hcoord).
    simplify_eq. cbn [nodes width height colX] in Hcoord.
    apply list_elem_of_lookup in Hm as [j Hj].
    destruct (Hcoord j m Hj Hvis) as (k & n & d & _ & _ & _ & Hd & Hx & Hy).
    pose proof (ofNat_nonneg (rowOf tr k d)) as Hrow.
    pose proof (ofNat_nonneg d) as Hdn.
    split; [rewrite Hy; qarith|]. intros Hcol. rewrite Hx. qarith.
Qed.

(** C4.  The transformer breaks the claim.  On a chain of eleven jsx nodes
    in a jsx column anchored at [x = 720], on a canvas of 800 by 300, it
    returns a layout whose first node stands at
    [x = 720 - (10 * 160) / 2 = -80], left of the rectangle
    [[0, width] x [0, height]] of the result; on a tree of depth 1 anchored
    at [x = 50] the root stands at [x = 50 - 80 = -30].  In both results the
    correction of the canvas has kept every jsx node, with its margin of 40,
    inside the right and the bottom border: only the left side is
    missed. *)
Theorem C4_jsx_node_left_of_canvas :
  (∃ m,
     applyJsxTreeLayout 11 deepChain = Some deepChainOut
     ∧ nodes deepChainOut !! 0 = Some m
     ∧ node_kind m = KindJsx
     ∧ (node_x m == -80)%Q
     ∧ ¬ ((0 <= node_x m)%Q ∧ (node_x m <= width deepChainOut)%Q
          ∧ (0 <= node_y m)%Q ∧ (node_y m <= height deepChainOut)%Q)
     ∧ ∀ n, n ∈ nodes deepChainOut → node_kind n = KindJsx →
            (node_x n + node_width n / 2 + 40 <= width deepChainOut)%Q
            ∧ (node_y n + node_height n / 2 + 40 <= height deepChainOut)%Q)
  ∧ (∃ layout' m,
       applyJsxTreeLayout 2 narrowColumn = Some layout'
       ∧ nodes layout' !! 0 = Some m
       ∧ node_kind m = KindJsx
       ∧ (node_x m == -30)%Q
       ∧ ¬ ((0 <= node_x m)%Q ∧ (node_x m <= width layout')%Q
            ∧ (0 <= node_y m)%Q ∧ (node_y m <= height layout')%Q)
       ∧ ∀ n, n ∈ nodes layout' → node_kind n = KindJsx →
              (node_x n + node_width n / 2 + 40 <= width layout')%Q
              ∧ (node_y n + node_height n / 2 + 40 <= height layout')%Q).
Proof.
  split.
  - eexists. split; [vm_compute; reflexivity|].
    split; [reflexivity|]. split; [reflexivity|].
    split; [vm_compute; reflexivity|]. split.
    + intros (Hx & _). vm_compute in Hx. by apply Hx.
    + intros n Hn Hkind.
      assert (applyJsxTreeLayout 11 deepChain = Some deepChainOut) as Happ
        by (vm_compute; reflexivity).
      destruct (jsx_nodes_right_and_below _ _ _ _ Happ Hn Hkind) as (Hr & Hb & _).
      by split.
  - eexists. eexists. split; [vm_compute; reflexivity|].
    split; [reflexivity|]. split; [reflexivity|].
    split; [vm_compute; reflexivity|]. split.
    + intros (Hx & _). vm_compute in Hx. by apply Hx.
    + intros n Hn Hkind.
      assert (applyJsxTreeLayout 2 narrowColumn
              = Some (default narrowColumn (applyJsxTreeLayout 2 narrowColumn))) as Happ
        by (vm_compute; reflexivity).
      destruct (jsx_nodes_right_and_below _ _ _ _ Happ Hn Hkind) as (Hr & Hb & _).
      by split.
Qed.

(** ** C5: termination *)

(** C5, refuted as stated: on a jsx node whose identifier and declared
    parent are the empty string the transformer returns for no depth of the
    call stack.  The node is a root, because its parent is falsy, and its own
    child, because its parent is its identifier; nothing stops the second
    call on it. *)
Lemma C5_counterexample :
  ¬ ∃ fuel, is_Some (applyJsxTreeLayout fuel selfParent).
Proof.
  intros [fuel [layout' Happ]].
  assert (jsxNodesOf (nodes selfParent) ≠ []) as Hjsx by (vm_compute; discriminate).
  destruct (applyJsxTreeLayout_inv _ _ _ Hjsx Happ) as (tr & _ & _ & Htr & _).
  apply traversal_inv in Htr as (ts & Hm & _).
  assert (rootJsxNodesOf (jsxNodesOf (nodes selfParent))
            (parentIdMapOf (jsxNodesOf (nodes selfParent)))
            (nodeByIdOf (jsxNodesOf (nodes selfParent)))
          = [selfParentNode]) as Hroots by (vm_compute; reflexivity).
  rewrite Hroots in Hm. simpl in Hm.
  by rewrite selfParent_never_returns in Hm.
Qed.

(** C5, amended.  On a layout whose jsx nodes have pairwise distinct,
    non-empty identifiers, with or without a cycle among the parent links,
    the transformer returns as soon as the call stack may be as deep as there
    are jsx nodes; both passes make the same calls, in the same order, no two
    of them on the same node, and none on a node of a cycle.  No set of
    visited nodes is kept: a node of a cycle is the child of a node of the
    cycle only, and no call reaches the cycle. *)
Theorem C5_traversal_terminates fuel layout :
  NoDup (jsxIds layout) →
  EmptyString ∉ jsxIds layout →
  length (jsxNodesOf (nodes layout)) ≤ fuel →
  ∃ layout' tr,
    applyJsxTreeLayout fuel layout = Some layout'
    ∧ traversal fuel (jsxNodesOf (nodes layout)) = Some tr
    ∧ depthPass fuel (jsxNodesOf (nodes layout)) = Some (replay dfsVisit dfsInit tr)
    ∧ (∀ baseX maxDepth,
         positionPass fuel (jsxNodesOf (nodes layout)) baseX maxDepth
         = Some (replay (posVisit baseX maxDepth) posInit tr))
    ∧ NoDup (idsOf tr)
    ∧ ∀ e, e ∈ tr →
           e.1 ∈ jsxNodesOf (nodes layout)
           ∧ ¬ onCycle (parentIdMapOf (jsxNodesOf (nodes layout))) (node_id e.1).
Proof.
  intros Hnd Hempty Hfuel.
  destruct (applyJsxTreeLayout_terminates _ _ Hempty Hfuel) as [layout' Happ].
  destruct (traversal_terminates _ _ Hempty Hfuel) as [tr Htr].
  exists layout', tr. split_and!; [done|done| | | |].
  - by rewrite depthPass_traversal, Htr.
  - intros. by rewrite positionPass_traversal, Htr.
  - by eapply traversal_NoDup.
  - intros e He. split.
    + by destruct (traversal_entries _ _ _ _ Htr He).
    + by eapply traversal_acyclic.
Qed.

Lemma C5_traversal_terminates_witness :
  ∃ layout' tr,
    applyJsxTreeLayout 5 withCycle = Some layout'
    ∧ traversal 5 (jsxNodesOf (nodes withCycle)) = Some tr
    ∧ depthPass 5 (jsxNodesOf (nodes withCycle)) = Some (replay dfsVisit dfsInit tr)
    ∧ (∀ baseX maxDepth,
         positionPass 5 (jsxNodesOf (nodes withCycle)) baseX maxDepth
         = Some (replay (posVisit baseX maxDepth) posInit tr))
    ∧ NoDup (idsOf tr)
    ∧ ∀ e, e ∈ tr →
           e.1 ∈ jsxNodesOf (nodes withCycle)
           ∧ ¬ onCycle (parentIdMapOf (jsxNodesOf (nodes withCycle))) (node_id e.1).
Proof.
  apply (C5_traversal_terminates 5 withCycle).
  - apply (bool_decide_unpack _). vm_compute. exact I.
  - apply (bool_decide_unpack _). vm_compute. exact I.
  - vm_compute. lia.
Defined.

(** ** C6: idempotence *)

(** C6.  Whenever the transformer returns a layout (whose jsx nodes then
    carry the identifiers and parent links of the input), the transformer
    applied to that layout returns that very layout: the same nodes with the
    same coordinates, the same edges with the same endpoint coordinates, the
    same width and height. *)
Theorem C6_idempotent fuel layout layout' :
  applyJsxTreeLayout fuel layout = Some layout' →
  (declaredParent <$> nodes layout' = declaredParent <$> nodes layout)
  ∧ applyJsxTreeLayout fuel layout' = Some layout'.
Proof.
  intros Happ. destruct (decide (jsxNodesOf (nodes layout) = [])) as [Hnil|Hjsx].
  { rewrite applyJsxTreeLayout_passthrough in Happ by done. injection Happ as <-.
    split; [done|]. by apply applyJsxTreeLayout_passthrough. }
  destruct (applyJsxTreeLayout_inv _ _ _ Hjsx Happ)
    as (tr & st & ps & Htr & Hst & Hst' & Hps & Hps' & ->).
  split.
  { cbn [nodes]. rewrite <- list_fmap_compose. apply list_fmap_ext.
    intros _ n _. apply declaredParent_moveNode. }
  unfold applyJsxTreeLayout. cbn [nodes edges width height colX].
  rewrite jsxNodesOf_moveNode.
  destruct (decide _) as [Hlen|_].
  { rewrite length_fmap in Hlen. by apply length_zero_iff_nil in Hlen. }
  rewrite depthPass_moveNode, Hst. simpl.
  rewrite positionPass_moveNode, Hps. simpl.
  rewrite <- list_fmap_compose.
  rewrite (list_fmap_ext (moveNode (newNodePositions ps) ∘ moveNode (newNodePositions ps))
             (moveNode (newNodePositions ps)) (nodes layout))
    by (intros; apply moveNode_idemp).
  rewrite <- list_fmap_compose.
  rewrite (list_fmap_ext (snapEdge _ ∘ snapEdge _) (snapEdge
             (nodeByIdOf (moveNode (newNodePositions ps) <$> nodes layout))) (edges layout))
    by (intros; apply snapEdge_idemp).
  by rewrite maxXOf_idemp, maxYOf_idemp.
Qed.

Lemma C6_idempotent_witness :
  (declaredParent <$> nodes twoRootsOut = declaredParent <$> nodes twoRoots)
  ∧ applyJsxTreeLayout 3 twoRootsOut = Some twoRootsOut.
Proof.
  apply (C6_idempotent 3 twoRoots twoRootsOut).
  vm_compute. reflexivity.
Defined.

(** ** C7: the canvas only grows *)

(** C7.  Whenever the transformer returns, the width and the height of the
    result are at least those of the input. *)
Theorem C7_canvas_only_grows fuel layout layout' :
  applyJsxTreeLayout fuel layout = Some layout' →
  (width layout <= width layout')%Q ∧ (height layout <= height layout')%Q.
Proof.
  intros Happ. destruct (decide (jsxNodesOf (nodes layout) = [])) as [Hnil|Hjsx].
  - rewrite applyJsxTreeLayout_passthrough in Happ by done.
    injection Happ as <-. split; lra.
  - destruct (applyJsxTreeLayout_inv _ _ _ Hjsx Happ) as (tr & st & ps & _ & _ & _ & _ & _ & ->).
    simpl. split; [apply maxXOf_ge_width|apply maxYOf_ge_height].
Qed.

Lemma C7_canvas_only_grows_witness :
  (width twoRoots <= width twoRootsOut)%Q ∧ (height twoRoots <= height twoRootsOut)%Q.
Proof.
  apply (C7_canvas_only_grows 3 twoRoots twoRootsOut).
  vm_compute. reflexivity.
Defined.

(** ** C8: a node without a jsx parent *)



(** ** C9: endpoints follow their nodes *)

(** C9, refuted as stated, twice.  A layout without a jsx node is returned
    as it is, so the endpoint of [stateOnly] that names the node [count]
    keeps its snapshot (250, 95) although the node is at (240, 80).  And an
    endpoint whose reference is the empty string is never overwritten: in
    [emptyId] the node with the empty identifier is placed at (720, 80) while
    the endpoint that names it stays at (10, 20). *)
Lemma C9_counterexample :
  (∃ layout' e' n,
     applyJsxTreeLayout 0 stateOnly = Some layout'
     ∧ e' ∈ edges layout'
     ∧ n ∈ nodes layout'
     ∧ ep_nodeId (edge_from e') = Some (node_id n)
     ∧ ¬ (ep_x (edge_from e') == node_x n)%Q
     ∧ ¬ (ep_y (edge_from e') == node_y n)%Q)
  ∧ (∃ layout' e' n,
       applyJsxTreeLayout 1 emptyId = Some layout'
       ∧ e' ∈ edges layout'
       ∧ n ∈ nodes layout'
       ∧ ep_nodeId (edge_from e') = Some (node_id n)
       ∧ ¬ (ep_x (edge_from e') == node_x n)%Q
       ∧ ¬ (ep_y (edge_from e') == node_y n)%Q).
Proof.
  split.
  - eexists. eexists. exists (mkNode "count" KindState 240 80 None).
    split; [vm_compute; reflexivity|].
    split; [left|]. split; [left|].
    split_and!; [reflexivity|vm_compute; discriminate..].
  - eexists. eexists. eexists.
    split; [vm_compute; reflexivity|].
    split; [left|]. split; [left|].
    split_and!; [reflexivity|vm_compute; discriminate..].
Qed.

(** C9, amended.  When the layout has a jsx node and the transformer
    returns, every endpoint of an edge of the result whose reference is a
    non-empty identifier carried by a node of the result has the x/y of that
    node (of the last node with the identifier; of the only one when the
    identifiers of the layout are pairwise distinct), whatever the kind of the
    node and whether or not the tree layout moved it. *)
Theorem C9_endpoints_follow_nodes fuel layout layout' :
  jsxNodesOf (nodes layout) ≠ [] →
  applyJsxTreeLayout fuel layout = Some layout' →
  ∀ e' side i,
    e' ∈ edges layout' →
    side = edge_from ∨ side = edge_to →
    ep_nodeId (side e') = Some i →
    i ≠ EmptyString →
    (∀ n, lastWithId i (nodes layout') = Some n →
          ep_x (side e') = node_x n ∧ ep_y (side e') = node_y n)
    ∧ (NoDup (node_id <$> nodes layout) →
       ∀ n, n ∈ nodes layout' → node_id n = i →
            ep_x (side e') = node_x n ∧ ep_y (side e') = node_y n).
Proof.
  intros Hjsx Happ e' side i He' Hside Hi Hne.
  assert (∀ n, lastWithId i (nodes layout') = Some n →
               ep_x (side e') = node_x n ∧ ep_y (side e') = node_y n) as Hlast.
  { destruct (applyJsxTreeLayout_inv _ _ _ Hjsx Happ)
      as (tr & st & ps & _ & _ & _ & _ & _ & Hout).
    rewrite Hout in He' |- *. cbn [nodes edges] in *.
    apply list_elem_of_fmap in He' as (e & -> & _).
    rewrite (snapEdge_side _ _ _ Hside) in Hi |- *.
    rewrite snapEndpoint_nodeId in Hi.
    intros n Hn. rewrite <- nodeByIdOf_lookup in Hn.
    by apply (snapEndpoint_hit _ _ i). }
  split; [done|]. intros Hnd n Hn <-. apply Hlast.
  apply lastWithId_unique; [|done].
  by rewrite (applyJsxTreeLayout_ids _ _ _ Happ).
Qed.

Lemma C9_endpoints_follow_nodes_witness :
  ∃ e',
    edges twoRootsOut !! 0 = Some e'
    ∧ (∀ n, lastWithId "count" (nodes twoRootsOut) = Some n →
            ep_x (edge_from e') = node_x n ∧ ep_y (edge_from e') = node_y n)
    ∧ (NoDup (node_id <$> nodes twoRoots) →
       ∀ n, n ∈ nodes twoRootsOut → node_id n = "count" →
            ep_x (edge_from e') = node_x n ∧ ep_y (edge_from e') = node_y n).
Proof.
  eexists. split; [reflexivity|].
  apply (C9_endpoints_follow_nodes 3 twoRoots twoRootsOut).
  - vm_compute. discriminate.
  - vm_compute. reflexivity.
  - left.
  - by left.
  - reflexivity.
  - discriminate.
Defined.

(** ** C10: the nodes of a cycle *)

(** C10.  Take a jsx node on a cycle of the parent links, every node of
    which declares a parent that is not falsy (the parent is then a jsx node
    of the cycle).  None of the nodes of the cycle qualifies as a root; the
    recursion is never called on the node; and whenever the transformer
    returns, neither pass has made a call on it, it has no entry in
    [depthById] nor in [newNodePositions], and the result holds the node
    itself, with its input coordinates, at its index. *)
Theorem C10_cycle_nodes_untouched layout j n :
  nodes layout !! j = Some n →
  node_kind n = KindJsx →
  onCycle (parentIdMapOf (jsxNodesOf (nodes layout))) (node_id n) →
  (∀ m, m ∈ jsxNodesOf (nodes layout) →
        reaches (parentIdMapOf (jsxNodesOf (nodes layout))) (node_id n) (node_id m) →
        truthy (mapGet (parentIdMapOf (jsxNodesOf (nodes layout))) (node_id m))) →
  (∀ m, m ∈ jsxNodesOf (nodes layout) →
        reaches (parentIdMapOf (jsxNodesOf (nodes layout))) (node_id n) (node_id m) →
        ¬ isRoot (parentIdMapOf (jsxNodesOf (nodes layout)))
                 (nodeByIdOf (jsxNodesOf (nodes layout))) m)
  ∧ ¬ called (jsxNodesOf (nodes layout))
             (parentIdMapOf (jsxNodesOf (nodes layout)))
             (nodeByIdOf (jsxNodesOf (nodes layout))) n
  ∧ ∀ fuel layout',
      applyJsxTreeLayout fuel layout = Some layout' →
      nodes layout' !! j = Some n
      ∧ ∃ tr st ps,
          traversal fuel (jsxNodesOf (nodes layout)) = Some tr
          ∧ (node_id n ∉ idsOf tr)
          ∧ depthPass fuel (jsxNodesOf (nodes layout)) = Some st
          ∧ depthById st !! node_id n = None
          ∧ positionPass fuel (jsxNodesOf (nodes layout)) (col_jsx (colX layout))
              (maxDepthOf (depthById st)) = Some ps
          ∧ newNodePositions ps !! node_id n = None.
Proof.
  intros Hj Hkind Hcyc Htruthy.
  assert (∀ m, m ∈ jsxNodesOf (nodes layout) →
            reaches (parentIdMapOf (jsxNodesOf (nodes layout))) (node_id n) (node_id m) →
            ¬ isRoot (parentIdMapOf (jsxNodesOf (nodes layout)))
                     (nodeByIdOf (jsxNodesOf (nodes layout))) m) as Hnoroot.
  { intros m Hm Hreach. eapply cycle_node_not_root; [exact Hcyc|done|by apply Htruthy]. }
  split_and!.
  - exact Hnoroot.
  - intros Hcalled.
    apply (called_has_root_above _ _ _ Hnoroot Hcalled). apply reaches_refl.
  - intros fuel layout' Happ.
    assert (n ∈ jsxNodesOf (nodes layout)) as Hn.
    { apply jsxNodesOf_elem. split; [done|]. by eapply list_elem_of_lookup_2. }
    assert (jsxNodesOf (nodes layout) ≠ []) as Hjsx.
    { intros Hnil. rewrite Hnil in Hn. by apply not_elem_of_nil in Hn. }
    destruct (applyJsxTreeLayout_inv _ _ _ Hjsx Happ)
      as (tr & st & ps & Htr & Hst & Hst' & Hps & Hps' & Hout).
    assert (node_id n ∉ idsOf tr) as Hnot.
    { intros Hin. apply elem_of_idsOf in Hin as (e & He & Hid).
      apply (traversal_acyclic _ _ _ _ Htr He). by rewrite Hid. }
    assert (onId (node_id n) tr = []) as Hnil by (by apply onId_nil_idsOf).
    assert (newNodePositions ps !! node_id n = None) as Hpos.
    { rewrite Hps'. by apply replay_positions_None. }
    split.
    + rewrite Hout. cbn [nodes]. rewrite list_lookup_fmap, Hj. simpl.
      by rewrite moveNode_None.
    + exists tr, st, ps. split_and!; try done.
      rewrite Hst', replay_depth_other by done. apply lookup_empty.
Qed.

Lemma C10_cycle_nodes_untouched_witness :
  ∃ n,
    nodes withCycle !! 1 = Some n
    ∧ (∀ m, m ∈ jsxNodesOf (nodes withCycle) →
            reaches (parentIdMapOf (jsxNodesOf (nodes withCycle))) (node_id n) (node_id m) →
            ¬ isRoot (parentIdMapOf (jsxNodesOf (nodes withCycle)))
                     (nodeByIdOf (jsxNodesOf (nodes withCycle))) m)
    ∧ ¬ called (jsxNodesOf (nodes withCycle))
               (parentIdMapOf (jsxNodesOf (nodes withCycle)))
               (nodeByIdOf (jsxNodesOf (nodes withCycle))) n
    ∧ ∀ fuel layout',
        applyJsxTreeLayout fuel withCycle = Some layout' →
        nodes layout' !! 1 = Some n
        ∧ ∃ tr st ps,
            traversal fuel (jsxNodesOf (nodes withCycle)) = Some tr
            ∧ (node_id n ∉ idsOf tr)
            ∧ depthPass fuel (jsxNodesOf (nodes withCycle)) = Some st
            ∧ depthById st !! node_id n = None
            ∧ positionPass fuel (jsxNodesOf (nodes withCycle)) (col_jsx (colX withCycle))
                (maxDepthOf (depthById st)) = Some ps
            ∧ newNodePositions ps !! node_id n = None.
Proof.
  eexists. split; [reflexivity|].
  apply (C10_cycle_nodes_untouched withCycle 1).
  - reflexivity.
  - reflexivity.
  - exists 2. split; [lia|]. vm_compute. reflexivity.
  - intros m _ [k Hk].
    assert (∀ k i, i = "a" ∨ i = "b" →
              ∀ x, ancestor (parentIdMapOf (jsxNodesOf (nodes withCycle))) k i = Some x →
                   x = "a" ∨ x = "b") as Hclosed.
    { clear. induction k as [|k IH]; intros i Hi x Hx.
      - simpl in Hx. injection Hx as <-. exact Hi.
      - simpl in Hx. destruct Hi as [-> | ->].
        + apply (IH "b"); [by right|]. exact Hx.
        + apply (IH "a"); [by left|]. exact Hx. }
    destruct (Hclosed k "a" (or_introl eq_refl) _ Hk) as [-> | ->];
      vm_compute; discriminate.
Defined.

(** * Further properties *)

(** ** What the transformer keeps *)

Lemma moveNode_label ps n : node_label (moveNode ps n) = node_label n.
Proof. unfold moveNode. by destruct (ps !! node_id n). Qed.

Lemma snapEdge_fields m e :
  edge_id (snapEdge m e) = edge_id e
  ∧ edge_kind (snapEdge m e) = edge_kind e
  ∧ edge_label (snapEdge m e) = edge_label e
  ∧ ep_nodeId (edge_from (snapEdge m e)) = ep_nodeId (edge_from e)
  ∧ ep_nodeId (edge_to (snapEdge m e)) = ep_nodeId (edge_to e).
Proof. unfold snapEdge. simpl. by rewrite !snapEndpoint_nodeId. Qed.

(** The calls of a pass are made on identifiers of jsx nodes. *)
Lemma traversal_ids fuel jsxNodes tr i :
  traversal fuel jsxNodes = Some tr → i ∈ idsOf tr → i ∈ node_id <$> jsxNodes.
Proof.
  intros Htr Hi. apply elem_of_idsOf in Hi as (e & He & <-).
  destruct (traversal_entries _ _ _ _ Htr He) as [Hin _].
  apply list_elem_of_fmap. by exists e.1.
Qed.

(** Among nodes with pairwise distinct identifiers, the identifier names
    the node. *)
Lemma same_id_same_node (ns : list GraphNode) a b :
  NoDup (node_id <$> ns) → a ∈ ns → b ∈ ns → node_id a = node_id b → a = b.
Proof.
  intros Hnd Ha Hb Hid.
  pose proof (lastWithId_unique _ _ Hnd Ha) as Hla.
  pose proof (lastWithId_unique _ _ Hnd Hb) as Hlb.
  rewrite Hid in Hla. congruence.
Qed.

(** X1.  Whenever the transformer returns, the result holds as many nodes
    as the input, in the same order, and each one has the identifier, kind,
    label, width, height and meta data of the node at its place in the input:
    only [x] and [y] are ever rewritten.  The column anchors are those of the
    input. *)
Theorem X1_nodes_keep_their_data fuel layout layout' :
  applyJsxTreeLayout fuel layout = Some layout' →
  Forall2 (λ n n',
             node_id n' = node_id n ∧ node_kind n' = node_kind n
             ∧ node_label n' = node_label n
             ∧ node_width n' = node_width n ∧ node_height n' = node_height n
             ∧ node_meta n' = node_meta n)
          (nodes layout) (nodes layout')
  ∧ colX layout' = colX layout.
Proof.
  intros Happ. destruct (decide (jsxNodesOf (nodes layout) = [])) as [Hnil|Hjsx].
  - rewrite applyJsxTreeLayout_passthrough in Happ by done. injection Happ as <-.
    split; [|done]. apply Forall_Forall2_diag, Forall_forall. done.
  - destruct (applyJsxTreeLayout_inv _ _ _ Hjsx Happ)
      as (tr & st & ps & _ & _ & _ & _ & _ & ->).
    cbn [nodes colX]. split; [|done].
    apply Forall2_fmap_r, Forall_Forall2_diag, Forall_forall. intros n _.
    split_and!; [apply moveNode_id|apply moveNode_kind|apply moveNode_label
                |apply moveNode_width|apply moveNode_height|apply moveNode_meta].
Qed.

Lemma X1_nodes_keep_their_data_witness :
  Forall2 (λ n n',
             node_id n' = node_id n ∧ node_kind n' = node_kind n
             ∧ node_label n' = node_label n
             ∧ node_width n' = node_width n ∧ node_height n' = node_height n
             ∧ node_meta n' = node_meta n)
          (nodes twoRoots) (nodes twoRootsOut)
  ∧ colX twoRootsOut = colX twoRoots.
Proof.
  apply (X1_nodes_keep_their_data 3 twoRoots twoRootsOut).
  vm_compute. reflexivity.
Defined.

(** X2.  Whenever the transformer returns, the result holds as many edges
    as the input, in the same order, and each one has the identifier, kind
    and label of the edge at its place in the input and the same node
    references at both endpoints: only the cached [x] and [y] of an endpoint
    are ever rewritten. *)
Theorem X2_edges_keep_their_data fuel layout layout' :
  applyJsxTreeLayout fuel layout = Some layout' →
  Forall2 (λ e e',
             edge_id e' = edge_id e ∧ edge_kind e' = edge_kind e
             ∧ edge_label e' = edge_label e
             ∧ ep_nodeId (edge_from e') = ep_nodeId (edge_from e)
             ∧ ep_nodeId (edge_to e') = ep_nodeId (edge_to e))
          (edges layout) (edges layout').
Proof.
  intros Happ. destruct (decide (jsxNodesOf (nodes layout) = [])) as [Hnil|Hjsx].
  - rewrite applyJsxTreeLayout_passthrough in Happ by done. injection Happ as <-.
    apply Forall_Forall2_diag, Forall_forall. done.
  - destruct (applyJsxTreeLayout_inv _ _ _ Hjsx Happ)
      as (tr & st & ps & _ & _ & _ & _ & _ & ->).
    cbn [edges].
    apply Forall2_fmap_r, Forall_Forall2_diag, Forall_forall. intros e _.
    apply snapEdge_fields.
Qed.

Lemma X2_edges_keep_their_data_witness :
  Forall2 (λ e e',
             edge_id e' = edge_id e ∧ edge_kind e' = edge_kind e
             ∧ edge_label e' = edge_label e
             ∧ ep_nodeId (edge_from e') = ep_nodeId (edge_from e)
             ∧ ep_nodeId (edge_to e') = ep_nodeId (edge_to e))
          (edges twoRoots) (edges twoRootsOut).
Proof.
  apply (X2_edges_keep_their_data 3 twoRoots twoRootsOut).
  vm_compute. reflexivity.
Defined.

(** X3.  Whenever the transformer returns, a node whose identifier is the
    identifier of no jsx node is returned as it is, at its index; when the
    identifiers of the layout are pairwise distinct this is every node that
    is not of kind jsx. *)
Theorem X3_other_nodes_untouched fuel layout layout' j n :
  applyJsxTreeLayout fuel layout = Some layout' →
  nodes layout !! j = Some n →
  node_id n ∉ jsxIds layout
  ∨ (NoDup (node_id <$> nodes layout) ∧ node_kind n ≠ KindJsx) →
  nodes layout' !! j = Some n.
Proof.
  intros Happ Hj Hother.
  assert (node_id n ∉ jsxIds layout) as Hout.
  { destruct Hother as [?|[Hnd Hkind]]; [done|]. intros Hin.
    apply list_elem_of_fmap in Hin as (m & Hid & Hm).
    apply jsxNodesOf_elem in Hm as [Hmk Hm].
    assert (n = m) as ->; [|done].
    eapply same_id_same_node; [exact Hnd| |done|done].
    by eapply list_elem_of_lookup_2. }
  destruct (decide (jsxNodesOf (nodes layout) = [])) as [Hnil|Hjsx].
  - rewrite applyJsxTreeLayout_passthrough in Happ by done. by injection Happ as <-.
  - destruct (applyJsxTreeLayout_inv _ _ _ Hjsx Happ)
      as (tr & st & ps & Htr & _ & _ & _ & Hps & ->).
    cbn [nodes]. rewrite list_lookup_fmap, Hj. simpl. f_equal.
    apply moveNode_None. rewrite Hps. apply replay_positions_None.
    apply onId_nil_idsOf. intros Hin. apply Hout. by eapply traversal_ids.
Qed.

Lemma X3_other_nodes_untouched_witness :
  nodes twoRootsOut !! 0 = Some (mkNode "count" KindState 240 80 None).
Proof.
  apply (X3_other_nodes_untouched 3 twoRoots twoRootsOut 0).
  - vm_compute. reflexivity.
  - reflexivity.
  - left. apply (bool_decide_unpack _). vm_compute. exact I.
Defined.

(** ** The canvas is the least one *)

Lemma foldl_grow_cases (extent : GraphNode → Q) ns init :
  foldl (λ m n, grow m (extent n)) init ns = init
  ∨ ∃ n, n ∈ ns ∧ foldl (λ m n, grow m (extent n)) init ns = extent n.
Proof.
  revert init. induction ns as [|n ns IH]; intros init; simpl; [by left|].
  destruct (IH (grow init (extent n))) as [Heq|(n' & Hn' & Heq)].
  - rewrite Heq. unfold grow. destruct (Qlt_le_dec init (extent n)).
    + right. exists n. split; [left|done].
    + by left.
  - right. exists n'. split; [by right|done].
Qed.

(** X4.  When the layout has a jsx node and the transformer returns, the
    width of the result is the largest of the input width and the right
    extents [x + width / 2 + 40] of the nodes of the result, and it is one of
    these values; likewise the height with the bottom extents
    [y + height / 2 + 40]: the canvas is grown no further than the nodes
    need. *)
Theorem X4_canvas_is_the_maximum fuel layout layout' :
  jsxNodesOf (nodes layout) ≠ [] →
  applyJsxTreeLayout fuel layout = Some layout' →
  ((width layout <= width layout')%Q
   ∧ (∀ n, n ∈ nodes layout' → (node_x n + node_width n / 2 + 40 <= width layout')%Q)
   ∧ (width layout' = width layout
      ∨ ∃ n, n ∈ nodes layout' ∧ width layout' = (node_x n + node_width n / 2 + 40)%Q))
  ∧ ((height layout <= height layout')%Q
     ∧ (∀ n, n ∈ nodes layout' → (node_y n + node_height n / 2 + 40 <= height layout')%Q)
     ∧ (height layout' = height layout
        ∨ ∃ n, n ∈ nodes layout' ∧ height layout' = (node_y n + node_height n / 2 + 40)%Q)).
Proof.
  intros Hjsx Happ.
  destruct (applyJsxTreeLayout_inv _ _ _ Hjsx Happ)
    as (tr & st & ps & _ & _ & _ & _ & _ & ->).
  cbn [nodes width height]. split; split_and!.
  - apply maxXOf_ge_width.
  - intros n Hn. by apply (maxXOf_ge_right (width layout)).
  - apply (foldl_grow_cases rightOf).
  - apply maxYOf_ge_height.
  - intros n Hn. by apply (maxYOf_ge_bottom (height layout)).
  - apply (foldl_grow_cases bottomOf).
Qed.

Lemma X4_canvas_is_the_maximum_witness :
  ((width twoRoots <= width twoRootsOut)%Q
   ∧ (∀ n, n ∈ nodes twoRootsOut →
           (node_x n + node_width n / 2 + 40 <= width twoRootsOut)%Q)
   ∧ (width twoRootsOut = width twoRoots
      ∨ ∃ n, n ∈ nodes twoRootsOut
             ∧ width twoRootsOut = (node_x n + node_width n / 2 + 40)%Q))
  ∧ ((height twoRoots <= height twoRootsOut)%Q
     ∧ (∀ n, n ∈ nodes twoRootsOut →
             (node_y n + node_height n / 2 + 40 <= height twoRootsOut)%Q)
     ∧ (height twoRootsOut = height twoRoots
        ∨ ∃ n, n ∈ nodes twoRootsOut
               ∧ height twoRootsOut = (node_y n + node_height n / 2 + 40)%Q)).
Proof.
  apply (X4_canvas_is_the_maximum 3 twoRoots twoRootsOut).
  - vm_compute. discriminate.
  - vm_compute. reflexivity.
Defined.

(** ** The calls of a pass, once more *)

Lemma ofNat_S a : (ofNat (S a) == ofNat a + 1)%Q.
Proof. unfold ofNat, Qeq. simpl. lia. Qed.

(** A call made at a depth raises the row of every later call at that
    depth. *)
Lemma rowOf_lt tr k1 k2 n d :
  tr !! k1 = Some (n, d) → k1 < k2 → rowOf tr k1 d < rowOf tr k2 d.
Proof.
  intros Hk1 Hlt. unfold rowOf.
  apply list_elem_of_split_length in Hk1 as (l1 & l2 & -> & ->).
  rewrite take_app_length.
  rewrite take_app_ge by lia.
  replace (k2 - length l1) with (S (k2 - length l1 - 1)) by lia.
  rewrite firstn_cons, atDepth_app, length_app.
  assert (0 < length (atDepth d ((n, d) :: take (k2 - length l1 - 1) l2))); [|lia].
  unfold atDepth. rewrite filter_cons_True by done. simpl. lia.
Qed.

Section VisitsMore.
Variable jsxNodes : list GraphNode.
Variable pm : gmap string (option string).

(** The first call of a traversal is the only one at its depth. *)
Lemma visits_tail_deeper fuel n d tr :
  visits jsxNodes pm fuel n d = Some tr →
  ∃ rest, tr = (n, d) :: rest ∧ ∀ e, e ∈ rest → d < e.2.
Proof.
  destruct fuel as [|fuel]; [done|]. intros Hv.
  apply visits_S_inv in Hv as (ts & Hm & ->).
  exists (concat ts). split; [done|]. intros e He.
  destruct (mapM_concat_elem _ _ _ _ Hm He) as (c & trc & _ & Htrc & Hec).
  destruct (visits_entries _ _ _ _ _ _ _ Htrc Hec) as [->|[Hd _]]; simpl; lia.
Qed.

(** The children of the node of a call are called, one level below. *)
Lemma visits_children fuel n d tr v dv c :
  visits jsxNodes pm fuel n d = Some tr →
  (v, dv) ∈ tr → c ∈ childrenOf jsxNodes pm v → (c, dv + 1) ∈ tr.
Proof.
  revert n d tr. induction fuel as [|fuel IH]; intros n d tr Hv Hin Hc; [done|].
  apply visits_S_inv in Hv as (ts & Hm & ->).
  apply elem_of_cons in Hin as [[= -> ->]|Hin]; right.
  - destruct (mapM_concat_incl _ _ _ _ Hm Hc) as (trc & Htrc & Hsub).
    apply Hsub. by eapply visits_head.
  - destruct (mapM_concat_elem _ _ _ _ Hm Hin) as (c' & trc & Hc' & Htrc & Hec).
    destruct (mapM_concat_incl _ _ _ _ Hm Hc') as (trc' & Htrc' & Hsub).
    assert (trc' = trc) as -> by congruence.
    apply Hsub. by eapply IH.
Qed.

(** A call at depth [e.2] in a traversal started at depth [d] is made
    [e.2 - d] parent links below the node the traversal started at. *)
Lemma visits_hops fuel n d tr e :
  visits jsxNodes pm fuel n d = Some tr → e ∈ tr →
  d ≤ e.2 ∧ ancestor pm (e.2 - d) (node_id e.1) = Some (node_id n).
Proof.
  revert n d tr. induction fuel as [|fuel IH]; intros n d tr Hv He; [done|].
  apply visits_S_inv in Hv as (ts & Hm & ->).
  apply elem_of_cons in He as [->|He].
  { simpl. split; [lia|]. by rewrite Nat.sub_diag. }
  destruct (mapM_concat_elem _ _ _ _ Hm He) as (c & trc & Hc & Htrc & Hec).
  apply childrenOf_elem in Hc as [Hpc Hc].
  destruct (IH _ _ _ Htrc Hec) as [Hle Hanc]. split; [lia|].
  replace (e.2 - d) with (S (e.2 - (d + 1))) by lia.
  by rewrite ancestor_snoc, Hanc.
Qed.
End VisitsMore.

Section RootsMore.
Variable jsxNodes : list GraphNode.

Lemma traversal_children fuel tr v dv c :
  traversal fuel jsxNodes = Some tr →
  (v, dv) ∈ tr →
  c ∈ jsxNodes →
  mapGet (parentIdMapOf jsxNodes) (node_id c) = Some (node_id v) →
  (c, dv + 1) ∈ tr.
Proof.
  intros Htr Hin Hc Hpc. apply traversal_inv in Htr as (ts & Hm & ->).
  destruct (mapM_concat_elem _ _ _ _ Hm Hin) as (r & trr & Hr & Htrr & Her).
  destruct (mapM_concat_incl _ _ _ _ Hm Hr) as (trr' & Htrr' & Hsub).
  assert (trr' = trr) as -> by congruence.
  apply Hsub. eapply visits_children; [done|done|]. by apply childrenOf_elem.
Qed.

Lemma traversal_hops fuel tr e :
  traversal fuel jsxNodes = Some tr → e ∈ tr →
  ∃ r, r ∈ jsxNodes
       ∧ isRoot (parentIdMapOf jsxNodes) (nodeByIdOf jsxNodes) r
       ∧ ancestor (parentIdMapOf jsxNodes) e.2 (node_id e.1) = Some (node_id r).
Proof.
  intros Htr He. apply traversal_inv in Htr as (ts & Hm & ->).
  destruct (mapM_concat_elem _ _ _ _ Hm He) as (r & trr & Hr & Htrr & Her).
  apply rootJsxNodesOf_elem in Hr as [Hroot Hr].
  destruct (visits_hops _ _ _ _ _ _ _ Htrr Her) as [_ Hanc].
  rewrite Nat.sub_0_r in Hanc. by exists r.
Qed.

(** Whether a node is a root is decided by its identifier. *)
Lemma isRoot_same_id a b :
  node_id a = node_id b →
  isRoot (parentIdMapOf jsxNodes) (nodeByIdOf jsxNodes) a →
  isRoot (parentIdMapOf jsxNodes) (nodeByIdOf jsxNodes) b.
Proof. unfold isRoot. by intros ->. Qed.

(** Every jsx node that lies [k] parent links below a root is called at
    depth [k]. *)
Lemma traversal_below_root fuel tr k :
  traversal fuel jsxNodes = Some tr →
  ∀ m r,
    m ∈ jsxNodes → r ∈ jsxNodes →
    isRoot (parentIdMapOf jsxNodes) (nodeByIdOf jsxNodes) r →
    ancestor (parentIdMapOf jsxNodes) k (node_id m) = Some (node_id r) →
    (m, k) ∈ tr.
Proof.
  intros Htr. induction k as [|k IH]; intros m r Hm Hr Hroot Hanc.
  - simpl in Hanc. injection Hanc as Hid.
    eapply traversal_root; [done|done|]. by eapply isRoot_same_id.
  - simpl in Hanc.
    destruct (mapGet (parentIdMapOf jsxNodes) (node_id m)) as [p|] eqn:Hp; [|done].
    simpl in Hanc.
    assert (p ∈ node_id <$> jsxNodes) as Hpin.
    { destruct k as [|k'].
      - simpl in Hanc. injection Hanc as ->. by apply list_elem_of_fmap_2.
      - simpl in Hanc.
        destruct (mapGet (parentIdMapOf jsxNodes) p) as [q|] eqn:Hq; [|done].
        by eapply mapGet_Some_dom. }
    apply list_elem_of_fmap in Hpin as (v & -> & Hv).
    replace (S k) with (k + 1) by lia.
    eapply traversal_children; [done| |done|done].
    by apply (IH v r).
Qed.
End RootsMore.

(** ** The grid of the jsx tree *)

Lemma ofNat_lt a b : a < b → (ofNat a + 1 <= ofNat b)%Q.
Proof. unfold ofNat, Qle, Qplus. simpl. lia. Qed.

Section DepthsMore.
Variable jsxNodes : list GraphNode.
Hypothesis Hempty : EmptyString ∉ node_id <$> jsxNodes.

(** Nothing above a root is a jsx node. *)
Lemma root_top r j x :
  isRoot (parentIdMapOf jsxNodes) (nodeByIdOf jsxNodes) r →
  ancestor (parentIdMapOf jsxNodes) (S j) (node_id r) = Some x →
  x ∉ node_id <$> jsxNodes.
Proof.
  intros Hroot Hanc. simpl in Hanc.
  destruct (mapGet (parentIdMapOf jsxNodes) (node_id r)) as [q|] eqn:Hq; [|done].
  simpl in Hanc.
  pose proof (root_parent_outside _ _ _ Hempty Hroot Hq) as Hout.
  destruct j as [|j]; simpl in Hanc.
  - by injection Hanc as <-.
  - destruct (mapGet (parentIdMapOf jsxNodes) q) as [q'|] eqn:Hq'; [|done].
    exfalso. apply Hout. by eapply mapGet_Some_dom.
Qed.

Lemma traversal_depth_le fuel tr e1 e2 :
  traversal fuel jsxNodes = Some tr → e1 ∈ tr → e2 ∈ tr →
  node_id e1.1 = node_id e2.1 → e2.2 ≤ e1.2.
Proof.
  intros Htr He1 He2 Hid.
  destruct (traversal_hops _ _ _ _ Htr He1) as (r1 & Hr1 & Hroot1 & Ha1).
  destruct (traversal_hops _ _ _ _ Htr He2) as (r2 & Hr2 & Hroot2 & Ha2).
  destruct (decide (e2.2 ≤ e1.2)) as [|Hlt]; [done|]. exfalso.
  replace e2.2 with (e1.2 + S (e2.2 - e1.2 - 1)) in Ha2 by lia.
  rewrite ancestor_add, <- Hid, Ha1 in Ha2.
  apply (root_top _ _ _ Hroot1) in Ha2. apply Ha2.
  apply list_elem_of_fmap. by exists r2.
Qed.

(** All calls on an identifier are made at the same depth. *)
Lemma traversal_same_depth fuel tr e1 e2 :
  traversal fuel jsxNodes = Some tr → e1 ∈ tr → e2 ∈ tr →
  node_id e1.1 = node_id e2.1 → e1.2 = e2.2.
Proof.
  intros Htr He1 He2 Hid.
  pose proof (traversal_depth_le _ _ _ _ Htr He1 He2 Hid).
  pose proof (traversal_depth_le _ _ _ _ Htr He2 He1 (eq_sym Hid)). lia.
Qed.
End DepthsMore.

Lemma idsOf_onId i tr : i ∈ idsOf tr → onId i tr ≠ [].
Proof. intros Hin Hnil. by apply onId_nil_idsOf in Hnil. Qed.

(** The depth recorded for an identifier is the depth of a call on it. *)
Lemma replay_depth_Some tr i k :
  depthById (replay dfsVisit dfsInit tr) !! i = Some k →
  ∃ n, (n, k) ∈ tr ∧ node_id n = i.
Proof.
  intros Hk. destruct (decide (onId i tr = [])) as [Hnil|Hne].
  - by rewrite replay_depth_other in Hk.
  - destruct (onId_last_split _ _ Hne) as (tr1 & n & d & tr2 & -> & <- & Htr2).
    rewrite replay_depth_last in Hk by done. injection Hk as ->.
    exists n. split; [|done]. apply elem_of_app. right. left.
Qed.

(** X5.  Whenever the first pass returns on jsx nodes none of which has the
    empty string as identifier, the depth it records for a jsx node is the
    number of parent links that lead from the node up to a root: the entry
    of the node in [depthById] is [k] exactly when [k] parent links up from
    its identifier lies the identifier of a root. *)
Theorem X5_depth_counts_parent_links fuel jsxNodes st m k :
  EmptyString ∉ node_id <$> jsxNodes →
  depthPass fuel jsxNodes = Some st →
  m ∈ jsxNodes →
  depthById st !! node_id m = Some k
  ↔ ∃ r, r ∈ jsxNodes
         ∧ isRoot (parentIdMapOf jsxNodes) (nodeByIdOf jsxNodes) r
         ∧ ancestor (parentIdMapOf jsxNodes) k (node_id m) = Some (node_id r).
Proof.
  intros Hempty Hst Hm. rewrite depthPass_traversal in Hst.
  destruct (traversal fuel jsxNodes) as [tr|] eqn:Htr; [|done].
  injection Hst as <-. split.
  - intros Hk. apply replay_depth_Some in Hk as (n & Hn & Hid).
    destruct (traversal_hops _ _ _ _ Htr Hn) as (r & Hr & Hroot & Hanc).
    exists r. simpl in Hanc. by rewrite <- Hid.
  - intros (r & Hr & Hroot & Hanc).
    pose proof (traversal_below_root _ _ _ _ Htr _ _ Hm Hr Hroot Hanc) as Hin.
    assert (onId (node_id m) tr ≠ []) as Hne.
    { intros Hnil. by apply (proj1 (onId_nil_iff _ _) Hnil _ Hin). }
    destruct (onId_last_split _ _ Hne) as (tr1 & n & d & tr2 & -> & Hid & Htr2).
    rewrite <- Hid. rewrite <- Hid in Htr2. rewrite replay_depth_last by done.
    f_equal.
    apply (traversal_same_depth _ Hempty _ _ (n, d) (m, k) Htr); [|done|done].
    apply elem_of_app. right. left.
Qed.

Lemma X5_depth_counts_parent_links_witness :
  depthById (default dfsInit (depthPass 3 (jsxNodesOf (nodes twoRoots))))
    !! node_id (mkNode "span" KindJsx 720 160 (Some "button")) = Some 2
  ↔ ∃ r, r ∈ jsxNodesOf (nodes twoRoots)
         ∧ isRoot (parentIdMapOf (jsxNodesOf (nodes twoRoots)))
                  (nodeByIdOf (jsxNodesOf (nodes twoRoots))) r
         ∧ ancestor (parentIdMapOf (jsxNodesOf (nodes twoRoots))) 2
             (node_id (mkNode "span" KindJsx 720 160 (Some "button")))
           = Some (node_id r).
Proof.
  apply (X5_depth_counts_parent_links 3).
  - apply (bool_decide_unpack _). vm_compute. exact I.
  - vm_compute. reflexivity.
  - by apply (list_elem_of_lookup_2 _ 2).
Defined.

(** X6.  Whenever the transformer returns, two nodes of the result that
    the traversal visited under different identifiers never share a place:
    their [x] differ by at least 160, or they have the same [x] and their
    [y] differ by at least 40. *)
Theorem X6_visited_nodes_are_apart fuel layout layout' tr j1 j2 m1 m2 :
  applyJsxTreeLayout fuel layout = Some layout' →
  traversal fuel (jsxNodesOf (nodes layout)) = Some tr →
  nodes layout' !! j1 = Some m1 →
  nodes layout' !! j2 = Some m2 →
  node_id m1 ∈ idsOf tr →
  node_id m2 ∈ idsOf tr →
  node_id m1 ≠ node_id m2 →
  (node_x m1 + 160 <= node_x m2)%Q
  ∨ (node_x m2 + 160 <= node_x m1)%Q
  ∨ ((node_x m1 == node_x m2)%Q
     ∧ ((node_y m1 + 40 <= node_y m2)%Q ∨ (node_y m2 + 40 <= node_y m1)%Q)).
Proof.
  intros Happ Htr Hm1 Hm2 Hv1 Hv2 Hne.
  assert (jsxNodesOf (nodes layout) ≠ []) as Hjsx.
  { intros Hnil. rewrite Hnil in Htr. injection Htr as <-.
    by apply not_elem_of_nil in Hv1. }
  destruct (moved_node_coordinates _ _ _ Hjsx Happ) as (tr' & st & Htr' & _ & _ & Hxy).
  assert (tr' = tr) as -> by congruence.
  apply idsOf_onId in Hv1, Hv2.
  destruct (Hxy _ _ Hm1 Hv1) as (k1 & n1 & d1 & Hk1 & Hn1 & _ & _ & Hx1 & Hy1).
  destruct (Hxy _ _ Hm2 Hv2) as (k2 & n2 & d2 & Hk2 & Hn2 & _ & _ & Hx2 & Hy2).
  rewrite Hx1, Hx2, Hy1, Hy2.
  destruct (lt_eq_lt_dec d1 d2) as [[Hd| <-]|Hd].
  - left. apply ofNat_lt in Hd. qarith.
  - right. right. split; [reflexivity|].
    destruct (lt_eq_lt_dec k1 k2) as [[Hk| <-]|Hk].
    + left. pose proof (rowOf_lt _ _ _ _ _ Hk1 Hk) as Hrow.
      apply ofNat_lt in Hrow. qarith.
    + congruence.
    + right. pose proof (rowOf_lt _ _ _ _ _ Hk2 Hk) as Hrow.
      apply ofNat_lt in Hrow. qarith.
  - right. left. apply ofNat_lt in Hd. qarith.
Qed.

Lemma X6_visited_nodes_are_apart_witness :
  let m1 := mkNode "div" KindJsx (1120 # 2) 80 None in
  let m2 := mkNode "footer" KindJsx (1120 # 2) 120 (Some "missing") in
  (node_x m1 + 160 <= node_x m2)%Q
  ∨ (node_x m2 + 160 <= node_x m1)%Q
  ∨ ((node_x m1 == node_x m2)%Q
     ∧ ((node_y m1 + 40 <= node_y m2)%Q ∨ (node_y m2 + 40 <= node_y m1)%Q)).
Proof.
  apply (X6_visited_nodes_are_apart 3 twoRoots twoRootsOut twoRootsCalls 1 4).
  - vm_compute. reflexivity.
  - vm_compute. reflexivity.
  - reflexivity.
  - reflexivity.
  - apply (bool_decide_unpack _). vm_compute. exact I.
  - apply (bool_decide_unpack _). vm_compute. exact I.
  - discriminate.
Defined.

(** A node of the result stands where a node of the input stood, with its
    identifier, kind and meta data. *)
Lemma result_node_origin fuel layout layout' j m :
  applyJsxTreeLayout fuel layout = Some layout' →
  nodes layout' !! j = Some m →
  ∃ n, nodes layout !! j = Some n
       ∧ node_id m = node_id n ∧ node_kind m = node_kind n
       ∧ node_meta m = node_meta n.
Proof.
  intros Happ Hm. destruct (decide (jsxNodesOf (nodes layout) = [])) as [Hnil|Hjsx].
  - rewrite applyJsxTreeLayout_passthrough in Happ by done. injection Happ as <-.
    by exists m.
  - destruct (applyJsxTreeLayout_inv _ _ _ Hjsx Happ)
      as (tr & st & ps & _ & _ & _ & _ & _ & ->).
    cbn [nodes] in Hm. apply list_lookup_fmap_Some in Hm as (n & -> & Hn).
    exists n. split_and!; [done|apply moveNode_id|apply moveNode_kind|apply moveNode_meta].
Qed.

(** X7.  On a layout whose jsx nodes have pairwise distinct, non-empty
    identifiers, whenever the transformer returns, a jsx node of the result
    that declares as its parent a node the traversal visited is visited
    itself and stands exactly one column, 160, to the right of that
    parent. *)
Theorem X7_child_is_one_column_right fuel layout layout' tr jc jp c p :
  NoDup (jsxIds layout) →
  EmptyString ∉ jsxIds layout →
  applyJsxTreeLayout fuel layout = Some layout' →
  traversal fuel (jsxNodesOf (nodes layout)) = Some tr →
  nodes layout' !! jc = Some c →
  nodes layout' !! jp = Some p →
  node_kind c = KindJsx →
  declaredParent c = Some (node_id p) →
  node_id p ∈ idsOf tr →
  node_id c ∈ idsOf tr ∧ (node_x c == node_x p + 160)%Q.
Proof.
  intros Hnd Hempty Happ Htr Hc Hp Hkind Hpar Hvp.
  assert (jsxNodesOf (nodes layout) ≠ []) as Hjsx.
  { intros Hnil. rewrite Hnil in Htr. injection Htr as <-.
    by apply not_elem_of_nil in Hvp. }
  destruct (moved_node_coordinates _ _ _ Hjsx Happ) as (tr' & st & Htr' & _ & _ & Hxy).
  assert (tr' = tr) as -> by congruence.
  destruct (Hxy _ _ Hp (idsOf_onId _ _ Hvp))
    as (kp & np & dp & Hkp & Hnp & _ & _ & Hxp & _).
  destruct (result_node_origin _ _ _ _ _ Happ Hc) as (c0 & Hc0 & Hid & Hk0 & Hmeta).
  assert (c0 ∈ jsxNodesOf (nodes layout)) as Hin.
  { apply jsxNodesOf_elem. split; [congruence|]. by eapply list_elem_of_lookup_2. }
  assert (mapGet (parentIdMapOf (jsxNodesOf (nodes layout))) (node_id c0)
          = Some (node_id np)) as Hget.
  { rewrite mapGet_declaredParent by done.
    unfold declaredParent in *. by rewrite <- Hmeta, Hnp. }
  apply list_elem_of_lookup_2 in Hkp as Hinp.
  pose proof (traversal_children _ _ _ _ _ _ Htr Hinp Hin Hget) as Hinc.
  assert (node_id c ∈ idsOf tr) as Hvc.
  { apply elem_of_idsOf. by exists (c0, dp + 1). }
  split; [done|].
  destruct (Hxy _ _ Hc (idsOf_onId _ _ Hvc))
    as (kc & nc & dc & Hkc & Hnc & _ & _ & Hxc & _).
  apply list_elem_of_lookup_2 in Hkc.
  assert (dc = dp + 1) as ->.
  { apply (traversal_same_depth _ Hempty _ _ (nc, dc) (c0, dp + 1) Htr); [done|done|].
    simpl. congruence. }
  rewrite Hxc, Hxp. replace (dp + 1) with (S dp) by lia.
  pose proof (ofNat_S dp). qarith.
Qed.

Lemma X7_child_is_one_column_right_witness :
  let c := mkNode "span" KindJsx (1760 # 2) 80 (Some "button") in
  let p := mkNode "button" KindJsx (1440 # 2) 80 (Some "div") in
  node_id c ∈ idsOf twoRootsCalls ∧ (node_x c == node_x p + 160)%Q.
Proof.
  apply (X7_child_is_one_column_right 3 twoRoots twoRootsOut twoRootsCalls 3 2).
  - apply (bool_decide_unpack _). vm_compute. exact I.
  - apply (bool_decide_unpack _). vm_compute. exact I.
  - vm_compute. reflexivity.
  - vm_compute. reflexivity.
  - reflexivity.
  - reflexivity.
  - reflexivity.
  - reflexivity.
  - apply (bool_decide_unpack _). vm_compute. exact I.
Defined.

(** ** Rows *)

Lemma atDepth_nil d (tr : list Visit) : (∀ e, e ∈ tr → d < e.2) → atDepth d tr = [].
Proof.
  intros Hall. unfold atDepth. induction tr as [|e tr IH]; [done|].
  rewrite filter_cons. destruct (decide _) as [He|_].
  - pose proof (Hall e ltac:(left)). lia.
  - apply IH. intros e' He'. apply Hall. by right.
Qed.

Lemma NoDup_idsOf_split tr1 n d tr2 :
  NoDup (idsOf (tr1 ++ (n, d) :: tr2)) → onId (node_id n) tr2 = [].
Proof.
  intros Hnd. apply onId_nil_idsOf.
  rewrite idsOf_app in Hnd. apply NoDup_app in Hnd as (_ & _ & Hnd).
  unfold idsOf in Hnd. rewrite fmap_cons in Hnd.
  by apply NoDup_cons in Hnd as [? _].
Qed.

(** The call on the [k]-th root is the [k]-th call at depth 0. *)
Lemma roots_rows jsxNodes pm fuel (rs : list GraphNode) ts k r :
  mapM (λ root, visits jsxNodes pm fuel root 0) rs = Some ts →
  rs !! k = Some r →
  ∃ tr1 tr2, concat ts = tr1 ++ (r, 0) :: tr2 ∧ length (atDepth 0 tr1) = k.
Proof.
  intros Hm. apply mapM_Some in Hm. revert k.
  induction Hm as [|c t cs ts Hc _ IH]; intros k Hk; [done|].
  destruct (visits_tail_deeper _ _ _ _ _ _ Hc) as (rest & -> & Hdeep).
  destruct k as [|k].
  - injection Hk as ->. by exists [], (rest ++ concat ts).
  - simpl in Hk. destruct (IH _ Hk) as (tr1 & tr2 & Heq & Hlen).
    exists ((c, 0) :: rest ++ tr1), tr2. split.
    + simpl. rewrite Heq. by rewrite <- app_assoc.
    + change ((c, 0) :: rest ++ tr1) with ([(c, 0)] ++ rest ++ tr1).
      rewrite !atDepth_app, (atDepth_nil 0 rest) by done.
      rewrite !length_app, Hlen. done.
Qed.

(** X8.  On a layout whose jsx nodes have pairwise distinct, non-empty
    identifiers, whenever the transformer returns, the roots are stacked in
    the order of the input: the [k]-th root (counting from 0) stands at
    [y = 80 + 40 k], and every root at [x = colX.jsx - 80 D], where [D] is
    the largest recorded depth. *)
Theorem X8_roots_are_stacked fuel layout layout' k r :
  NoDup (jsxIds layout) →
  EmptyString ∉ jsxIds layout →
  applyJsxTreeLayout fuel layout = Some layout' →
  rootJsxNodesOf (jsxNodesOf (nodes layout))
    (parentIdMapOf (jsxNodesOf (nodes layout)))
    (nodeByIdOf (jsxNodesOf (nodes layout))) !! k = Some r →
  ∃ j m st,
    nodes layout !! j = Some r
    ∧ nodes layout' !! j = Some m
    ∧ node_id m = node_id r
    ∧ depthPass fuel (jsxNodesOf (nodes layout)) = Some st
    ∧ (node_x m == col_jsx (colX layout) - 80 * ofNat (maxDepthOf (depthById st)))%Q
    ∧ (node_y m == 80 + 40 * ofNat k)%Q.
Proof.
  intros Hnd Hempty Happ Hk.
  apply list_elem_of_lookup_2 in Hk as Hr.
  apply rootJsxNodesOf_elem in Hr as [Hroot Hr].
  assert (jsxNodesOf (nodes layout) ≠ []) as Hjsx.
  { intros Hnil. rewrite Hnil in Hr. by apply not_elem_of_nil in Hr. }
  destruct (applyJsxTreeLayout_inv _ _ _ Hjsx Happ)
    as (tr & st & ps & Htr & Hst & _ & _ & Hps & ->).
  pose proof (traversal_NoDup _ _ _ Hnd Hempty Htr) as Hndtr.
  apply traversal_inv in Htr as (ts & Hm & ->).
  destruct (roots_rows _ _ _ _ _ _ _ Hm Hk) as (tr1 & tr2 & Heq & Hlen).
  rewrite Heq in Hndtr, Hps. apply NoDup_idsOf_split in Hndtr.
  apply jsxNodesOf_elem in Hr as [_ Hr].
  destruct (list_elem_of_lookup_1 _ _ Hr) as [j Hj].
  exists j, (moveNode (newNodePositions ps) r), st. cbn [nodes colX].
  split_and!; [done| |apply moveNode_id|done| |].
  - by rewrite list_lookup_fmap, Hj.
  - rewrite (proj1 (moveNode_Some _ _ _
               (eq_trans (f_equal (λ s, newNodePositions s !! node_id r) Hps)
                         (replay_positions_last _ _ _ _ _ _ Hndtr)))).
    simpl. unfold depthGapX. change (ofNat 0) with 0%Q. qarith.
  - rewrite (proj2 (moveNode_Some _ _ _
               (eq_trans (f_equal (λ s, newNodePositions s !! node_id r) Hps)
                         (replay_positions_last _ _ _ _ _ _ Hndtr)))).
    simpl. rewrite Hlen. unfold baseY, rowGapY. qarith.
Qed.

Lemma X8_roots_are_stacked_witness :
  let r := mkNode "footer" KindJsx 720 200 (Some "missing") in
  ∃ j m st,
    nodes twoRoots !! j = Some r
    ∧ nodes twoRootsOut !! j = Some m
    ∧ node_id m = node_id r
    ∧ depthPass 3 (jsxNodesOf (nodes twoRoots)) = Some st
    ∧ (node_x m == col_jsx (colX twoRoots) - 80 * ofNat (maxDepthOf (depthById st)))%Q
    ∧ (node_y m == 80 + 40 * ofNat 1)%Q.
Proof.
  apply (X8_roots_are_stacked 3 twoRoots twoRootsOut 1).
  - apply (bool_decide_unpack _). vm_compute. exact I.
  - apply (bool_decide_unpack _). vm_compute. exact I.
  - vm_compute. reflexivity.
  - reflexivity.
Defined.

Lemma replay_rows_used baseX maxDepth tr st ps :
  usedRowsPerDepth ps = rowIndexByDepth st →
  usedRowsPerDepth (replay (posVisit baseX maxDepth) ps tr)
  = rowIndexByDepth (replay dfsVisit st tr).
Proof.
  revert st ps. induction tr as [|[n d] tr IH]; intros st ps Heq; [done|].
  unfold replay in *. simpl. apply IH. simpl. by rewrite Heq.
Qed.

(** X9.  Whenever both passes return, the row counters of the first pass,
    which nothing reads afterwards, equal those of the second pass, which
    give the nodes their rows: at every depth both hold the number of calls
    made at that depth. *)
Theorem X9_row_counters_agree fuel jsxNodes baseX maxDepth st ps :
  depthPass fuel jsxNodes = Some st →
  positionPass fuel jsxNodes baseX maxDepth = Some ps →
  usedRowsPerDepth ps = rowIndexByDepth st
  ∧ ∃ tr, traversal fuel jsxNodes = Some tr
          ∧ ∀ d, default 0 (rowIndexByDepth st !! d) = length (atDepth d tr).
Proof.
  rewrite depthPass_traversal, positionPass_traversal.
  destruct (traversal fuel jsxNodes) as [tr|]; [|done].
  intros [= <-] [= <-]. split.
  - by apply replay_rows_used.
  - exists tr. split; [done|]. intros d. by rewrite replay_rows.
Qed.

Lemma X9_row_counters_agree_witness :
  let st := default dfsInit (depthPass 3 (jsxNodesOf (nodes twoRoots))) in
  let ps := default posInit (positionPass 3 (jsxNodesOf (nodes twoRoots)) 720 2) in
  usedRowsPerDepth ps = rowIndexByDepth st
  ∧ ∃ tr, traversal 3 (jsxNodesOf (nodes twoRoots)) = Some tr
          ∧ ∀ d, default 0 (rowIndexByDepth st !! d) = length (atDepth d tr).
Proof.
  apply (X9_row_counters_agree 3 (jsxNodesOf (nodes twoRoots)) 720 2).
  - vm_compute. reflexivity.
  - vm_compute. reflexivity.
Defined.

(** ** The order of siblings *)

Lemma before_app_l {A : Type} (a b : A) l0 l : before a b l → before a b (l0 ++ l).
Proof.
  intros (l1 & l2 & l3 & ->). exists (l0 ++ l1), l2, l3. by rewrite <- app_assoc.
Qed.

Lemma before_app_r {A : Type} (a b : A) l l0 : before a b l → before a b (l ++ l0).
Proof.
  intros (l1 & l2 & l3 & ->). exists l1, l2, (l3 ++ l0).
  rewrite <- app_assoc. simpl. rewrite <- app_assoc. done.
Qed.

Lemma before_filter {A : Type} (P : A → Prop) `{∀ x, Decision (P x)} (a b : A) l :
  P a → P b → before a b l → before a b (filter P l).
Proof.
  intros Ha Hb (l1 & l2 & l3 & ->).
  exists (filter P l1), (filter P l2), (filter P l3).
  rewrite filter_app, filter_cons_True, filter_app, filter_cons_True by done. done.
Qed.

Lemma before_lookup {A : Type} (a b : A) l :
  before a b l ↔ ∃ i j, i < j ∧ l !! i = Some a ∧ l !! j = Some b.
Proof.
  split.
  - intros (l1 & l2 & l3 & ->).
    exists (length l1), (length l1 + S (length l2)). split_and!; [lia| |].
    + by apply list_lookup_middle.
    + rewrite lookup_app_r by lia.
      replace (length l1 + S (length l2) - length l1) with (S (length l2)) by lia.
      simpl. by apply list_lookup_middle.
  - intros (i & j & Hij & Hi & Hj).
    apply list_elem_of_split_length in Hi as (l1 & l' & -> & ->).
    rewrite lookup_app_r in Hj by lia.
    replace (j - length l1) with (S (j - length l1 - 1)) in Hj by lia. simpl in Hj.
    apply list_elem_of_split_length in Hj as (l2 & l3 & -> & _).
    by exists l1, l2, l3.
Qed.

Lemma before_in_concat {A : Type} (a b : A) t ts :
  t ∈ ts → before a b t → before a b (concat ts).
Proof.
  intros Hin Hab. apply list_elem_of_split in Hin as (ts1 & ts2 & ->).
  rewrite concat_app. simpl. by apply before_app_l, before_app_r.
Qed.

Section Order.
Context {A : Type}.
Variable t : A → option (list Visit).

Lemma mapM_elem_traces cs ts c :
  mapM t cs = Some ts → c ∈ cs → ∃ tr, t c = Some tr ∧ tr ∈ ts.
Proof.
  intros Hm. apply mapM_Some in Hm.
  induction Hm as [|c' tr cs ts Hc _ IH]; intros Hin.
  - by apply not_elem_of_nil in Hin.
  - apply elem_of_cons in Hin as [->|Hin].
    + exists tr. split; [done|left].
    + destruct (IH Hin) as (tr' & ? & ?). exists tr'. split; [done|by right].
Qed.

(** The first calls of two traversals are made in the order of the nodes
    the traversals start at. *)
Lemma before_concat cs ts c1 c2 e1 e2 r1 r2 :
  mapM t cs = Some ts →
  before c1 c2 cs →
  t c1 = Some (e1 :: r1) →
  t c2 = Some (e2 :: r2) →
  before e1 e2 (concat ts).
Proof.
  intros Hm (l1 & l2 & l3 & ->) H1 H2. apply mapM_Some in Hm.
  apply Forall2_app_inv_l in Hm as (ts1 & ts' & _ & Hm & ->).
  apply Forall2_cons_inv_l in Hm as (t1 & ts'' & Ht1 & Hm & ->).
  apply Forall2_app_inv_l in Hm as (ts2 & ts' & _ & Hm & ->).
  apply Forall2_cons_inv_l in Hm as (t2 & ts3 & Ht2 & _ & ->).
  assert (t1 = e1 :: r1) as -> by congruence.
  assert (t2 = e2 :: r2) as -> by congruence.
  exists (concat ts1), (r1 ++ concat ts2), (r2 ++ concat ts3).
  rewrite concat_app. simpl. rewrite concat_app. simpl.
  by rewrite <- !app_assoc.
Qed.
End Order.

Section Siblings.
Variable jsxNodes : list GraphNode.
Variable pm : gmap string (option string).

(** The children of a node are called in the order of [jsxNodes]. *)
Lemma visits_siblings fuel n d tr p dp c1 c2 :
  visits jsxNodes pm fuel n d = Some tr →
  (p, dp) ∈ tr →
  before c1 c2 (childrenOf jsxNodes pm p) →
  before (c1, dp + 1) (c2, dp + 1) tr.
Proof.
  revert n d tr. induction fuel as [|fuel IH]; intros n d tr Hv Hin Hc; [done|].
  apply visits_S_inv in Hv as (ts & Hm & ->).
  apply (before_app_l _ _ [(n, d)]).
  apply elem_of_cons in Hin as [[= -> ->]|Hin].
  - assert (c1 ∈ childrenOf jsxNodes pm n ∧ c2 ∈ childrenOf jsxNodes pm n) as [Hc1 Hc2].
    { destruct Hc as (l1 & l2 & l3 & ->). split.
      - apply elem_of_app. right. left.
      - apply elem_of_app. right. right. apply elem_of_app. right. left. }
    destruct (mapM_elem_traces _ _ _ _ Hm Hc1) as (t1 & Ht1 & _).
    destruct (mapM_elem_traces _ _ _ _ Hm Hc2) as (t2 & Ht2 & _).
    destruct (visits_tail_deeper _ _ _ _ _ _ Ht1) as (r1 & -> & _).
    destruct (visits_tail_deeper _ _ _ _ _ _ Ht2) as (r2 & -> & _).
    by eapply (before_concat _ _ _ _ _ _ _ _ _ Hm Hc).
  - destruct (mapM_concat_elem _ _ _ _ Hm Hin) as (c & trc & Hcin & Htrc & Hec).
    destruct (mapM_elem_traces _ _ _ _ Hm Hcin) as (trc' & Htrc' & Hts).
    assert (trc' = trc) as -> by congruence.
    eapply before_in_concat; [done|]. by eapply IH.
Qed.
End Siblings.

Lemma traversal_siblings jsxNodes fuel tr p dp c1 c2 :
  traversal fuel jsxNodes = Some tr →
  (p, dp) ∈ tr →
  before c1 c2 (childrenOf jsxNodes (parentIdMapOf jsxNodes) p) →
  before (c1, dp + 1) (c2, dp + 1) tr.
Proof.
  intros Htr Hin Hc. apply traversal_inv in Htr as (ts & Hm & ->).
  destruct (mapM_concat_elem _ _ _ _ Hm Hin) as (r & trr & Hr & Htrr & Her).
  destruct (mapM_elem_traces _ _ _ _ Hm Hr) as (trr' & Htrr' & Hts).
  assert (trr' = trr) as -> by congruence.
  eapply before_in_concat; [done|]. by eapply visits_siblings.
Qed.

Lemma NoDup_idsOf_index tr k1 k2 e1 e2 :
  NoDup (idsOf tr) → tr !! k1 = Some e1 → tr !! k2 = Some e2 →
  node_id e1.1 = node_id e2.1 → k1 = k2.
Proof.
  intros Hnd H1 H2 Hid.
  eapply NoDup_lookup; [exact Hnd| |]; unfold idsOf; rewrite list_lookup_fmap.
  - by rewrite H1.
  - rewrite H2. simpl. by rewrite Hid.
Qed.

(** X10.  On a layout whose jsx nodes have pairwise distinct, non-empty
    identifiers, whenever the transformer returns, two jsx nodes that declare
    the same visited parent stand in one column, in the order of the input:
    the one that comes later in [nodes] stands at least one row, 40,
    lower. *)
Theorem X10_siblings_keep_their_order fuel layout layout' tr j1 j2 c1 c2 pid :
  NoDup (jsxIds layout) →
  EmptyString ∉ jsxIds layout →
  applyJsxTreeLayout fuel layout = Some layout' →
  traversal fuel (jsxNodesOf (nodes layout)) = Some tr →
  j1 < j2 →
  nodes layout' !! j1 = Some c1 →
  nodes layout' !! j2 = Some c2 →
  node_kind c1 = KindJsx →
  node_kind c2 = KindJsx →
  declaredParent c1 = Some pid →
  declaredParent c2 = Some pid →
  pid ∈ idsOf tr →
  (node_x c1 == node_x c2)%Q ∧ (node_y c1 + 40 <= node_y c2)%Q.
Proof.
  intros Hnd Hempty Happ Htr Hlt Hc1 Hc2 Hk1 Hk2 Hp1 Hp2 Hvp.
  assert (jsxNodesOf (nodes layout) ≠ []) as Hjsx.
  { intros Hnil. rewrite Hnil in Htr. injection Htr as <-.
    by apply not_elem_of_nil in Hvp. }
  destruct (moved_node_coordinates _ _ _ Hjsx Happ) as (tr' & st & Htr' & _ & _ & Hxy).
  assert (tr' = tr) as -> by congruence.
  pose proof (traversal_NoDup _ _ _ Hnd Hempty Htr) as Hndtr.
  apply elem_of_idsOf in Hvp as ([v dv] & Hv & Hvid). simpl in Hvid.
  destruct (result_node_origin _ _ _ _ _ Happ Hc1) as (a & Ha & Hida & Hka & Hma).
  destruct (result_node_origin _ _ _ _ _ Happ Hc2) as (b & Hb & Hidb & Hkb & Hmb).
  assert (a ∈ jsxNodesOf (nodes layout)) as Hina.
  { apply jsxNodesOf_elem. split; [congruence|]. by eapply list_elem_of_lookup_2. }
  assert (b ∈ jsxNodesOf (nodes layout)) as Hinb.
  { apply jsxNodesOf_elem. split; [congruence|]. by eapply list_elem_of_lookup_2. }
  assert (mapGet (parentIdMapOf (jsxNodesOf (nodes layout))) (node_id a)
          = Some (node_id v)) as Hga.
  { rewrite mapGet_declaredParent by done.
    unfold declaredParent in *. by rewrite <- Hma, Hvid. }
  assert (mapGet (parentIdMapOf (jsxNodesOf (nodes layout))) (node_id b)
          = Some (node_id v)) as Hgb.
  { rewrite mapGet_declaredParent by done.
    unfold declaredParent in *. by rewrite <- Hmb, Hvid. }
  assert (before a b (nodes layout)) as Hab.
  { apply before_lookup. by exists j1, j2. }
  apply (before_filter (λ n, node_kind n = KindJsx)) in Hab; [|congruence|congruence].
  apply (before_filter (λ child, mapGet (parentIdMapOf (jsxNodesOf (nodes layout)))
                                   (node_id child) = Some (node_id v))) in Hab;
    [|done|done].
  pose proof (traversal_siblings _ _ _ _ _ _ _ Htr Hv Hab) as Hcalls.
  apply before_lookup in Hcalls as (i1 & i2 & Hi & Hi1 & Hi2).
  destruct (Hxy _ _ Hc1) as (k1 & n1 & d1 & Hn1 & Hid1 & _ & _ & Hx1 & Hy1).
  { apply idsOf_onId, elem_of_idsOf. exists (a, dv + 1).
    split; [by eapply list_elem_of_lookup_2|done]. }
  destruct (Hxy _ _ Hc2) as (k2 & n2 & d2 & Hn2 & Hid2 & _ & _ & Hx2 & Hy2).
  { apply idsOf_onId, elem_of_idsOf. exists (b, dv + 1).
    split; [by eapply list_elem_of_lookup_2|done]. }
  assert (k1 = i1) as ->.
  { eapply NoDup_idsOf_index; [done|done|done|]. simpl. congruence. }
  assert (k2 = i2) as ->.
  { eapply NoDup_idsOf_index; [done|done|done|]. simpl. congruence. }
  assert (d1 = dv + 1) as -> by congruence.
  assert (d2 = dv + 1) as -> by congruence.
  rewrite Hx1, Hx2, Hy1, Hy2. split; [reflexivity|].
  pose proof (rowOf_lt _ _ _ _ _ Hi1 Hi) as Hrow.
  apply ofNat_lt in Hrow. qarith.
Qed.

Lemma X10_siblings_keep_their_order_witness :
  let c1 := mkNode "first" KindJsx (1600 # 2) 80 (Some "ul") in
  let c2 := mkNode "second" KindJsx (1600 # 2) 120 (Some "ul") in
  (node_x c1 == node_x c2)%Q ∧ (node_y c1 + 40 <= node_y c2)%Q.
Proof.
  apply (X10_siblings_keep_their_order 2 siblings siblingsOut siblingsCalls 1 3 _ _ "ul").
  - apply (bool_decide_unpack _). vm_compute. exact I.
  - apply (bool_decide_unpack _). vm_compute. exact I.
  - vm_compute. reflexivity.
  - vm_compute. reflexivity.
  - lia.
  - reflexivity.
  - reflexivity.
  - reflexivity.
  - reflexivity.
  - reflexivity.
  - reflexivity.
  - apply (bool_decide_unpack _). vm_compute. exact I.
Defined.

(** ** The width of the tree *)

Lemma ofNat_le a b : a ≤ b → (ofNat a <= ofNat b)%Q.
Proof. unfold ofNat, Qle. simpl. lia. Qed.

(** The node of the result at the index of a node of the input carries its
    identifier. *)
Lemma result_node_at fuel layout layout' j n :
  applyJsxTreeLayout fuel layout = Some layout' →
  nodes layout !! j = Some n →
  ∃ m, nodes layout' !! j = Some m ∧ node_id m = node_id n.
Proof.
  intros Happ Hn. pose proof (applyJsxTreeLayout_ids _ _ _ Happ) as Hids.
  assert ((node_id <$> nodes layout') !! j = Some (node_id n)) as Hj
    by (by rewrite Hids, list_lookup_fmap, Hn).
  apply list_lookup_fmap_Some in Hj as (m & Hid & Hm). by exists m.
Qed.

(** X11.  On a layout none of whose jsx nodes has the empty string as
    identifier, whenever the transformer returns after at least one call of
    the traversal, the visited nodes are spread evenly around the anchor of
    the jsx column: with [D] the largest recorded depth, every visited node
    of the result has its [x] between [colX.jsx - 80 D] and
    [colX.jsx + 80 D], and both bounds are taken, the lower one by a node
    of depth 0. *)
Theorem X11_tree_is_centred_on_the_column fuel layout layout' tr :
  EmptyString ∉ jsxIds layout →
  applyJsxTreeLayout fuel layout = Some layout' →
  traversal fuel (jsxNodesOf (nodes layout)) = Some tr →
  tr ≠ [] →
  ∃ st,
    depthPass fuel (jsxNodesOf (nodes layout)) = Some st
    ∧ (∀ j m, nodes layout' !! j = Some m → node_id m ∈ idsOf tr →
         (col_jsx (colX layout) - 80 * ofNat (maxDepthOf (depthById st)) <= node_x m)%Q
         ∧ (node_x m <= col_jsx (colX layout) + 80 * ofNat (maxDepthOf (depthById st)))%Q)
    ∧ (∃ m, m ∈ nodes layout' ∧ depthById st !! node_id m = Some 0
            ∧ (node_x m == col_jsx (colX layout)
                           - 80 * ofNat (maxDepthOf (depthById st)))%Q)
    ∧ (∃ m, m ∈ nodes layout' ∧ node_id m ∈ idsOf tr
            ∧ (node_x m == col_jsx (colX layout)
                           + 80 * ofNat (maxDepthOf (depthById st)))%Q).
Proof.
  intros Hempty Happ Htr Hne.
  assert (jsxNodesOf (nodes layout) ≠ []) as Hjsx.
  { intros Hnil. rewrite Hnil in Htr. by injection Htr as <-. }
  destruct (moved_node_coordinates _ _ _ Hjsx Happ)
    as (tr' & st & Htr' & Hst & Hmax & Hxy).
  assert (tr' = tr) as -> by congruence.
  assert (st = replay dfsVisit dfsInit tr) as Hreplay.
  { rewrite depthPass_traversal, Htr in Hst. by injection Hst as <-. }
  (* every call on an identifier is made at the recorded depth *)
  assert (∀ n d, (n, d) ∈ tr →
            ∃ m, m ∈ nodes layout' ∧ node_id m = node_id n
                 ∧ depthById st !! node_id m = Some d
                 ∧ node_x m = (col_jsx (colX layout)
                               - (ofNat (maxDepthOf (depthById st)) * 160) / 2
                               + ofNat d * 160)%Q) as Hcall.
  { intros n d Hin.
    destruct (traversal_entries _ _ _ _ Htr Hin) as [Hn _]. simpl in Hn.
    apply jsxNodesOf_elem in Hn as [_ Hn].
    destruct (list_elem_of_lookup_1 _ _ Hn) as [j Hj].
    destruct (result_node_at _ _ _ _ _ Happ Hj) as (m & Hm & Hid).
    destruct (Hxy _ _ Hm) as (k & n' & d' & Hk & Hid' & _ & Hd' & Hx & _).
    { apply idsOf_onId, elem_of_idsOf. by exists (n, d). }
    apply list_elem_of_lookup_2 in Hk.
    assert (d' = d) as ->.
    { apply (traversal_same_depth _ Hempty _ _ (n', d') (n, d) Htr); [done|done|].
      simpl. congruence. }
    exists m. split_and!; [by eapply list_elem_of_lookup_2|done|done|done]. }
  exists st. split_and!; [done| | |].
  - intros j m Hm Hv.
    destruct (Hxy _ _ Hm (idsOf_onId _ _ Hv)) as (k & n & d & _ & _ & _ & Hd & Hx & _).
    apply Hmax, ofNat_le in Hd. pose proof (ofNat_nonneg d). rewrite Hx.
    split; qarith.
  - destruct tr as [|e tr0] eqn:Heq; [done|]. rewrite <- Heq in *.
    assert (e ∈ tr) as He by (rewrite Heq; left).
    destruct (traversal_hops _ _ _ _ Htr He) as (r & Hr & Hroot & _).
    pose proof (traversal_root _ _ _ _ Htr Hr Hroot) as Hin.
    destruct (Hcall _ _ Hin) as (m & Hm & _ & Hd & Hx).
    exists m. split_and!; [done|done|]. rewrite Hx. change (ofNat 0) with 0%Q. qarith.
  - destruct (proj2 (maxDepthOf_spec (depthById st))) as [Hzero|[i Hi]].
    + destruct tr as [|e tr0] eqn:Heq; [done|]. rewrite <- Heq in *.
      assert (e ∈ tr) as He by (rewrite Heq; left).
      destruct (traversal_hops _ _ _ _ Htr He) as (r & Hr & Hroot & _).
      pose proof (traversal_root _ _ _ _ Htr Hr Hroot) as Hin.
      destruct (Hcall _ _ Hin) as (m & Hm & Hid & _ & Hx).
      exists m. split_and!; [done| |].
      * apply elem_of_idsOf. by exists (r, 0).
      * rewrite Hx, Hzero. change (ofNat 0) with 0%Q. qarith.
    + rewrite Hreplay in Hi. apply replay_depth_Some in Hi as (n & Hin & _).
      rewrite <- Hreplay in Hin.
      destruct (Hcall _ _ Hin) as (m & Hm & Hid & _ & Hx).
      exists m. split_and!; [done| |].
      * apply elem_of_idsOf. by exists (n, maxDepthOf (depthById st)).
      * rewrite Hx. qarith.
Qed.

Lemma X11_tree_is_centred_on_the_column_witness :
  ∃ st,
    depthPass 3 (jsxNodesOf (nodes twoRoots)) = Some st
    ∧ (∀ j m, nodes twoRootsOut !! j = Some m → node_id m ∈ idsOf twoRootsCalls →
         (col_jsx (colX twoRoots) - 80 * ofNat (maxDepthOf (depthById st)) <= node_x m)%Q
         ∧ (node_x m <= col_jsx (colX twoRoots) + 80 * ofNat (maxDepthOf (depthById st)))%Q)
    ∧ (∃ m, m ∈ nodes twoRootsOut ∧ depthById st !! node_id m = Some 0
            ∧ (node_x m == col_jsx (colX twoRoots)
                           - 80 * ofNat (maxDepthOf (depthById st)))%Q)
    ∧ (∃ m, m ∈ nodes twoRootsOut ∧ node_id m ∈ idsOf twoRootsCalls
            ∧ (node_x m == col_jsx (colX twoRoots)
                           + 80 * ofNat (maxDepthOf (depthById st)))%Q).
Proof.
  apply (X11_tree_is_centred_on_the_column 3 twoRoots twoRootsOut twoRootsCalls).
  - apply (bool_decide_unpack _). vm_compute. exact I.
  - vm_compute. reflexivity.
  - vm_compute. reflexivity.
  - discriminate.
Defined.

(** ** Rows without gaps *)

Lemma filter_lookup_index {A : Type} (P : A → Prop) `{∀ x, Decision (P x)} (l : list A) r e :
  filter P l !! r = Some e →
  ∃ k, l !! k = Some e ∧ length (filter P (take k l)) = r.
Proof.
  revert r. induction l as [|x l IH]; intros r Hr; [done|].
  rewrite filter_cons in Hr. destruct (decide (P x)) as [Hx|Hx].
  - destruct r as [|r].
    + injection Hr as <-. by exists 0.
    + simpl in Hr. destruct (IH _ Hr) as (k & Hk & Hlen).
      exists (S k). split; [done|]. rewrite firstn_cons, filter_cons_True by done.
      simpl. by rewrite Hlen.
  - destruct (IH _ Hr) as (k & Hk & Hlen).
    exists (S k). split; [done|]. by rewrite firstn_cons, filter_cons_False.
Qed.

(** Every row below the row of a call is the row of an earlier call at the
    same depth. *)
Lemma rowOf_earlier tr k d r :
  r < rowOf tr k d →
  ∃ k' n, k' < k ∧ tr !! k' = Some (n, d) ∧ rowOf tr k' d = r.
Proof.
  unfold rowOf. intros Hr.
  destruct (lookup_lt_is_Some_2 _ _ Hr) as [[n d'] He].
  assert (d' = d) as ->.
  { apply list_elem_of_lookup_2 in He. unfold atDepth in He.
    by apply list_elem_of_filter in He as [? _]. }
  apply filter_lookup_index in He as (k' & Hk' & Hlen).
  apply lookup_take_Some in Hk' as [Hk' Hlt].
  exists k', n. split_and!; [done|done|].
  rewrite take_take in Hlen. by replace (k' `min` k) with k' in Hlen by lia.
Qed.

(** X12.  On a layout whose jsx nodes have pairwise distinct, non-empty
    identifiers, whenever the transformer returns, the columns of the tree
    are filled from the top without gaps: above a visited node of the
    result, every row from [y = 80] on, 40 apart, holds a visited node of
    the same column. *)
Theorem X12_rows_have_no_gaps fuel layout layout' tr j m r :
  NoDup (jsxIds layout) →
  EmptyString ∉ jsxIds layout →
  applyJsxTreeLayout fuel layout = Some layout' →
  traversal fuel (jsxNodesOf (nodes layout)) = Some tr →
  nodes layout' !! j = Some m →
  node_id m ∈ idsOf tr →
  (80 + 40 * ofNat r < node_y m)%Q →
  ∃ m', m' ∈ nodes layout'
        ∧ node_id m' ∈ idsOf tr
        ∧ (node_x m' == node_x m)%Q
        ∧ (node_y m' == 80 + 40 * ofNat r)%Q.
Proof.
  intros Hnd Hempty Happ Htr Hm Hv Hy.
  assert (jsxNodesOf (nodes layout) ≠ []) as Hjsx.
  { intros Hnil. rewrite Hnil in Htr. injection Htr as <-.
    by apply not_elem_of_nil in Hv. }
  destruct (moved_node_coordinates _ _ _ Hjsx Happ) as (tr' & st & Htr' & _ & _ & Hxy).
  assert (tr' = tr) as -> by congruence.
  pose proof (traversal_NoDup _ _ _ Hnd Hempty Htr) as Hndtr.
  destruct (Hxy _ _ Hm (idsOf_onId _ _ Hv)) as (k & n & d & Hk & Hid & _ & _ & Hx & Hrow).
  assert (r < rowOf tr k d) as Hr.
  { destruct (decide (r < rowOf tr k d)) as [|Hge]; [done|]. exfalso.
    assert (rowOf tr k d ≤ r) as Hle by lia. apply ofNat_le in Hle.
    rewrite Hrow in Hy. qarith. }
  destruct (rowOf_earlier _ _ _ _ Hr) as (k' & n' & _ & Hk' & Hrow').
  apply list_elem_of_lookup_2 in Hk' as Hin'.
  destruct (traversal_entries _ _ _ _ Htr Hin') as [Hn' _]. simpl in Hn'.
  apply jsxNodesOf_elem in Hn' as [_ Hn'].
  destruct (list_elem_of_lookup_1 _ _ Hn') as [j' Hj'].
  destruct (result_node_at _ _ _ _ _ Happ Hj') as (m' & Hm' & Hid').
  assert (node_id m' ∈ idsOf tr) as Hv'.
  { apply elem_of_idsOf. by exists (n', d). }
  destruct (Hxy _ _ Hm' (idsOf_onId _ _ Hv'))
    as (k'' & n'' & d'' & Hk'' & Hid'' & _ & _ & Hx' & Hy').
  assert (k'' = k') as ->.
  { eapply NoDup_idsOf_index; [done|done|done|]. simpl. congruence. }
  assert (d'' = d) as -> by congruence.
  exists m'. split_and!; [by eapply list_elem_of_lookup_2|done| |].
  - by rewrite Hx, Hx'.
  - rewrite Hy', Hrow'. qarith.
Qed.

Lemma X12_rows_have_no_gaps_witness :
  let m := mkNode "footer" KindJsx (1120 # 2) 120 (Some "missing") in
  ∃ m', m' ∈ nodes twoRootsOut
        ∧ node_id m' ∈ idsOf twoRootsCalls
        ∧ (node_x m' == node_x m)%Q
        ∧ (node_y m' == 80 + 40 * ofNat 0)%Q.
Proof.
  apply (X12_rows_have_no_gaps 3 twoRoots twoRootsOut twoRootsCalls 4).
  - apply (bool_decide_unpack _). vm_compute. exact I.
  - apply (bool_decide_unpack _). vm_compute. exact I.
  - vm_compute. reflexivity.
  - vm_compute. reflexivity.
  - reflexivity.
  - apply (bool_decide_unpack _). vm_compute. exact I.
  - vm_compute. reflexivity.
Defined.

(** ** The shape of the curve *)

(** The three pieces of the clamp. *)
Lemma curveOffset_cases dy :
  ((dy * (3 # 10) <= -80)%Q ∧ (curveOffset dy == -80)%Q)
  ∨ ((-80 <= dy * (3 # 10))%Q ∧ (dy * (3 # 10) <= 80)%Q
     ∧ (curveOffset dy == dy * (3 # 10))%Q)
  ∨ ((80 <= dy * (3 # 10))%Q ∧ (curveOffset dy == 80)%Q).
Proof.
  unfold curveOffset.
  destruct (Q.min_spec (dy * (3 # 10)) 80) as [[? Hmin]|[? Hmin]];
    destruct (Q.max_spec (Qmin (dy * (3 # 10)) 80) (-80)) as [[? Hmax]|[? Hmax]].
  - left. split; lra.
  - right. left. split_and!; lra.
  - lra.
  - right. right. split; lra.
Qed.

(** X13.  The control points of the curve [buildCurvePath] draws lie
    inside the box spanned by its two endpoints: both have the [x] halfway
    between the endpoints, and each has its [y] between the [y] of the
    endpoints, at most 80 away from the endpoint it belongs to. *)
Theorem X13_control_points_inside_the_box x1 y1 x2 y2 :
  let p := curvePoints x1 y1 x2 y2 in
  cp_c1x p = cp_c2x p
  ∧ (Qmin x1 x2 <= cp_c1x p)%Q ∧ (cp_c1x p <= Qmax x1 x2)%Q
  ∧ (Qmin y1 y2 <= cp_c1y p)%Q ∧ (cp_c1y p <= Qmax y1 y2)%Q
  ∧ (Qmin y1 y2 <= cp_c2y p)%Q ∧ (cp_c2y p <= Qmax y1 y2)%Q
  ∧ (-80 <= cp_c1y p - y1)%Q ∧ (cp_c1y p - y1 <= 80)%Q
  ∧ (-80 <= y2 - cp_c2y p)%Q ∧ (y2 - cp_c2y p <= 80)%Q.
Proof.
  simpl.
  pose proof (curveOffset_cases (y2 - y1)) as Hoff.
  destruct (Q.min_spec x1 x2) as [[? Hminx]|[? Hminx]];
    destruct (Q.max_spec x1 x2) as [[? Hmaxx]|[? Hmaxx]];
    destruct (Q.min_spec y1 y2) as [[? Hminy]|[? Hminy]];
    destruct (Q.max_spec y1 y2) as [[? Hmaxy]|[? Hmaxy]];
    destruct Hoff as [[? Hoff]|[(? & ? & Hoff)|[? Hoff]]];
    split_and!; try reflexivity; qarith.
Qed.

Lemma X13_control_points_inside_the_box_witness :
  let p := curvePoints 240 80 560 400 in
  cp_c1x p = cp_c2x p
  ∧ (Qmin 240 560 <= cp_c1x p)%Q ∧ (cp_c1x p <= Qmax 240 560)%Q
  ∧ (Qmin 80 400 <= cp_c1y p)%Q ∧ (cp_c1y p <= Qmax 80 400)%Q
  ∧ (Qmin 80 400 <= cp_c2y p)%Q ∧ (cp_c2y p <= Qmax 80 400)%Q
  ∧ (-80 <= cp_c1y p - 80)%Q ∧ (cp_c1y p - 80 <= 80)%Q
  ∧ (-80 <= 400 - cp_c2y p)%Q ∧ (400 - cp_c2y p <= 80)%Q.
Proof. apply (X13_control_points_inside_the_box 240 80 560 400). Defined.

(** X14.  Drawn from the second endpoint to the first, the curve of
    [buildCurvePath] has the same two control points in the opposite order:
    both directions trace the same curve.  This rests on the offset being
    odd in [dy] and on nothing else of the product [dy * 0.3]. *)
Theorem X14_reversed_curve x1 y1 x2 y2 :
  let p := curvePoints x1 y1 x2 y2 in
  let q := curvePoints x2 y2 x1 y1 in
  (curveOffset (y1 - y2) == - curveOffset (y2 - y1))%Q
  ∧ (cp_x1 q == cp_x2 p)%Q ∧ (cp_y1 q == cp_y2 p)%Q
  ∧ (cp_c1x q == cp_c2x p)%Q ∧ (cp_c1y q == cp_c2y p)%Q
  ∧ (cp_c2x q == cp_c1x p)%Q ∧ (cp_c2y q == cp_c1y p)%Q
  ∧ (cp_x2 q == cp_x1 p)%Q ∧ (cp_y2 q == cp_y1 p)%Q.
Proof.
  simpl.
  assert (curveOffset (y1 - y2) == - curveOffset (y2 - y1))%Q as Hodd.
  { destruct (curveOffset_cases (y2 - y1)) as [[? Hp]|[(? & ? & Hp)|[? Hp]]];
      destruct (curveOffset_cases (y1 - y2)) as [[? Hq]|[(? & ? & Hq)|[? Hq]]];
      qarith. }
  split_and!; qarith.
Qed.

Lemma X14_reversed_curve_witness :
  let p := curvePoints 240 (-39) 560 63 in
  let q := curvePoints 560 63 240 (-39) in
  (curveOffset (-39 - 63) == - curveOffset (63 - -39))%Q
  ∧ (cp_x1 q == cp_x2 p)%Q ∧ (cp_y1 q == cp_y2 p)%Q
  ∧ (cp_c1x q == cp_c2x p)%Q ∧ (cp_c1y q == cp_c2y p)%Q
  ∧ (cp_c2x q == cp_c1x p)%Q ∧ (cp_c2y q == cp_c1y p)%Q
  ∧ (cp_x2 q == cp_x1 p)%Q ∧ (cp_y2 q == cp_y1 p)%Q.
Proof. apply (X14_reversed_curve 240 (-39) 560 63). Defined.

(** ** Colours *)

(** X15.  The colours tell the kinds apart: no two kinds of edge have the
    same stroke, and no two kinds of node the same pair of fill and stroke,
    although variable and external nodes share their stroke and variable and
    independent nodes their fill. *)
Theorem X15_colours_identify_kinds :
  (∀ k1 k2, style_stroke (getEdgeStyle k1) = style_stroke (getEdgeStyle k2) → k1 = k2)
  ∧ (∀ k1 k2, nodeColors k1 = nodeColors k2 → k1 = k2)
  ∧ (nodeColors KindVariable).2 = (nodeColors KindExternal).2
  ∧ (nodeColors KindVariable).1 = (nodeColors KindIndependent).1.
Proof.
  split_and!; [| |done|done].
  - intros [] []; simpl; intros Heq; try done; discriminate.
  - intros [] []; simpl; intros Heq; try done; discriminate.
Qed.

Lemma X15_colours_identify_kinds_witness : KindJsx = KindJsx.
Proof.
  apply (proj1 (proj2 X15_colours_identify_kinds) KindJsx KindJsx). reflexivity.
Defined.

(** ** What is drawn *)

Lemma applyJsxTreeLayout_nodes_nil fuel layout layout' :
  applyJsxTreeLayout fuel layout = Some layout' →
  nodes layout' = [] ↔ nodes layout = [].
Proof.
  intros Happ. pose proof (applyJsxTreeLayout_ids _ _ _ Happ) as Hids.
  apply (f_equal length) in Hids. rewrite !length_fmap in Hids.
  rewrite <- !length_zero_iff_nil. lia.
Qed.

Lemma applyJsxTreeLayout_edge_ids fuel layout layout' :
  applyJsxTreeLayout fuel layout = Some layout' →
  edge_id <$> edges layout' = edge_id <$> edges layout.
Proof.
  intros Happ. destruct (decide (jsxNodesOf (nodes layout) = [])) as [Hnil|Hjsx].
  - rewrite applyJsxTreeLayout_passthrough in Happ by done. by injection Happ as <-.
  - destruct (applyJsxTreeLayout_inv _ _ _ Hjsx Happ)
      as (tr & st & ps & _ & _ & _ & _ & _ & ->).
    cbn [edges]. rewrite <- list_fmap_compose. by apply list_fmap_ext.
Qed.

Lemma applyJsxTreeLayout_colX fuel layout layout' :
  applyJsxTreeLayout fuel layout = Some layout' → colX layout' = colX layout.
Proof.
  intros Happ. destruct (decide (jsxNodesOf (nodes layout) = [])) as [Hnil|Hjsx].
  - rewrite applyJsxTreeLayout_passthrough in Happ by done. by injection Happ as <-.
  - by destruct (applyJsxTreeLayout_inv _ _ _ Hjsx Happ)
      as (tr & st & ps & _ & _ & _ & _ & _ & ->).
Qed.

Lemma result_edge_at fuel layout layout' i e :
  applyJsxTreeLayout fuel layout = Some layout' →
  edges layout !! i = Some e →
  ∃ e', edges layout' !! i = Some e'
        ∧ edge_id e' = edge_id e ∧ edge_kind e' = edge_kind e
        ∧ edge_label e' = edge_label e.
Proof.
  intros Happ He. destruct (decide (jsxNodesOf (nodes layout) = [])) as [Hnil|Hjsx].
  - rewrite applyJsxTreeLayout_passthrough in Happ by done. injection Happ as <-.
    by exists e.
  - destruct (applyJsxTreeLayout_inv _ _ _ Hjsx Happ)
      as (tr & st & ps & _ & _ & _ & _ & _ & ->).
    cbn [edges]. eexists. rewrite list_lookup_fmap, He. done.
Qed.

Lemma result_node_fields fuel layout layout' j n :
  applyJsxTreeLayout fuel layout = Some layout' →
  nodes layout !! j = Some n →
  ∃ m, nodes layout' !! j = Some m
       ∧ node_id m = node_id n ∧ node_kind m = node_kind n
       ∧ node_label m = node_label n
       ∧ node_width m = node_width n ∧ node_height m = node_height n.
Proof.
  intros Happ Hn. destruct (decide (jsxNodesOf (nodes layout) = [])) as [Hnil|Hjsx].
  - rewrite applyJsxTreeLayout_passthrough in Happ by done. injection Happ as <-.
    by exists n.
  - destruct (applyJsxTreeLayout_inv _ _ _ Hjsx Happ)
      as (tr & st & ps & _ & _ & _ & _ & _ & ->).
    cbn [nodes]. eexists. rewrite list_lookup_fmap, Hn.
    split_and!; [done|apply moveNode_id|apply moveNode_kind|apply moveNode_label
                |apply moveNode_width|apply moveNode_height].
Qed.

Lemma canvas_holds_nodes fuel layout layout' m :
  jsxNodesOf (nodes layout) ≠ [] →
  applyJsxTreeLayout fuel layout = Some layout' →
  m ∈ nodes layout' →
  (rightOf m <= width layout')%Q ∧ (bottomOf m <= height layout')%Q.
Proof.
  intros Hjsx Happ Hm.
  destruct (applyJsxTreeLayout_inv _ _ _ Hjsx Happ)
    as (tr & st & ps & _ & _ & _ & _ & _ & ->).
  cbn [nodes width height] in *. split.
  - by apply maxXOf_ge_right.
  - by apply maxYOf_ge_bottom.
Qed.

(** With a jsx node in the layout, every edge of the result is the edge of
    the input, its endpoints read off the nodes of the result. *)
Lemma result_edge_snapped fuel layout layout' i e :
  jsxNodesOf (nodes layout) ≠ [] →
  applyJsxTreeLayout fuel layout = Some layout' →
  edges layout !! i = Some e →
  edges layout' !! i = Some (snapEdge (nodeByIdOf (nodes layout')) e).
Proof.
  intros Hjsx Happ He.
  destruct (applyJsxTreeLayout_inv _ _ _ Hjsx Happ)
    as (tr & st & ps & _ & _ & _ & _ & _ & ->).
  cbn [nodes edges]. by rewrite list_lookup_fmap, He.
Qed.

(** The coordinates [snapEndpoint] leaves in an endpoint are its place among
    the nodes. *)
Lemma snapEndpoint_place ns ep :
  endpointAt ns ep (ep_x (snapEndpoint (nodeByIdOf ns) ep))
                   (ep_y (snapEndpoint (nodeByIdOf ns) ep)).
Proof.
  unfold endpointAt, unanchored.
  destruct (ep_nodeId ep) as [i|] eqn:Hid.
  - destruct (decide (i = EmptyString)) as [->|Hne].
    + left. rewrite snapEndpoint_miss by (right; left; done).
      split_and!; [right; by left|done|done].
    + destruct (lastWithId i ns) as [n|] eqn:Hlast.
      * right. destruct (lastWithId_elem _ _ _ Hlast) as [Hn Hni].
        rewrite <- nodeByIdOf_lookup in Hlast.
        destruct (snapEndpoint_hit _ _ _ _ Hid Hne Hlast) as [Hx Hy].
        exists n. rewrite Hni. by split_and!.
      * left. rewrite snapEndpoint_miss.
        -- split_and!; [|done|done]. right. right. exists i. split; [done|].
           intros Hin. apply lastWithId_is_Some in Hin as [n Hn]. congruence.
        -- right. right. exists i. split; [done|]. by rewrite nodeByIdOf_lookup.
  - left. rewrite snapEndpoint_miss by (by left). split_and!; [by left|done|done].
Qed.

Section DrawingFacts.
Variable numberToString : Q → string.
Variable MappingResult : Type.
Variable buildGraphFromMappingResult : option MappingResult → GraphLayout.

Local Abbreviation render := (RenderGraphSvg numberToString MappingResult buildGraphFromMappingResult).
Local Abbreviation base := buildGraphFromMappingResult.

Lemma RenderGraphSvg_inv fuel mr r :
  render fuel mr = Some r →
  ∃ layout,
    applyJsxTreeLayout fuel (base mr) = Some layout
    ∧ r = match mr with
          | None => NoResult
          | Some _ =>
              if decide (length (nodes layout) = 0) then NoNodes
              else Drawing {| svg_width := width layout;
                              svg_height := height layout;
                              svg_defs := markerDefs;
                              svg_titles := columnTitles (colX layout);
                              svg_edges := edgeView numberToString <$> edges layout;
                              svg_nodes := nodeView <$> nodes layout |}
          end.
Proof.
  unfold RenderGraphSvg. destruct (applyJsxTreeLayout fuel (base mr)) as [layout|]; [|done].
  simpl. intros [= <-]. by exists layout.
Qed.

Lemma RenderGraphSvg_Drawing fuel mr svg :
  render fuel mr = Some (Drawing svg) →
  ∃ layout,
    applyJsxTreeLayout fuel (base mr) = Some layout
    ∧ svg = {| svg_width := width layout;
               svg_height := height layout;
               svg_defs := markerDefs;
               svg_titles := columnTitles (colX layout);
               svg_edges := edgeView numberToString <$> edges layout;
               svg_nodes := nodeView <$> nodes layout |}.
Proof.
  intros Hr. apply RenderGraphSvg_inv in Hr as (layout & Happ & Hr).
  exists layout. split; [done|]. destruct mr; [|done].
  destruct (decide _); [done|]. by injection Hr.
Qed.

(** X16.  Whenever [RenderGraphSvg] returns, it returns the message for a
    missing analysis exactly when there is no mapping result, the message
    for an empty graph exactly when there is one and the base graph has no
    node, and otherwise a drawing with one group per node of the base graph,
    keyed by the identifiers of the nodes in their order, one group per edge,
    keyed likewise, the three markers, and the five column titles at the
    anchors of the base graph. *)
Theorem X16_messages_and_drawing fuel mr r :
  render fuel mr = Some r →
  (r = NoResult ↔ mr = None)
  ∧ (r = NoNodes ↔ mr ≠ None ∧ nodes (base mr) = [])
  ∧ ∀ svg, r = Drawing svg →
      mr ≠ None ∧ nodes (base mr) ≠ []
      ∧ nv_key <$> svg_nodes svg = node_id <$> nodes (base mr)
      ∧ ev_key <$> svg_edges svg = edge_id <$> edges (base mr)
      ∧ svg_defs svg = markerDefs
      ∧ svg_titles svg = columnTitles (colX (base mr)).
Proof.
  intros Hr. apply RenderGraphSvg_inv in Hr as (layout & Happ & ->).
  pose proof (applyJsxTreeLayout_nodes_nil _ _ _ Happ) as Hnil.
  destruct mr as [m|].
  - destruct (decide (length (nodes layout) = 0)) as [Hlen|Hlen].
    + apply length_zero_iff_nil in Hlen. split_and!; [done| |done].
      split; [|done]. intros _. split; [done|]. by apply Hnil.
    + split_and!; [done| |].
      * split; [done|]. intros [_ Hbase]. apply Hnil in Hbase.
        by rewrite Hbase in Hlen.
      * intros svg [= <-]. cbn [svg_nodes svg_edges svg_defs svg_titles].
        split_and!; [done| | | |done|].
        -- intros Hbase. apply Hnil in Hbase. by rewrite Hbase in Hlen.
        -- rewrite <- list_fmap_compose.
           by rewrite <- (applyJsxTreeLayout_ids _ _ _ Happ).
        -- rewrite <- list_fmap_compose.
           by rewrite <- (applyJsxTreeLayout_edge_ids _ _ _ Happ).
        -- by rewrite (applyJsxTreeLayout_colX _ _ _ Happ).
  - split_and!; [done| |done]. split; [done|]. by intros [? _].
Qed.

(** X17.  [RenderGraphSvg] returns, with either message or a drawing, as
    soon as no jsx node of the base graph has the empty string as identifier
    and the call stack may be as deep as there are jsx nodes in the base
    graph: the layout of the base graph is computed first and returns; with
    no mapping result the message for a missing analysis follows, and a
    drawing has the width and height of that layout. *)
Theorem X17_renderer_returns fuel mr :
  EmptyString ∉ jsxIds (base mr) →
  length (jsxNodesOf (nodes (base mr))) ≤ fuel →
  ∃ r layout,
    render fuel mr = Some r
    ∧ applyJsxTreeLayout fuel (base mr) = Some layout
    ∧ (mr = None → r = NoResult)
    ∧ ∀ svg, r = Drawing svg →
        svg_width svg = width layout ∧ svg_height svg = height layout.
Proof.
  intros Hempty Hfuel.
  destruct (applyJsxTreeLayout_terminates _ _ Hempty Hfuel) as [layout Happ].
  unfold RenderGraphSvg. rewrite Happ. simpl. eexists. exists layout.
  split_and!; [done|done| |].
  - by intros ->.
  - intros svg. destruct mr; [|done]. destruct (decide _); [done|].
    by intros [= <-].
Qed.

Lemma edgeView_fields e :
  let ev := edgeView numberToString e in
  ev_key ev = edge_id e
  ∧ path_stroke (ev_path ev) = style_stroke (getEdgeStyle (edge_kind e))
  ∧ path_markerEnd (ev_path ev)
    = "url(#" +:+ style_markerId (getEdgeStyle (edge_kind e)) +:+ ")"
  ∧ (path_strokeDasharray (ev_path ev) = None ↔ edge_kind e = EdgeStateMutation)
  ∧ (ev_label ev = None ↔ edge_label e = None ∨ edge_label e = Some EmptyString)
  ∧ ∀ txt, ev_label ev = Some txt →
      edge_label e = Some (text_content txt)
      ∧ text_fill txt = style_stroke (getEdgeStyle (edge_kind e)).
Proof.
  unfold edgeView. cbn [ev_key ev_path ev_label path_stroke path_markerEnd
                          path_strokeDasharray].
  split_and!; [done|done|done| | |].
  - destruct (edge_kind e); simpl; split; done.
  - destruct (decide (truthy (edge_label e))) as [Ht|Hf].
    + split; [done|]. intros [Hl|Hl]; rewrite Hl in Ht; by simpl in Ht.
    + split; [|done]. intros _. destruct (edge_label e) as [l|]; [|by left].
      right. f_equal. simpl in Hf. by destruct (decide (l = EmptyString)).
  - intros txt. destruct (decide (truthy (edge_label e))) as [Ht|Hf]; [|done].
    intros [= <-]. simpl. split; [|done].
    by destruct (edge_label e).
Qed.

(** X18.  In a drawing, the group of an edge of the base graph, found at
    the index of the edge, carries its identifier as key and the stroke of
    its kind; its arrow head refers to one of the markers the drawing
    defines, whose fill is the stroke of the edge for every kind but
    external; the path is solid for a state mutation and dashed for every
    other kind; and the group holds a label exactly when the label of the
    edge is a non-empty string, drawn with that text in the stroke of the
    edge. *)
Theorem X18_edge_groups fuel mr svg i e :
  render fuel mr = Some (Drawing svg) →
  edges (base mr) !! i = Some e →
  ∃ ev m,
    svg_edges svg !! i = Some ev
    ∧ ev_key ev = edge_id e
    ∧ path_stroke (ev_path ev) = style_stroke (getEdgeStyle (edge_kind e))
    ∧ m ∈ svg_defs svg
    ∧ path_markerEnd (ev_path ev) = "url(#" +:+ marker_id m +:+ ")"
    ∧ (marker_fill m = path_stroke (ev_path ev) ↔ edge_kind e ≠ EdgeExternal)
    ∧ (path_strokeDasharray (ev_path ev) = None ↔ edge_kind e = EdgeStateMutation)
    ∧ (ev_label ev = None ↔ edge_label e = None ∨ edge_label e = Some EmptyString)
    ∧ ∀ txt, ev_label ev = Some txt →
        edge_label e = Some (text_content txt)
        ∧ text_fill txt = path_stroke (ev_path ev).
Proof.
  intros Hr He. apply RenderGraphSvg_Drawing in Hr as (layout & Happ & ->).
  destruct (result_edge_at _ _ _ _ _ Happ He) as (e' & He' & Hid & Hkind & Hlabel).
  cbn [svg_edges svg_defs].
  exists (edgeView numberToString e').
  assert (∃ m, m ∈ markerDefs
               ∧ marker_id m = style_markerId (getEdgeStyle (edge_kind e))
               ∧ (marker_fill m = style_stroke (getEdgeStyle (edge_kind e))
                  ↔ edge_kind e ≠ EdgeExternal)) as (m & Hm & Hmid & Hfill).
  { destruct (edge_kind e); simpl.
    - eexists. split; [left|]. done.
    - eexists. split; [right; left|]. done.
    - eexists. split; [right; right; left|]. done.
    - eexists. split; [right; left|]. split; [done|]. split; [discriminate|done]. }
  exists m.
  destruct (edgeView_fields e') as (Hkey & Hstroke & Hmarker & Hdash & Hnone & Hsome).
  rewrite Hkind in Hstroke, Hmarker, Hdash, Hsome. rewrite Hlabel in Hnone, Hsome.
  rewrite Hstroke, Hmarker, Hkey, Hmid.
  split_and!; [by rewrite list_lookup_fmap, He'|done..].
Qed.

(** X19.  In a drawing, the group of a node of the base graph, found at the
    index of the node, carries its identifier as key, its label as text, its
    width and height as the size of the rectangle and the colours of its
    kind; the text stands at the horizontal centre of the rectangle, 3 below
    its vertical centre; and when the base graph has a jsx node, the
    rectangle ends at least 40 before the right and the bottom border of the
    drawing. *)
Theorem X19_node_groups fuel mr svg j n :
  render fuel mr = Some (Drawing svg) →
  nodes (base mr) !! j = Some n →
  ∃ v,
    svg_nodes svg !! j = Some v
    ∧ nv_key v = node_id n
    ∧ text_content (nv_text v) = node_label n
    ∧ rect_width (nv_rect v) = node_width n
    ∧ rect_height (nv_rect v) = node_height n
    ∧ (rect_fill (nv_rect v), rect_stroke (nv_rect v)) = nodeColors (node_kind n)
    ∧ (rect_x (nv_rect v) + rect_width (nv_rect v) / 2 == text_x (nv_text v))%Q
    ∧ (rect_y (nv_rect v) + rect_height (nv_rect v) / 2 + 3 == text_y (nv_text v))%Q
    ∧ (jsxNodesOf (nodes (base mr)) ≠ [] →
       (rect_x (nv_rect v) + rect_width (nv_rect v) + 40 <= svg_width svg)%Q
       ∧ (rect_y (nv_rect v) + rect_height (nv_rect v) + 40 <= svg_height svg)%Q).
Proof.
  intros Hr Hn. apply RenderGraphSvg_Drawing in Hr as (layout & Happ & ->).
  destruct (result_node_fields _ _ _ _ _ Happ Hn)
    as (m & Hm & Hid & Hkind & Hlabel & Hw & Hh).
  exists (nodeView m). cbn [svg_nodes svg_width svg_height].
  split; [by rewrite list_lookup_fmap, Hm|].
  unfold nodeView. cbn [nv_key nv_rect nv_text rect_x rect_y rect_width rect_height
                          rect_fill rect_stroke text_x text_y text_content].
  rewrite Hkind, Hw, Hh.
  split_and!; [done|done|done|done| | | |].
  - by destruct (nodeColors (node_kind n)).
  - qarith.
  - qarith.
  - intros Hjsx. apply list_elem_of_lookup_2 in Hm.
    destruct (canvas_holds_nodes _ _ _ _ Hjsx Happ Hm) as [Hright Hbottom].
    unfold rightOf, bottomOf in *. rewrite Hw in Hright. rewrite Hh in Hbottom.
    split; qarith.
Qed.

(** X20.  In a drawing of a base graph with a jsx node, an edge whose two
    endpoints name, by non-empty identifiers, nodes of the base graph is
    drawn from the centre of a drawn node with the first identifier to the
    centre of a drawn node with the second, whatever the coordinates cached
    in the edge were; its label, if any, stands halfway between the two
    centres, 4 higher. *)
Theorem X20_edges_join_node_centres fuel mr svg i e f t :
  render fuel mr = Some (Drawing svg) →
  jsxNodesOf (nodes (base mr)) ≠ [] →
  edges (base mr) !! i = Some e →
  ep_nodeId (edge_from e) = Some f → f ≠ EmptyString → f ∈ node_id <$> nodes (base mr) →
  ep_nodeId (edge_to e) = Some t → t ≠ EmptyString → t ∈ node_id <$> nodes (base mr) →
  ∃ ev nf nt,
    svg_edges svg !! i = Some ev
    ∧ nodeView nf ∈ svg_nodes svg ∧ node_id nf = f
    ∧ nodeView nt ∈ svg_nodes svg ∧ node_id nt = t
    ∧ path_d (ev_path ev)
      = buildCurvePath numberToString (node_x nf) (node_y nf) (node_x nt) (node_y nt)
    ∧ ∀ txt, ev_label ev = Some txt →
        text_x txt = ((node_x nf + node_x nt) / 2)%Q
        ∧ text_y txt = ((node_y nf + node_y nt) / 2 - 4)%Q.
Proof.
  intros Hr Hjsx He Hf Hfne Hfin Ht Htne Htin.
  apply RenderGraphSvg_Drawing in Hr as (layout & Happ & ->).
  pose proof (applyJsxTreeLayout_ids _ _ _ Happ) as Hids.
  rewrite <- Hids in Hfin, Htin.
  apply lastWithId_is_Some in Hfin as [nf Hnf], Htin as [nt Hnt].
  destruct (lastWithId_elem _ _ _ Hnf) as [Hnfin Hnfid].
  destruct (lastWithId_elem _ _ _ Hnt) as [Hntin Hntid].
  destruct (applyJsxTreeLayout_inv _ _ _ Hjsx Happ)
    as (tr & st & ps & _ & _ & _ & _ & _ & Hout).
  rewrite Hout in Hnf, Hnt, Hnfin, Hntin |- *. cbn [nodes edges] in *.
  cbn [svg_edges svg_nodes].
  rewrite <- nodeByIdOf_lookup in Hnf, Hnt.
  destruct (snapEndpoint_hit _ _ _ _ Hf Hfne Hnf) as [Hfx Hfy].
  destruct (snapEndpoint_hit _ _ _ _ Ht Htne Hnt) as [Htx Hty].
  eexists. exists nf, nt.
  split; [by rewrite !list_lookup_fmap, He|].
  split_and!; [by apply list_elem_of_fmap_2|done
              |by apply list_elem_of_fmap_2|done| |].
  - unfold edgeView, snapEdge. cbn [ev_path path_d edge_from edge_to].
    by rewrite Hfx, Hfy, Htx, Hty.
  - intros txt. unfold edgeView, snapEdge. cbn [ev_label edge_from edge_to edge_label].
    destruct (decide _); [|done]. intros [= <-]. simpl.
    by rewrite Hfx, Hfy, Htx, Hty.
Qed.

(** X21.  In a drawing of a base graph with a jsx node, every edge of the
    base graph is drawn between the places of its two endpoints among the
    nodes of the layout that is drawn: for an endpoint whose reference is a
    non-empty identifier of a node, the centre of a drawn node with that
    identifier; for an endpoint without reference, with the empty string or
    with an identifier no node carries, the coordinates cached in it.  The
    label, if any, stands halfway between the two places, 4 higher. *)
Theorem X21_edges_are_drawn_between_endpoint_places fuel mr svg i e :
  render fuel mr = Some (Drawing svg) →
  jsxNodesOf (nodes (base mr)) ≠ [] →
  edges (base mr) !! i = Some e →
  ∃ layout ev fx fy tx ty,
    applyJsxTreeLayout fuel (base mr) = Some layout
    ∧ svg_nodes svg = nodeView <$> nodes layout
    ∧ node_id <$> nodes layout = node_id <$> nodes (base mr)
    ∧ svg_edges svg !! i = Some ev
    ∧ endpointAt (nodes layout) (edge_from e) fx fy
    ∧ endpointAt (nodes layout) (edge_to e) tx ty
    ∧ path_d (ev_path ev) = buildCurvePath numberToString fx fy tx ty
    ∧ ∀ txt, ev_label ev = Some txt →
        text_x txt = ((fx + tx) / 2)%Q ∧ text_y txt = ((fy + ty) / 2 - 4)%Q.
Proof.
  intros Hr Hjsx He.
  apply RenderGraphSvg_Drawing in Hr as (layout & Happ & ->).
  pose proof (result_edge_snapped _ _ _ _ _ Hjsx Happ He) as He'.
  exists layout, (edgeView numberToString (snapEdge (nodeByIdOf (nodes layout)) e)).
  exists (ep_x (snapEndpoint (nodeByIdOf (nodes layout)) (edge_from e))),
         (ep_y (snapEndpoint (nodeByIdOf (nodes layout)) (edge_from e))),
         (ep_x (snapEndpoint (nodeByIdOf (nodes layout)) (edge_to e))),
         (ep_y (snapEndpoint (nodeByIdOf (nodes layout)) (edge_to e))).
  cbn [svg_nodes svg_edges].
  split; [done|]. split; [done|].
  split; [by apply (applyJsxTreeLayout_ids fuel)|].
  split; [by rewrite list_lookup_fmap, He'|].
  split; [apply snapEndpoint_place|]. split; [apply snapEndpoint_place|].
  split; [done|].
  intros txt. unfold edgeView, snapEdge. cbn [ev_label edge_from edge_to edge_label].
  destruct (decide _); [|done]. by intros [= <-].
Qed.

(** X22.  The depth the call stack may have decides only whether a result
    is returned, never which one: what [RenderGraphSvg] returns at some
    depth it returns at every larger depth, from the same layout; and at any
    depth it fails to return exactly when the transformer fails on the base
    graph, with or without a mapping result. *)
Theorem X22_result_does_not_depend_on_the_stack fuel fuel' mr r :
  fuel ≤ fuel' →
  render fuel mr = Some r →
  render fuel' mr = Some r
  ∧ (∃ layout, applyJsxTreeLayout fuel (base mr) = Some layout
               ∧ applyJsxTreeLayout fuel' (base mr) = Some layout)
  ∧ ∀ f, render f mr = None ↔ applyJsxTreeLayout f (base mr) = None.
Proof.
  intros Hle Hr. pose proof Hr as Hr'.
  apply RenderGraphSvg_inv in Hr' as (layout & Happ & _).
  pose proof (applyJsxTreeLayout_fuel_mono _ _ _ _ Hle Happ) as Happ'.
  split_and!.
  - unfold RenderGraphSvg in *. by rewrite Happ in Hr; rewrite Happ'.
  - by exists layout.
  - intros f. unfold RenderGraphSvg.
    by destruct (applyJsxTreeLayout f (base mr)).
Qed.
End DrawingFacts.

Lemma X16_messages_and_drawing_witness :
  let r := Drawing twoRootsSvg in
  (r = NoResult ↔ Some tt = None)
  ∧ (r = NoNodes ↔ Some tt ≠ None ∧ nodes twoRoots = [])
  ∧ ∀ svg, r = Drawing svg →
      Some tt ≠ None ∧ nodes twoRoots ≠ []
      ∧ nv_key <$> svg_nodes svg = node_id <$> nodes twoRoots
      ∧ ev_key <$> svg_edges svg = edge_id <$> edges twoRoots
      ∧ svg_defs svg = markerDefs
      ∧ svg_titles svg = columnTitles (colX twoRoots).
Proof.
  apply (X16_messages_and_drawing (λ _, "n") unit (λ _, twoRoots) 3 (Some tt)).
  vm_compute. reflexivity.
Defined.

Lemma X17_renderer_returns_witness :
  ∃ r layout,
    RenderGraphSvg (λ _, "n") unit (λ _, twoRoots) 4 (Some tt) = Some r
    ∧ applyJsxTreeLayout 4 twoRoots = Some layout
    ∧ (Some tt = None → r = NoResult)
    ∧ ∀ svg, r = Drawing svg →
        svg_width svg = width layout ∧ svg_height svg = height layout.
Proof.
  apply (X17_renderer_returns (λ _, "n") unit (λ _, twoRoots) 4 (Some tt)).
  - apply (bool_decide_unpack _). vm_compute. exact I.
  - vm_compute. lia.
Defined.

Lemma X18_edge_groups_witness :
  let e := {| edge_id := "e2"; edge_kind := EdgeExternal;
              edge_from := {| ep_nodeId := None; ep_x := 10; ep_y := 20 |};
              edge_to := {| ep_nodeId := Some "nowhere"; ep_x := 30; ep_y := 40 |};
              edge_label := Some "ext" |} in
  ∃ ev m,
    svg_edges twoRootsSvg !! 1 = Some ev
    ∧ ev_key ev = edge_id e
    ∧ path_stroke (ev_path ev) = style_stroke (getEdgeStyle (edge_kind e))
    ∧ m ∈ svg_defs twoRootsSvg
    ∧ path_markerEnd (ev_path ev) = "url(#" +:+ marker_id m +:+ ")"
    ∧ (marker_fill m = path_stroke (ev_path ev) ↔ edge_kind e ≠ EdgeExternal)
    ∧ (path_strokeDasharray (ev_path ev) = None ↔ edge_kind e = EdgeStateMutation)
    ∧ (ev_label ev = None ↔ edge_label e = None ∨ edge_label e = Some EmptyString)
    ∧ ∀ txt, ev_label ev = Some txt →
        edge_label e = Some (text_content txt)
        ∧ text_fill txt = path_stroke (ev_path ev).
Proof.
  apply (X18_edge_groups (λ _, "n") unit (λ _, twoRoots) 3 (Some tt)).
  - vm_compute. reflexivity.
  - reflexivity.
Defined.

Lemma X19_node_groups_witness :
  let n := mkNode "button" KindJsx 720 120 (Some "div") in
  ∃ v,
    svg_nodes twoRootsSvg !! 2 = Some v
    ∧ nv_key v = node_id n
    ∧ text_content (nv_text v) = node_label n
    ∧ rect_width (nv_rect v) = node_width n
    ∧ rect_height (nv_rect v) = node_height n
    ∧ (rect_fill (nv_rect v), rect_stroke (nv_rect v)) = nodeColors (node_kind n)
    ∧ (rect_x (nv_rect v) + rect_width (nv_rect v) / 2 == text_x (nv_text v))%Q
    ∧ (rect_y (nv_rect v) + rect_height (nv_rect v) / 2 + 3 == text_y (nv_text v))%Q
    ∧ (jsxNodesOf (nodes twoRoots) ≠ [] →
       (rect_x (nv_rect v) + rect_width (nv_rect v) + 40 <= svg_width twoRootsSvg)%Q
       ∧ (rect_y (nv_rect v) + rect_height (nv_rect v) + 40 <= svg_height twoRootsSvg)%Q).
Proof.
  apply (X19_node_groups (λ _, "n") unit (λ _, twoRoots) 3 (Some tt)).
  - vm_compute. reflexivity.
  - reflexivity.
Defined.

Lemma X20_edges_join_node_centres_witness :
  ∃ ev nf nt,
    svg_edges twoRootsSvg !! 0 = Some ev
    ∧ nodeView nf ∈ svg_nodes twoRootsSvg ∧ node_id nf = "count"
    ∧ nodeView nt ∈ svg_nodes twoRootsSvg ∧ node_id nt = "button"
    ∧ path_d (ev_path ev)
      = buildCurvePath (λ _, "n") (node_x nf) (node_y nf) (node_x nt) (node_y nt)
    ∧ ∀ txt, ev_label ev = Some txt →
        text_x txt = ((node_x nf + node_x nt) / 2)%Q
        ∧ text_y txt = ((node_y nf + node_y nt) / 2 - 4)%Q.
Proof.
  apply (X20_edges_join_node_centres (λ _, "n") unit (λ _, twoRoots) 3 (Some tt) _ 0
           {| edge_id := "e1"; edge_kind := EdgeStateDependency;
              edge_from := {| ep_nodeId := Some "count"; ep_x := 250; ep_y := 95 |};
              edge_to := {| ep_nodeId := Some "button"; ep_x := 720; ep_y := 120 |};
              edge_label := None |}).
  - vm_compute. reflexivity.
  - vm_compute. discriminate.
  - reflexivity.
  - reflexivity.
  - discriminate.
  - apply (bool_decide_unpack _). vm_compute. exact I.
  - reflexivity.
  - discriminate.
  - apply (bool_decide_unpack _). vm_compute. exact I.
Defined.

Lemma X21_edges_are_drawn_between_endpoint_places_witness :
  let e := {| edge_id := "e2"; edge_kind := EdgeExternal;
              edge_from := {| ep_nodeId := None; ep_x := 10; ep_y := 20 |};
              edge_to := {| ep_nodeId := Some "nowhere"; ep_x := 30; ep_y := 40 |};
              edge_label := Some "ext" |} in
  ∃ layout ev fx fy tx ty,
    applyJsxTreeLayout 3 twoRoots = Some layout
    ∧ svg_nodes twoRootsSvg = nodeView <$> nodes layout
    ∧ node_id <$> nodes layout = node_id <$> nodes twoRoots
    ∧ svg_edges twoRootsSvg !! 1 = Some ev
    ∧ endpointAt (nodes layout) (edge_from e) fx fy
    ∧ endpointAt (nodes layout) (edge_to e) tx ty
    ∧ path_d (ev_path ev) = buildCurvePath (λ _, "n") fx fy tx ty
    ∧ ∀ txt, ev_label ev = Some txt →
        text_x txt = ((fx + tx) / 2)%Q ∧ text_y txt = ((fy + ty) / 2 - 4)%Q.
Proof.
  apply (X21_edges_are_drawn_between_endpoint_places (λ _, "n") unit (λ _, twoRoots)
           3 (Some tt)).
  - vm_compute. reflexivity.
  - vm_compute. discriminate.
  - reflexivity.
Defined.

Lemma X22_result_does_not_depend_on_the_stack_witness :
  RenderGraphSvg (λ _, "n") unit (λ _, twoRoots) 7 (Some tt) = Some (Drawing twoRootsSvg)
  ∧ (∃ layout, applyJsxTreeLayout 3 twoRoots = Some layout
               ∧ applyJsxTreeLayout 7 twoRoots = Some layout)
  ∧ ∀ f, RenderGraphSvg (λ _, "n") unit (λ _, twoRoots) f (Some tt) = None
         ↔ applyJsxTreeLayout f twoRoots = None.
Proof.
  apply (X22_result_does_not_depend_on_the_stack (λ _, "n") unit (λ _, twoRoots)
           3 7 (Some tt)).
  - lia.
  - vm_compute. reflexivity.
Defined.
